(** * kr.dev/diff: the structural walker, its sinks and the value renderer

    A shallow embedding of [diff.go] (walker, emitters, identity tracker) and
    [format.go] (value renderer), followed by the properties the
    specification states about them.

    Go's [reflect] package is modelled by the module [reflect] below: a
    [reflect.Value] is a type descriptor together with the data word(s) the
    value holds; everything reached through a pointer, a slice header or a
    map header lives in a [world], which the walker only ever reads. *)

From Stdlib Require Import List String Ascii ZArith Bool Lia Arith.
From Stdlib Require Import Permutation Sorting.Sorted.
From Stdlib Require Import Floats.SpecFloat DecimalString.
Import ListNotations.

Local Open Scope string_scope.
Local Open Scope list_scope.
Local Open Scope Z_scope.

Set Implicit Arguments.
Set Warnings "-register-all".

(** ** Outcome of a Go call

    A call either returns, panics, or (in the model only) exhausts the
    recursion budget it was given. *)

Inductive result (A : Type) : Type :=
| Ok (a : A)
| Panic (msg : string)
| OutOfFuel.

Arguments Ok {A} a.
Arguments Panic {A} msg.
Arguments OutOfFuel {A}.

Definition bind {A B : Type} (c : result A) (k : A -> result B) : result B :=
  match c with
  | Ok a => k a
  | Panic m => Panic m
  | OutOfFuel => OutOfFuel
  end.

Notation "x <- c ;; k" := (bind c (fun x => k))
  (at level 61, c at next level, right associativity).
Notation "' pat <- c ;; k" := (bind c (fun x => match x with pat => k end))
  (at level 61, pat pattern, c at next level, right associativity).

(** [for _, x := range xs { s, err = body(s, x) }] *)
Fixpoint forRange {A S : Type} (xs : list A) (body : A -> S -> result S) (s : S)
  : result S :=
  match xs with
  | [] => Ok s
  | x :: xs' => s' <- body x s ;; forRange xs' body s'
  end.

(** [for i := 0; i < n; i++ { ... }] *)
Definition forIndex {S : Type} (n : nat) (body : nat -> S -> result S) (s : S)
  : result S :=
  forRange (seq 0 n) body s.

(** [strconv.Itoa], the text [%d] produces for an [int]. *)
Definition itoa (z : Z) : string := NilZero.string_of_int (Z.to_int z).

(** The line feed and the horizontal tab, written ["\n"] and ["\t"] in Go. *)
Definition LF : string := String "010" EmptyString.
Definition TAB : string := String "009" EmptyString.

(** [strings.Join(xs, "")] *)
Definition join (xs : list string) : string := String.concat "" xs.

(** ** The reflect package *)

Module reflect.

Inductive Kind : Set :=
| Invalid
| Bool
| Int | Int8 | Int16 | Int32 | Int64
| Uint | Uint8 | Uint16 | Uint32 | Uint64 | Uintptr
| Float32 | Float64
| Complex64 | Complex128
| Array | Chan | Func | Interface | Map | Pointer | Slice
| String | Struct | UnsafePointer.

Abbreviation Ptr := Pointer (only parsing).

Definition Kind_eqb (a b : Kind) : bool :=
  match a, b with
  | Invalid, Invalid | Bool, Bool
  | Int, Int | Int8, Int8 | Int16, Int16 | Int32, Int32 | Int64, Int64
  | Uint, Uint | Uint8, Uint8 | Uint16, Uint16 | Uint32, Uint32
  | Uint64, Uint64 | Uintptr, Uintptr
  | Float32, Float32 | Float64, Float64
  | Complex64, Complex64 | Complex128, Complex128
  | Array, Array | Chan, Chan | Func, Func | Interface, Interface
  | Map, Map | Pointer, Pointer | Slice, Slice
  | String, String | Struct, Struct | UnsafePointer, UnsafePointer => true
  | _, _ => false
  end.

(** [Kind.String] *)
Definition KindString (k : Kind) : string :=
  match k with
  | Invalid => "invalid" | Bool => "bool"
  | Int => "int" | Int8 => "int8" | Int16 => "int16" | Int32 => "int32"
  | Int64 => "int64"
  | Uint => "uint" | Uint8 => "uint8" | Uint16 => "uint16"
  | Uint32 => "uint32" | Uint64 => "uint64" | Uintptr => "uintptr"
  | Float32 => "float32" | Float64 => "float64"
  | Complex64 => "complex64" | Complex128 => "complex128"
  | Array => "array" | Chan => "chan" | Func => "func"
  | Interface => "interface" | Map => "map" | Pointer => "ptr"
  | Slice => "slice" | String => "string" | Struct => "struct"
  | UnsafePointer => "unsafe.Pointer"
  end.

Inductive ChanDir : Set := RecvDir | SendDir | BothDir.

Definition ChanDir_eqb (a b : ChanDir) : bool :=
  match a, b with
  | RecvDir, RecvDir | SendDir, SendDir | BothDir, BothDir => true
  | _, _ => false
  end.

(** A [reflect.Type].  Predeclared types and defined (named) types are
    referred to by name, so that a recursive declaration such as
    [type node struct { next *node }] is a finite term; the underlying type
    of a defined type is looked up in the [world].  Two types are identical
    exactly when their descriptors are equal. *)
Inductive rtype : Type :=
| TBasic (k : Kind)
| TNamed (pkgPath name : string)
| TArray (len : nat) (elem : rtype)
| TStruct (fields : list (string * rtype))
| TFunc (ins outs : list rtype) (variadic : bool)
| TInterface (methods : list (string * rtype))
| TMap (key elem : rtype)
| TPtr (elem : rtype)
| TSlice (elem : rtype)
| TChan (dir : ChanDir) (elem : rtype).

(** [t == u] on [reflect.Type]. *)
Fixpoint rtype_eqb (t u : rtype) {struct t} : bool :=
  let fields_eqb :=
    fix fields_eqb (fs gs : list (string * rtype)) {struct fs} : bool :=
      match fs, gs with
      | [], [] => true
      | (n, a) :: fs', (m, b) :: gs' =>
          String.eqb n m && rtype_eqb a b && fields_eqb fs' gs'
      | _, _ => false
      end in
  let types_eqb :=
    fix types_eqb (ts us : list rtype) {struct ts} : bool :=
      match ts, us with
      | [], [] => true
      | a :: ts', b :: us' => rtype_eqb a b && types_eqb ts' us'
      | _, _ => false
      end in
  match t, u with
  | TBasic k, TBasic k' => Kind_eqb k k'
  | TNamed p n, TNamed p' n' => String.eqb p p' && String.eqb n n'
  | TArray n e, TArray n' e' => Nat.eqb n n' && rtype_eqb e e'
  | TStruct fs, TStruct gs => fields_eqb fs gs
  | TFunc i o v, TFunc i' o' v' =>
      types_eqb i i' && types_eqb o o' && Bool.eqb v v'
  | TInterface ms, TInterface ns => fields_eqb ms ns
  | TMap k e, TMap k' e' => rtype_eqb k k' && rtype_eqb e e'
  | TPtr e, TPtr e' => rtype_eqb e e'
  | TSlice e, TSlice e' => rtype_eqb e e'
  | TChan d e, TChan d' e' => ChanDir_eqb d d' && rtype_eqb e e'
  | _, _ => false
  end.

(** A machine address; [0] is nil. *)
Definition addr := Z.

(** A [reflect.Value]: [Zero] is the zero Value ([IsValid] is false); any
    other value carries its type and the data stored in the value itself. *)
Inductive Value : Type :=
| Zero
| Val (t : rtype) (d : data)
with data : Type :=
| DBool (b : bool)
| DInt (i : Z)
| DUint (u : Z)
| DFloat (f : spec_float)
| DComplex (re im : spec_float)
| DString (s : string)
| DElems (vs : list Value)        (* array elements or struct fields, in order *)
| DPointer (p : addr)             (* pointer, map, chan, func, unsafe.Pointer *)
| DSlice (p : addr) (len : nat)   (* slice header: first element, length *)
| DIface (v : Value).             (* interface; [Zero] inside when nil *)

(** What the values refer to: the declared types and the memory behind
    pointers, slice headers and map headers.  The walker and the renderer
    never write to it. *)
Record world : Type := {
  (** underlying type of the defined type [pkgPath.name] *)
  underlying : string -> string -> rtype;
  (** the variable a non-nil pointer of the given pointer type points to *)
  deref : rtype -> addr -> Value;
  (** element [i] of the array that starts at the address, for the given
      slice type *)
  sliceData : rtype -> addr -> nat -> Value;
  (** the entries of the map behind a map header, in the order a
      [MapRange] iteration visits them *)
  mapData : rtype -> addr -> list (Value * Value);
  (** [Type.String] of the runtime's type descriptors *)
  typeString : rtype -> string
}.

(** The type literal behind [t]: [t] itself unless [t] is a defined type. *)
Definition lit (W : world) (t : rtype) : rtype :=
  match t with
  | TNamed p n => underlying W p n
  | _ => t
  end.

(** [t.Kind()] *)
Definition KindOf (W : world) (t : rtype) : Kind :=
  match lit W t with
  | TBasic k => k
  | TNamed _ _ => Invalid
  | TArray _ _ => Array
  | TStruct _ => Struct
  | TFunc _ _ _ => Func
  | TInterface _ => Interface
  | TMap _ _ => Map
  | TPtr _ => Pointer
  | TSlice _ => Slice
  | TChan _ _ => Chan
  end.

(** [t.Name()]: empty for an unnamed (literal) type. *)
Definition Name (t : rtype) : string :=
  match t with
  | TBasic UnsafePointer => "Pointer"
  | TBasic k => KindString k
  | TNamed _ n => n
  | _ => ""
  end.

(** [t.PkgPath()]: empty for predeclared and unnamed types. *)
Definition PkgPath (t : rtype) : string :=
  match t with
  | TBasic UnsafePointer => "unsafe"
  | TNamed p _ => p
  | _ => ""
  end.

(** [t.Len()] *)
Definition TLen (W : world) (t : rtype) : result nat :=
  match lit W t with
  | TArray n _ => Ok n
  | _ => Panic "reflect: Len of non-array type"
  end.

(** [t.NumField()] *)
Definition NumField (W : world) (t : rtype) : result nat :=
  match lit W t with
  | TStruct fs => Ok (List.length fs)
  | _ => Panic "reflect: NumField of non-struct type"
  end.

(** [t.Field(i).Name] *)
Definition FieldName (W : world) (t : rtype) (i : nat) : result string :=
  match lit W t with
  | TStruct fs =>
      match nth_error fs i with
      | Some (n, _) => Ok n
      | None => Panic "reflect: Field index out of bounds"
      end
  | _ => Panic "reflect: Field of non-struct type"
  end.

(** [t.Elem()] *)
Definition TElem (W : world) (t : rtype) : result rtype :=
  match lit W t with
  | TArray _ e | TChan _ e | TMap _ e | TPtr e | TSlice e => Ok e
  | _ => Panic "reflect: Elem of invalid type"
  end.

(** [v.IsValid()] *)
Definition IsValid (v : Value) : bool :=
  match v with
  | Zero => false
  | Val _ _ => true
  end.

(** [v.Type()] *)
Definition TypeOf (v : Value) : result rtype :=
  match v with
  | Zero => Panic "reflect: call of reflect.Value.Type on zero Value"
  | Val t _ => Ok t
  end.

(** [v.IsNil()] *)
Definition IsNil (v : Value) : result bool :=
  match v with
  | Val _ (DPointer p) => Ok (p =? 0)
  | Val _ (DSlice p _) => Ok (p =? 0)
  | Val _ (DIface x) => Ok (negb (IsValid x))
  | _ => Panic "reflect: call of reflect.Value.IsNil on value that cannot be nil"
  end.

(** [v.Pointer()] *)
Definition PointerOf (v : Value) : result addr :=
  match v with
  | Val _ (DPointer p) => Ok p
  | Val _ (DSlice p _) => Ok p
  | _ => Panic "reflect: call of reflect.Value.Pointer on value without pointer"
  end.

(** The entries of a map value; a nil map has none. *)
Definition entries (W : world) (v : Value) : result (list (Value * Value)) :=
  match v with
  | Val t (DPointer p) => Ok (if p =? 0 then [] else mapData W t p)
  | _ => Panic "reflect: call of map method on non-map Value"
  end.

(** [v.Len()] of a slice, a map, a string or an array *)
Definition Len (W : world) (v : Value) : result nat :=
  match v with
  | Val _ (DSlice _ n) => Ok n
  | Val _ (DString s) => Ok (String.length s)
  | Val _ (DElems vs) => Ok (List.length vs)
  | Val _ (DPointer _) => es <- entries W v ;; Ok (List.length es)
  | _ => Panic "reflect: call of reflect.Value.Len on value without length"
  end.

(** [v.Index(i)] of an array or a slice *)
Definition Index (W : world) (v : Value) (i : nat) : result Value :=
  match v with
  | Val _ (DElems vs) =>
      match nth_error vs i with
      | Some x => Ok x
      | None => Panic "reflect: array index out of range"
      end
  | Val t (DSlice p n) =>
      if (i <? n)%nat then Ok (sliceData W t p i)
      else Panic "reflect: slice index out of range"
  | _ => Panic "reflect: call of reflect.Value.Index on value without elements"
  end.

(** [v.Field(i)] of a struct *)
Definition Field (v : Value) (i : nat) : result Value :=
  match v with
  | Val _ (DElems vs) =>
      match nth_error vs i with
      | Some x => Ok x
      | None => Panic "reflect: Field index out of range"
      end
  | _ => Panic "reflect: call of reflect.Value.Field on non-struct Value"
  end.

(** [v.Elem()] of an interface or a pointer; the zero Value when nil *)
Definition Elem (W : world) (v : Value) : result Value :=
  match v with
  | Val _ (DIface x) => Ok x
  | Val t (DPointer p) => Ok (if p =? 0 then Zero else deref W t p)
  | _ => Panic "reflect: call of reflect.Value.Elem on value without element"
  end.

(** Go's [==] on map keys: same dynamic type and equal contents, where a NaN
    is unequal to everything, itself included. *)
Fixpoint keyEq (a b : Value) {struct a} : bool :=
  match a, b with
  | Zero, Zero => true
  | Val t x, Val u y => rtype_eqb t u && dataEq x y
  | _, _ => false
  end
with dataEq (x y : data) {struct x} : bool :=
  match x, y with
  | DBool a, DBool b => Bool.eqb a b
  | DInt a, DInt b => a =? b
  | DUint a, DUint b => a =? b
  | DFloat f, DFloat g => SFeqb f g
  | DComplex r i, DComplex r' i' => SFeqb r r' && SFeqb i i'
  | DString s, DString s' => String.eqb s s'
  | DElems vs, DElems ws =>
      (fix elemsEq (vs ws : list Value) {struct vs} : bool :=
         match vs, ws with
         | [], [] => true
         | v :: vs', w :: ws' => keyEq v w && elemsEq vs' ws'
         | _, _ => false
         end) vs ws
  | DPointer p, DPointer q => p =? q
  | DIface v, DIface w => keyEq v w
  | _, _ => false
  end.

Fixpoint lookup (k : Value) (es : list (Value * Value)) : Value :=
  match es with
  | [] => Zero
  | (k', v) :: es' => if keyEq k' k then v else lookup k es'
  end.

(** [v.MapIndex(k)]: the zero Value when the key is absent *)
Definition MapIndex (W : world) (v k : Value) : result Value :=
  es <- entries W v ;; Ok (lookup k es).

(** The keys [v.MapRange()] yields, in iteration order *)
Definition MapRange (W : world) (v : Value) : result (list Value) :=
  es <- entries W v ;; Ok (map fst es).

(** [v.Bool()], [v.Int()], [v.Uint()], [v.Float()], [v.Complex()] *)
Definition BoolOf (v : Value) : result bool :=
  match v with
  | Val _ (DBool b) => Ok b
  | _ => Panic "reflect: call of reflect.Value.Bool on non-bool Value"
  end.

Definition IntOf (v : Value) : result Z :=
  match v with
  | Val _ (DInt i) => Ok i
  | _ => Panic "reflect: call of reflect.Value.Int on non-int Value"
  end.

Definition UintOf (v : Value) : result Z :=
  match v with
  | Val _ (DUint u) => Ok u
  | _ => Panic "reflect: call of reflect.Value.Uint on non-uint Value"
  end.

Definition FloatOf (v : Value) : result spec_float :=
  match v with
  | Val _ (DFloat f) => Ok f
  | _ => Panic "reflect: call of reflect.Value.Float on non-float Value"
  end.

Definition ComplexOf (v : Value) : result (spec_float * spec_float) :=
  match v with
  | Val _ (DComplex r i) => Ok (r, i)
  | _ => Panic "reflect: call of reflect.Value.Complex on non-complex Value"
  end.

(** [v.String()]: never panics; a non-string value yields ["<T Value>"]. *)
Definition StringOf (W : world) (v : Value) : string :=
  match v with
  | Zero => "<invalid Value>"
  | Val _ (DString s) => s
  | Val t _ => "<" ++ typeString W t ++ " Value>"
  end.

End reflect.

(** ** format.go: the value renderer *)

Record formatter : Type := {
  root : reflect.Value;
  wantType : bool;
  full : bool;
  allowDepth : Z
}.

Definition formatShort (v : reflect.Value) (wantType : bool) : formatter :=
  {| root := v; wantType := wantType; full := false; allowDepth := 2 |}.

Definition formatFull (v : reflect.Value) : formatter :=
  {| root := v; wantType := true; full := true; allowDepth := 100000000 |}.

(** An operand of a formatting call ([arg ...any]), as far as this package
    passes any: strings, ints, types, formatters and reflected values. *)
Inductive farg : Type :=
| AString (s : string)
| AInt (i : Z)
| AType (t : reflect.rtype)
| AFormatter (f : formatter)
| AValue (v : reflect.Value).

(** Library code the two source files call and that is taken as given:
    the verbs of package [fmt] on operands it prints by itself, the writers
    of [internal/indent] and [text/tabwriter] (each as the text it passes on
    for the text written to it), and the order [sortedKeys] sorts by. *)
Record lib : Type := {
  (** [fmt] printing a [reflect.Value] operand: [#] flag, verb *)
  fmtValue : bool -> ascii -> reflect.Value -> string;
  (** [%q] of a string *)
  fmtQuote : string -> string;
  (** [%p] of an address *)
  fmtPointer : reflect.addr -> string;
  (** a verb that does not fit its operand, [%!verb(type=value)] *)
  fmtBad : bool -> ascii -> farg -> string;
  (** operands left over at the end of the format, [%!(EXTRA ...)] *)
  fmtExtra : list farg -> string;
  (** [indent.New(w, prefix)]: what reaches [w] *)
  indentNew : string -> string -> string;
  (** [tabwriter.NewWriter(w, 0, 8, 1, ' ', 0)]: what reaches [w] at [Flush] *)
  tabwriterFlush : string -> string;
  (** the order on map keys used by [sortedKeys] *)
  keyLeb : reflect.Value -> reflect.Value -> bool
}.

(** [var reflectAny = reflect.TypeOf(( *any)(nil)).Elem()] *)
Definition reflectAny : reflect.rtype := reflect.TInterface [].

(** A loop that writes: each iteration yields the text it wrote and whether
    it left the loop with [break]. *)
Fixpoint writeEach {A : Type} (xs : list A) (body : A -> result (string * bool))
  : result string :=
  match xs with
  | [] => Ok ""
  | x :: xs' =>
      '(s, brk) <- body x ;;
      if (brk : bool) then Ok s
      else r <- writeEach xs' body ;; Ok (s ++ r)%string
  end.

(** The keys of [ks] paired with their position in the iteration. *)
Definition indexed {A : Type} (ks : list A) : list (nat * A) :=
  combine (seq 0 (List.length ks)) ks.

(** Insertion sort of a list of keys by the order [leb]; see [sortedKeys]. *)
Fixpoint insertKey (leb : reflect.Value -> reflect.Value -> bool)
  (k : reflect.Value) (ks : list reflect.Value) : list reflect.Value :=
  match ks with
  | [] => [k]
  | k' :: ks' => if leb k k' then k :: ks else k' :: insertKey leb k ks'
  end.

Fixpoint sortKeys (leb : reflect.Value -> reflect.Value -> bool)
  (ks : list reflect.Value) : list reflect.Value :=
  match ks with
  | [] => []
  | k :: ks' => insertKey leb k (sortKeys leb ks')
  end.

Section Format.

Variable W : reflect.world.
Variable L : lib.

(** Modelled from the spec: [sortedKeys], which [format.go] calls and whose
    file is not among the sources.  "Keyed unordered collections are always
    rendered with keys in a deterministic sort order (never iteration
    order)": the keys of the map, sorted. *)
Definition sortedKeys (v : reflect.Value) : result (list reflect.Value) :=
  ks <- reflect.MapRange W v ;; Ok (sortKeys (keyLeb L) ks).

Fixpoint writeType (t : reflect.rtype) {struct t} : result string :=
  (* [writeFunc(w, f)] for [f] with the given parameters and results *)
  let writeFunc := fun (ins outs : list reflect.rtype) (variadic : bool) =>
    let n := List.length ins in
    params <-
      (fix params (i : nat) (ts : list reflect.rtype) {struct ts}
         : result string :=
         match ts with
         | [] => Ok ""
         | x :: ts' =>
             s <- (if (i =? n - 1)%nat && variadic
                   then match x with
                        | reflect.TArray _ e | reflect.TChan _ e
                        | reflect.TMap _ e | reflect.TPtr e
                        | reflect.TSlice e =>
                            r <- writeType e ;; Ok ("..." ++ r)%string
                        | _ => Panic "reflect: Elem of invalid type"
                        end
                   else writeType x) ;;
             r <- params (S i) ts' ;;
             Ok ((if (0 <? i)%nat then ", " else "") ++ s ++ r)%string
         end) 0%nat ins ;;
    let m := List.length outs in
    results <-
      (fix results (i : nat) (ts : list reflect.rtype) {struct ts}
         : result string :=
         match ts with
         | [] => Ok ""
         | x :: ts' =>
             s <- writeType x ;;
             r <- results (S i) ts' ;;
             Ok ((if (0 <? i)%nat then ", " else "") ++ s ++ r)%string
         end) 0%nat outs ;;
    Ok ("(" ++ params ++ ")"
        ++ (if (0 <? m)%nat then " " else "")
        ++ (if (1 <? m)%nat then "(" else "")
        ++ results
        ++ (if (1 <? m)%nat then ")" else ""))%string in
  if reflect.rtype_eqb t reflectAny then Ok "any"
  else if negb (reflect.Name t =? "")%string then Ok (reflect.typeString W t)
  else
    match t with
    | reflect.TArray n e =>
        s <- writeType e ;; Ok ("[" ++ itoa (Z.of_nat n) ++ "]" ++ s)%string
    | reflect.TStruct fs =>
        let pad := if (0 <? List.length fs)%nat then " " else "" in
        body <-
          (fix fields (i : nat) (fs : list (string * reflect.rtype)) {struct fs}
             : result string :=
             match fs with
             | [] => Ok ""
             | (name, ft) :: fs' =>
                 s <- writeType ft ;;
                 r <- fields (S i) fs' ;;
                 Ok ((if (0 <? i)%nat then "; " else "")
                     ++ name ++ " " ++ s ++ r)%string
             end) 0%nat fs ;;
        Ok ("struct{" ++ pad ++ body ++ pad ++ "}")%string
    | reflect.TFunc ins outs variadic =>
        s <- writeFunc ins outs variadic ;; Ok ("func" ++ s)%string
    | reflect.TInterface ms =>
        body <-
          (fix methods (i : nat) (ms : list (string * reflect.rtype)) {struct ms}
             : result string :=
             match ms with
             | [] => Ok ""
             | (name, mt) :: ms' =>
                 s <- match mt with
                      | reflect.TFunc ins outs variadic =>
                          writeFunc ins outs variadic
                      | _ => Panic "reflect: NumIn of non-func type"
                      end ;;
                 r <- methods (S i) ms' ;;
                 Ok ((if (0 <? i)%nat then "; " else "") ++ name ++ s ++ r)%string
             end) 0%nat ms ;;
        Ok ("interface{ " ++ body ++ " }")%string
    | reflect.TMap k e =>
        sk <- writeType k ;; se <- writeType e ;;
        Ok ("map[" ++ sk ++ "]" ++ se)%string
    | reflect.TPtr e => s <- writeType e ;; Ok ("*" ++ s)%string
    | reflect.TSlice e => s <- writeType e ;; Ok ("[]" ++ s)%string
    | reflect.TChan d e =>
        s <- writeType e ;;
        Ok ((match d with reflect.RecvDir => "<-" | _ => "" end)
            ++ "chan"
            ++ (match d with reflect.SendDir => "<-" | _ => "" end)
            ++ " " ++ s)%string
    | _ => Ok (reflect.typeString W t)
    end.

Definition writeTypedNil (t : reflect.rtype) (showType : bool) : result string :=
  if showType then
    let needParens :=
      match reflect.KindOf W t with
      | reflect.Func | reflect.Pointer | reflect.Chan =>
          (reflect.Name t =? "")%string
      | _ => false
      end in
    s <- writeType t ;;
    Ok ((if needParens then "(" else "") ++ s
        ++ (if needParens then ")" else "") ++ "(" ++ "nil" ++ ")")%string
  else Ok "nil".

Definition writeSimple (verb : ascii) (v : reflect.Value) (showType : bool)
  : result string :=
  if showType then
    t <- reflect.TypeOf v ;;
    s <- writeType t ;;
    Ok (s ++ "(" ++ fmtValue L false verb v ++ ")")%string
  else Ok (fmtValue L false verb v).

(** One activation of [formatter.writeTo]; [writeTo] stands for the
    recursive calls.  The writer argument of the Go function is implicit: the
    result is the text the activation writes to it, and text written through
    an [indent] or [tabwriter] wrapper reaches it transformed as [L] says. *)
Definition writeToBody (f : formatter)
  (writeTo : reflect.Value -> bool -> Z -> result string)
  (v : reflect.Value) (wantType : bool) (depth : Z) : result string :=
  match v with
  | reflect.Zero => Ok "nil" (* untyped nil *)
  | reflect.Val t _ =>
    match reflect.KindOf W t with
    | reflect.Array =>
        ty <- (if wantType then writeType t else Ok "") ;;
        n <- reflect.TLen W t ;;
        if (allowDepth f <=? depth) && (0 <? n)%nat then Ok (ty ++ "{...}")%string
        else
          body <-
            (if full f && (1 <? n)%nat then
               inner <- writeEach (seq 0 n) (fun i =>
                 x <- reflect.Index W v i ;;
                 s <- writeTo x false (depth + 1) ;;
                 Ok (s ++ "," ++ LF, false)%string) ;;
               Ok (LF ++ indentNew L "    " inner)%string
             else
               writeEach (seq 0 n) (fun i =>
                 if (0 <? i)%nat then Ok (", ...", true)
                 else
                   x <- reflect.Index W v i ;;
                   s <- writeTo x false (depth + 1) ;;
                   Ok (s, false))) ;;
          Ok (ty ++ "{" ++ body ++ "}")%string
    | reflect.Struct =>
        ty <- (if wantType then writeType t else Ok "") ;;
        n <- reflect.NumField W t ;;
        if (allowDepth f <=? depth) && (0 <? n)%nat then Ok (ty ++ "{...}")%string
        else
          body <-
            (if full f && (1 <? n)%nat then
               inner <- writeEach (seq 0 n) (fun i =>
                 name <- reflect.FieldName W t i ;;
                 x <- reflect.Field v i ;;
                 s <- writeTo x false (depth + 1) ;;
                 Ok (name ++ ":" ++ TAB ++ s ++ "," ++ LF, false)%string) ;;
               Ok (LF ++ tabwriterFlush L (indentNew L "    " inner))%string
             else
               writeEach (seq 0 n) (fun i =>
                 if (0 <? i)%nat then Ok (", ...", true)
                 else
                   name <- reflect.FieldName W t i ;;
                   x <- reflect.Field v i ;;
                   s <- writeTo x false (depth + 1) ;;
                   Ok (name ++ ":" ++ s, false)%string)) ;;
          Ok (ty ++ "{" ++ body ++ "}")%string
    | reflect.Func =>
        isnil <- reflect.IsNil v ;;
        if (isnil : bool) then writeTypedNil t wantType
        else Ok (reflect.typeString W t ++ " {...}")%string
    | reflect.Interface =>
        x <- reflect.Elem W v ;; writeTo x true depth
    | reflect.Map =>
        isnil <- reflect.IsNil v ;;
        if (isnil : bool) then writeTypedNil t wantType
        else
          ty <- (if wantType then writeType t else Ok "") ;;
          n <- reflect.Len W v ;;
          if (allowDepth f <=? depth) && (0 <? n)%nat then Ok (ty ++ "{...}")%string
          else
            keys <- sortedKeys v ;;
            body <-
              (if full f && (1 <? n)%nat then
                 inner <- writeEach keys (fun mk =>
                   mv <- reflect.MapIndex W v mk ;;
                   sk <- writeTo mk false 0 ;;
                   sv <- writeTo mv false (depth + 1) ;;
                   Ok (sk ++ ":" ++ TAB ++ sv ++ "," ++ LF, false)%string) ;;
                 Ok (LF ++ tabwriterFlush L (indentNew L "    " inner))%string
               else
                 (* [first] holds in the first iteration only *)
                 writeEach (indexed keys) (fun '(i, mk) =>
                   if (0 <? i)%nat then Ok (", ...", true)
                   else
                     mv <- reflect.MapIndex W v mk ;;
                     sk <- writeTo mk false 0 ;;
                     sv <- writeTo mv false (depth + 1) ;;
                     Ok (sk ++ ":" ++ sv, false)%string)) ;;
            Ok (ty ++ "{" ++ body ++ "}")%string
    | reflect.Ptr =>
        isnil <- reflect.IsNil v ;;
        if (isnil : bool) then writeTypedNil t wantType
        else
          et <- reflect.TElem W t ;;
          let ek := reflect.KindOf W et in
          let amp :=
            if wantType || negb (reflect.Kind_eqb ek reflect.Struct)
            then "&" else "" in
          (* Two or more pointers in a row is confusing,
             so show the type to be extra explicit. *)
          let wantType :=
            if reflect.Kind_eqb ek reflect.Pointer then true else wantType in
          x <- reflect.Elem W v ;;
          s <- writeTo x wantType depth ;; (* note: don't increment depth *)
          Ok (amp ++ s)%string
    | reflect.Slice =>
        isnil <- reflect.IsNil v ;;
        if (isnil : bool) then writeTypedNil t wantType
        else
          ty <- (if wantType then writeType t else Ok "") ;;
          n <- reflect.Len W v ;;
          if (allowDepth f <=? depth) && (0 <? n)%nat then Ok (ty ++ "{...}")%string
          else
            body <-
              (if full f && (1 <? n)%nat then
                 inner <- writeEach (seq 0 n) (fun i =>
                   x <- reflect.Index W v i ;;
                   s <- writeTo x false (depth + 1) ;;
                   Ok (s ++ "," ++ LF, false)%string) ;;
                 Ok (LF ++ indentNew L "    " inner)%string
               else
                 writeEach (seq 0 n) (fun i =>
                   if (0 <? i)%nat && negb (full f) then Ok (", " ++ "...", true)%string
                   else
                     x <- reflect.Index W v i ;;
                     s <- writeTo x false (depth + 1) ;;
                     Ok ((if (0 <? i)%nat then ", " else "") ++ s, false)%string)) ;;
            Ok (ty ++ "{" ++ body ++ "}")%string
    | reflect.Bool =>
        writeSimple "v" v (wantType && negb (reflect.PkgPath t =? "")%string)
    | reflect.Int | reflect.Int8 | reflect.Int16
    | reflect.Int32 | reflect.Int64 =>
        writeSimple "v" v wantType
    | reflect.Uint | reflect.Uint8 | reflect.Uint16
    | reflect.Uint32 | reflect.Uint64 | reflect.Uintptr =>
        writeSimple "v" v wantType
    | reflect.Float32 | reflect.Float64 =>
        writeSimple "v" v wantType
    | reflect.Complex64 | reflect.Complex128 =>
        writeSimple "v" v wantType
    | reflect.String =>
        (* TODO(kr): abbreviate *)
        writeSimple "q" v (wantType && negb (reflect.PkgPath t =? "")%string)
    | reflect.Chan =>
        isnil <- reflect.IsNil v ;;
        if (isnil : bool) then writeTypedNil t wantType
        else
          s <- writeType t ;;
          p <- reflect.PointerOf v ;;
          Ok ("(" ++ s ++ ")" ++ "(" ++ fmtPointer L p ++ ")")%string
    | reflect.UnsafePointer =>
        p <- reflect.PointerOf v ;;
        Ok ("unsafe.Pointer(" ++ fmtPointer L p ++ ")")%string
    | reflect.Invalid => Ok "(unknown kind)"
    end
  end.

(** [formatter.writeTo], with a bound on the depth of the recursion: the
    Go function does not detect cycles ("TODO(kr): detect recursion"). *)
Fixpoint writeTo (fuel : nat) (f : formatter)
  (v : reflect.Value) (wantType : bool) (depth : Z) {struct fuel}
  : result string :=
  match fuel with
  | O => OutOfFuel
  | S fuel' => writeToBody f (writeTo fuel' f) v wantType depth
  end.

(** [formatter.Format]: what a formatting call prints for the operand. *)
Definition Format (fuel : nat) (f : formatter) : result string :=
  s <- writeTo fuel f (root f) (wantType f) 1 ;;
  Ok (if full f then indentNew L "    " s else s).

End Format.

(** ** Formatted output

    [fmt.Sprintf] for the verbs this package uses.  An operand that
    implements [fmt.Formatter] is printed by its own [Format], a
    [reflect.Type] by its [String] method, a [reflect.Value] by [fmt] itself. *)

Section Fmt.

Variable W : reflect.world.
Variable L : lib.

Definition fmtArg (fuel : nat) (sharp : bool) (verb : ascii) (a : farg)
  : result string :=
  match a with
  | AFormatter f => Format W L fuel f
  | AValue v => Ok (fmtValue L sharp verb v)
  | AString s =>
      match sharp, verb with
      | false, "s"%char | false, "v"%char => Ok s
      | false, "q"%char => Ok (fmtQuote L s)
      | _, _ => Ok (fmtBad L sharp verb a)
      end
  | AInt i =>
      match sharp, verb with
      | false, "d"%char | false, "v"%char => Ok (itoa i)
      | _, _ => Ok (fmtBad L sharp verb a)
      end
  | AType t =>
      match sharp, verb with
      | false, "s"%char | false, "v"%char => Ok (reflect.typeString W t)
      | _, _ => Ok (fmtBad L sharp verb a)
      end
  end.

Definition fmtVerb (fuel : nat) (sharp : bool) (verb : ascii) (args : list farg)
  : result (string * list farg) :=
  match args with
  | a :: args' => s <- fmtArg fuel sharp verb a ;; Ok (s, args')
  | [] => Ok ("%!" ++ String verb "(MISSING)", [])%string
  end.

Fixpoint Sprintf (fuel : nat) (format : string) (args : list farg)
  {struct format} : result string :=
  match format with
  | EmptyString =>
      Ok (match args with [] => "" | _ => fmtExtra L args end)
  | String "%" EmptyString => Ok "%!(NOVERB)"
  | String "%" (String "%" rest) =>
      r <- Sprintf fuel rest args ;; Ok ("%" ++ r)%string
  | String "%" (String "#" EmptyString) => Ok "%!(NOVERB)"
  | String "%" (String "#" (String verb rest)) =>
      '(s, args') <- fmtVerb fuel true verb args ;;
      r <- Sprintf fuel rest args' ;; Ok (s ++ r)%string
  | String "%" (String verb rest) =>
      '(s, args') <- fmtVerb fuel false verb args ;;
      r <- Sprintf fuel rest args' ;; Ok (s ++ r)%string
  | String c rest =>
      r <- Sprintf fuel rest args ;; Ok (String c r)
  end.

End Fmt.

(** ** diff.go: configuration and identity tracker *)

(** Modelled from the spec: the verbosity level.  Its declaration is not
    among the sources; "verbosity level (enum: auto, path-only, full)".
    [unknown] stands for any other value of the underlying integer type. *)
Module level.
Inductive t : Set :=
| auto
| pathOnly
| full
| unknown (n : Z).
End level.

Record config : Type := {
  (** verbosity *)
  level : level.t;
  (** equalFuncs treats non-nil functions as equal. *)
  equalFuncs : bool;
  (** xform transforms values of the given type before they are included in
      the diff tree. *)
  xform : list (reflect.rtype * (reflect.Value -> reflect.Value));
  format : list (reflect.rtype * (reflect.Value -> reflect.Value -> string))
}.

(** [m[t]] on a map keyed by [reflect.Type]; a nil map is the empty list. *)
Fixpoint lookupType {A : Type} (t : reflect.rtype) (m : list (reflect.rtype * A))
  : option A :=
  match m with
  | [] => None
  | (u, x) :: m' => if reflect.rtype_eqb u t then Some x else lookupType t m'
  end.

(** [type visit struct { p unsafe.Pointer; t reflect.Type }] *)
Record visit : Type := mkVisit {
  vp : reflect.addr;
  vt : reflect.rtype
}.

(** [==] on [visit] *)
Definition visit_eqb (a b : visit) : bool :=
  (vp a =? vp b) && reflect.rtype_eqb (vt a) (vt b).

(** [m[k]] on a [map[visit]visit], newest binding first. *)
Fixpoint lookupVisit (k : visit) (m : list (visit * visit)) : option visit :=
  match m with
  | [] => None
  | (k', v) :: m' => if visit_eqb k' k then Some v else lookupVisit k m'
  end.

(** [type differ struct]; the field [config] is called [cfg] here. *)
Record differ : Type := {
  cfg : config;
  aSeen : list (visit * visit);
  bSeen : list (visit * visit)
}.

(** ** diff.go: the emitters *)

(** One call of the caller's reporting function: format and operands. *)
Definition call : Type := string * list farg.

(** [printEmitter] (without [helper], which only marks stack frames).  Its
    [sink] is either the caller's function, represented by the calls it has
    received so far, or the closure [subf] builds over the receiver [e]; the
    closure owns [e] for as long as the child is in use. *)
Inductive printEmitter : Type :=
| mkPrintEmitter (lvl : level.t) (path : list string) (did : bool)
    (sink : sinkFunc)
with sinkFunc : Type :=
| callerSink (received : list call)
| subSink (e : printEmitter).

Definition pe_level (e : printEmitter) : level.t :=
  match e with mkPrintEmitter l _ _ _ => l end.
Definition pe_path (e : printEmitter) : list string :=
  match e with mkPrintEmitter _ p _ _ => p end.
Definition pe_did (e : printEmitter) : bool :=
  match e with mkPrintEmitter _ _ d _ => d end.
Definition pe_sink (e : printEmitter) : sinkFunc :=
  match e with mkPrintEmitter _ _ _ s => s end.

(** Calling a sink.  The closure of [subf] is
    [func(format, a...) { e.did = true; e.sink(format, a...) }]. *)
Fixpoint callSink (s : sinkFunc) (c : call) {struct s} : sinkFunc :=
  match s with
  | callerSink received => callerSink (received ++ [c])
  | subSink (mkPrintEmitter l p _ s') =>
      subSink (mkPrintEmitter l p true (callSink s' c))
  end.

(** [type countEmitter struct { n int }] *)
Record countEmitter : Type := { n : nat }.

(** A value of interface type [emitfer]. *)
Inductive emitfer : Type :=
| Print (e : printEmitter)
| Count (e : countEmitter).

Section Emit.

Variable W : reflect.world.
Variable L : lib.

Definition printEmitter_emitf (e : printEmitter) (av bv : reflect.Value)
  (format : string) (arg : list farg) : result printEmitter :=
  match e with
  | mkPrintEmitter lvl path _ sink =>
      let did := true in
      let p :=
        if (0 <? List.length path)%nat then (join path ++ ": ")%string else "" in
      match lvl with
      | level.auto =>
          let arg := AString p :: arg in
          Ok (mkPrintEmitter lvl path did
                (callSink sink ("%s" ++ format ++ LF, arg)%string))
      | level.pathOnly =>
          Ok (mkPrintEmitter lvl path did
                (callSink sink ("%s" ++ LF, [AString (join path)])%string))
      | level.full =>
          Ok (mkPrintEmitter lvl path did
                (callSink sink
                   ("%s%#v != %#v" ++ LF, [AString p; AValue av; AValue bv])%string))
      | level.unknown _ => Panic "diff: bad verbose level"
      end
  end.

Definition printEmitter_subf (fuel : nat) (e : printEmitter)
  (format : string) (arg : list farg) : result printEmitter :=
  seg <- Sprintf W L fuel format arg ;;
  Ok (mkPrintEmitter (pe_level e) (pe_path e ++ [seg]) false (subSink e)).

Definition printEmitter_didEmit (e : printEmitter) : bool := pe_did e.

Definition countEmitter_emitf (e : countEmitter) (av bv : reflect.Value)
  (format : string) (arg : list farg) : countEmitter :=
  {| n := S (n e) |}.

Definition countEmitter_subf (e : countEmitter)
  (format : string) (arg : list farg) : countEmitter := e.

Definition countEmitter_didEmit (e : countEmitter) : bool := (0 <? n e)%nat.

(** The three methods of [emitfer], dispatched on the dynamic type. *)
Definition emitf (e : emitfer) (av bv : reflect.Value)
  (format : string) (arg : list farg) : result emitfer :=
  match e with
  | Print pe => pe' <- printEmitter_emitf pe av bv format arg ;; Ok (Print pe')
  | Count ce => Ok (Count (countEmitter_emitf ce av bv format arg))
  end.

Definition subf (fuel : nat) (e : emitfer) (format : string) (arg : list farg)
  : result emitfer :=
  match e with
  | Print pe => pe' <- printEmitter_subf fuel pe format arg ;; Ok (Print pe')
  | Count ce => Ok (Count (countEmitter_subf ce format arg))
  end.

Definition didEmit (e : emitfer) : bool :=
  match e with
  | Print pe => printEmitter_didEmit pe
  | Count ce => countEmitter_didEmit ce
  end.

(** The receiver [e] of a [subf] call, read back once the child [c] it
    returned is no longer used: for a [printEmitter] the object the child's
    sink closes over, for a [countEmitter] the child itself ([subf] returns
    its receiver). *)
Definition resume (e c : emitfer) : emitfer :=
  match e, c with
  | Print _, Print (mkPrintEmitter _ _ _ (subSink pe)) => Print pe
  | Print _, _ => e
  | Count _, _ => c
  end.

End Emit.

(** ** diff.go: the walker *)

(** The dynamic values [eqtest] receives in its [a, b any] parameters. *)
Inductive scalar : Type :=
| SBool (b : bool)
| SInt64 (i : Z)
| SUint64 (u : Z)
| SFloat64 (f : spec_float)
| SComplex128 (re im : spec_float).

(** [a == b] on interface values holding scalars. *)
Definition scalar_eqb (a b : scalar) : bool :=
  match a, b with
  | SBool x, SBool y => Bool.eqb x y
  | SInt64 x, SInt64 y => x =? y
  | SUint64 x, SUint64 y => x =? y
  | SFloat64 x, SFloat64 y => SFeqb x y
  | SComplex128 r i, SComplex128 r' i' => SFeqb r r' && SFeqb i i'
  | _, _ => false
  end.

(** How a block of [walk] ends: the function returned, or control went on
    to the next block. *)
Inductive ctl (A : Type) : Type :=
| Return (d : differ) (e : emitfer)
| Next (a : A).

Arguments Return {A} d e.
Arguments Next {A} a.

Section Walk.

Variable W : reflect.world.
Variable L : lib.

Definition state : Type := differ * emitfer.

(** The signature of [differ.walk], receiver and emitter made explicit. *)
Definition walker : Type :=
  differ -> emitfer -> reflect.Value -> reflect.Value -> bool -> bool ->
  result state.

Definition keyDiff (av bv : reflect.Value)
  : result (list reflect.Value * list reflect.Value * list reflect.Value) :=
  aKeys <- reflect.MapRange W av ;;
  '(ak, both) <- forRange aKeys (fun k '(ak, both) =>
    x <- reflect.MapIndex W bv k ;;
    if negb (reflect.IsValid x) then Ok (ak ++ [k], both)
    else Ok (ak, both ++ [k])) ([], []) ;;
  bKeys <- reflect.MapRange W bv ;;
  bk <- forRange bKeys (fun k bk =>
    x <- reflect.MapIndex W av k ;;
    if negb (reflect.IsValid x) then Ok (bk ++ [k]) else Ok bk) [] ;;
  Ok (ak, both, bk).

Definition emitPointers (e : emitfer) (av bv : reflect.Value) (wantType : bool)
  : result emitfer :=
  emitf e av bv "%v != %v"
    [AFormatter (formatShort av wantType); AFormatter (formatShort bv wantType)].

Definition eqtest (e : emitfer) (av bv : reflect.Value) (a b : scalar)
  (wantType : bool) : result emitfer :=
  if negb (scalar_eqb a b) then
    emitf e av bv "%v != %v"
      [AFormatter (formatShort av wantType); AFormatter (formatShort bv wantType)]
  else Ok e.

(** [differ.equal], given the walker for the nested walk. *)
Definition equalWith (walk : walker) (d : differ) (av bv : reflect.Value)
  : result bool :=
  let d2 :=
    {| cfg := {| level := level (cfg d);
                 equalFuncs := equalFuncs (cfg d);
                 xform := [];
                 format := [] |};
       aSeen := [];
       bSeen := [] |} in
  let e := Count {| n := 0 |} in
  '(_, e) <- walk d2 e av bv true true ;;
  Ok (negb (didEmit e)).

(** "Check for cycles." *)
Definition checkCycles (d : differ) (e : emitfer) (av bv : reflect.Value)
  (t : reflect.rtype) : result (ctl differ) :=
  match reflect.KindOf W t with
  | reflect.Ptr | reflect.Map | reflect.Slice =>
      aNil <- reflect.IsNil av ;;
      bNil <- reflect.IsNil bv ;;
      if aNil || bNil then Ok (Next d)
      else
        ap <- reflect.PointerOf av ;;
        bp <- reflect.PointerOf bv ;;
        let avis := {| vp := ap; vt := t |} in
        let bvis := {| vp := bp; vt := t |} in
        match lookupVisit avis (aSeen d) with
        | Some seen =>
            if negb (visit_eqb seen bvis) then
              e <- emitf e av bv "uneven cycle" [] ;; Ok (Return d e)
            else Ok (Return d e)
        | None =>
            match lookupVisit bvis (bSeen d) with
            | Some _ =>
                e <- emitf e av bv "uneven cycle" [] ;; Ok (Return d e)
            | None =>
                Ok (Next {| cfg := cfg d;
                            aSeen := (avis, bvis) :: aSeen d;
                            bSeen := (bvis, avis) :: bSeen d |})
            end
        end
  | _ => Ok (Next d)
  end.

(** "Check for a transform func."  [Next (haveXform, ax, bx)] *)
Definition checkXform (walk : walker) (d : differ) (e : emitfer)
  (av bv : reflect.Value) (t : reflect.rtype) (xformOk : bool)
  : result (ctl (bool * reflect.Value * reflect.Value)) :=
  if xformOk then
    match lookupType t (xform (cfg d)) with
    | Some xf =>
        let ax := xf av in
        let bx := xf bv in
        eq <- equalWith walk d ax bx ;;
        if (eq : bool) then Ok (Return d e) else Ok (Next (true, ax, bx))
    | None => Ok (Next (false, reflect.Zero, reflect.Zero))
    end
  else Ok (Next (false, reflect.Zero, reflect.Zero)).

(** "Check for a format func." *)
Definition checkFormat (walk : walker) (d : differ) (e : emitfer)
  (av bv : reflect.Value) (t : reflect.rtype) : result (ctl unit) :=
  match lookupType t (format (cfg d)) with
  | Some ff =>
      eq <- equalWith walk d av bv ;;
      if negb eq then
        let s := ff av bv in
        e <- emitf e av bv "%s" [AString s] ;; Ok (Return d e)
      else Ok (Next tt)
  | None => Ok (Next tt)
  end.

(** [d.walk(e.subf(format, arg...), x, y, true, false)] for one element,
    field or key; [x] and [y] are evaluated after the [subf] call. *)
Definition walkSub (walk : walker) (fuel : nat) (format : string)
  (arg : list farg) (x y : result reflect.Value) (s : state) : result state :=
  let '(d, e) := s in
  c <- subf W L fuel e format arg ;;
  xv <- x ;;
  yv <- y ;;
  '(d, c) <- walk d c xv yv true false ;;
  Ok (d, resume e c).

(** [e.subf(format, arg...).emitf(x, y, msg, marg...)] *)
Definition emitSub (fuel : nat) (format : string) (arg : list farg)
  (x y : result reflect.Value) (msg : reflect.Value -> reflect.Value -> call)
  (e : emitfer) : result emitfer :=
  c <- subf W L fuel e format arg ;;
  xv <- x ;;
  yv <- y ;;
  c <- emitf c xv yv (fst (msg xv yv)) (snd (msg xv yv)) ;;
  Ok (resume e c).

(** The [switch t.Kind()] of [walk].  [Return] is the [return] of the slice
    case; every other case leaves the switch. *)
Definition walkKind (walk : walker) (fuel : nat) (d : differ) (e : emitfer)
  (av bv : reflect.Value) (t : reflect.rtype) (wantType : bool)
  : result (ctl state) :=
  match reflect.KindOf W t with
  | reflect.Array =>
      len <- reflect.TLen W t ;;
      s <- forIndex len (fun i =>
        walkSub walk fuel "[%d]" [AInt (Z.of_nat i)]
          (reflect.Index W av i) (reflect.Index W bv i)) (d, e) ;;
      Ok (Next s)
  | reflect.Struct =>
      num <- reflect.NumField W t ;;
      s <- forIndex num (fun i s =>
        name <- reflect.FieldName W t i ;;
        walkSub walk fuel ("." ++ name) []
          (reflect.Field av i) (reflect.Field bv i) s) (d, e) ;;
      Ok (Next s)
  | reflect.Func =>
      if equalFuncs (cfg d) then Ok (Next (d, e))
      else
        aNil <- reflect.IsNil av ;;
        bNil <- reflect.IsNil bv ;;
        if negb aNil || negb bNil then
          e <- emitPointers e av bv wantType ;; Ok (Next (d, e))
        else Ok (Next (d, e))
  | reflect.Interface =>
      ae <- reflect.Elem W av ;;
      be <- reflect.Elem W bv ;;
      s <- walk d e ae be true true ;;
      Ok (Next s)
  | reflect.Map =>
      aNil <- reflect.IsNil av ;;
      bNil <- reflect.IsNil bv ;;
      if negb (Bool.eqb aNil bNil) then
        e <- emitPointers e av bv wantType ;; Ok (Next (d, e))
      else
        ap <- reflect.PointerOf av ;;
        bp <- reflect.PointerOf bv ;;
        if ap =? bp then Ok (Next (d, e))
        else
          '(ak, both, bk) <- keyDiff av bv ;;
          e <- forRange ak (fun k =>
            emitSub fuel "[%#v]" [AValue k]
              (reflect.MapIndex W av k) (reflect.MapIndex W bv k)
              (fun _ _ => ("(removed)", []))) e ;;
          '(d, e) <- forRange both (fun k =>
            walkSub walk fuel "[%#v]" [AValue k]
              (reflect.MapIndex W av k) (reflect.MapIndex W bv k)) (d, e) ;;
          e <- forRange bk (fun k =>
            emitSub fuel "[%#v]" [AValue k]
              (reflect.MapIndex W av k) (reflect.MapIndex W bv k)
              (fun _ y => ("(added) %v", [AFormatter (formatShort y false)]))) e ;;
          Ok (Next (d, e))
  | reflect.Ptr =>
      ap <- reflect.PointerOf av ;;
      bp <- reflect.PointerOf bv ;;
      if ap =? bp then Ok (Next (d, e))
      else
        aNil <- reflect.IsNil av ;;
        bNil <- reflect.IsNil bv ;;
        if negb (Bool.eqb aNil bNil) then
          e <- emitf e av bv "%v != %v"
                 [AFormatter (formatShort av wantType);
                  AFormatter (formatShort bv wantType)] ;;
          Ok (Next (d, e))
        else
          ae <- reflect.Elem W av ;;
          be <- reflect.Elem W bv ;;
          s <- walk d e ae be true wantType ;;
          Ok (Next s)
  | reflect.Slice =>
      aNil <- reflect.IsNil av ;;
      bNil <- reflect.IsNil bv ;;
      if negb (Bool.eqb aNil bNil) then
        e <- emitPointers e av bv wantType ;; Ok (Next (d, e))
      else
        alen <- reflect.Len W av ;;
        blen <- reflect.Len W bv ;;
        ap <- reflect.PointerOf av ;;
        bp <- reflect.PointerOf bv ;;
        if (alen =? blen)%nat && (ap =? bp) then Ok (Next (d, e))
        else
          if negb (alen =? blen)%nat then
            e <- emitf e av bv "{len %d} != {len %d}"
                   [AInt (Z.of_nat alen); AInt (Z.of_nat blen)] ;;
            Ok (Return d e)
          else
            s <- forIndex alen (fun i =>
              walkSub walk fuel "[%d]" [AInt (Z.of_nat i)]
                (reflect.Index W av i) (reflect.Index W bv i)) (d, e) ;;
            Ok (Next s)
  | reflect.Bool =>
      a <- reflect.BoolOf av ;;
      b <- reflect.BoolOf bv ;;
      e <- eqtest e av bv (SBool a) (SBool b) wantType ;; Ok (Next (d, e))
  | reflect.Int | reflect.Int8 | reflect.Int16
  | reflect.Int32 | reflect.Int64 =>
      a <- reflect.IntOf av ;;
      b <- reflect.IntOf bv ;;
      e <- eqtest e av bv (SInt64 a) (SInt64 b) wantType ;; Ok (Next (d, e))
  | reflect.Uint | reflect.Uint8 | reflect.Uint16
  | reflect.Uint32 | reflect.Uint64 | reflect.Uintptr =>
      a <- reflect.UintOf av ;;
      b <- reflect.UintOf bv ;;
      e <- eqtest e av bv (SUint64 a) (SUint64 b) wantType ;; Ok (Next (d, e))
  | reflect.Float32 | reflect.Float64 =>
      a <- reflect.FloatOf av ;;
      b <- reflect.FloatOf bv ;;
      e <- eqtest e av bv (SFloat64 a) (SFloat64 b) wantType ;; Ok (Next (d, e))
  | reflect.Complex64 | reflect.Complex128 =>
      a <- reflect.ComplexOf av ;;
      b <- reflect.ComplexOf bv ;;
      e <- eqtest e av bv (SComplex128 (fst a) (snd a))
             (SComplex128 (fst b) (snd b)) wantType ;;
      Ok (Next (d, e))
  | reflect.String =>
      let a := reflect.StringOf W av in
      let b := reflect.StringOf W bv in
      if negb (a =? b)%string then
        e <- emitf e av bv "%q != %q" [AString a; AString b] ;; Ok (Next (d, e))
      else Ok (Next (d, e))
  | reflect.Chan | reflect.UnsafePointer =>
      a <- reflect.PointerOf av ;;
      b <- reflect.PointerOf bv ;;
      if negb (a =? b) then
        e <- emitPointers e av bv wantType ;; Ok (Next (d, e))
      else Ok (Next (d, e))
  | reflect.Invalid =>
      Panic ("diff: unknown reflect.Kind "
             ++ reflect.KindString (reflect.KindOf W t))
  end.

(** The closing block of [walk]: "if we didn't find a difference in the
    untransformed values, make sure to emit *something*, and then diff the
    *transformed* values." *)
Definition walkXformed (walk : walker) (fuel : nat) (s : state)
  (av bv : reflect.Value) (haveXform : bool) (ax bx : reflect.Value)
  : result state :=
  let '(d, e) := s in
  if haveXform && negb (didEmit e) then
    e <- emitf e av bv "(transformed values differ)" [] ;;
    c <- subf W L fuel e "->" [] ;;
    '(d, c) <- walk d c ax bx false true ;;
    Ok (d, resume e c)
  else Ok (d, e).

(** One activation of [differ.walk]; [walk] stands for the recursive calls
    and [fuel] bounds the rendering of path segments. *)
Definition walkBody (walk : walker) (fuel : nat) : walker :=
  fun d e av bv xformOk wantType =>
  if negb (reflect.IsValid av) && negb (reflect.IsValid bv) then Ok (d, e)
  else if negb (reflect.IsValid av) then
    e <- emitf e av bv "nil != %v" [AFormatter (formatShort bv true)] ;;
    Ok (d, e)
  else if negb (reflect.IsValid bv) then
    e <- emitf e av bv "%v != nil" [AFormatter (formatShort av true)] ;;
    Ok (d, e)
  else
    t <- reflect.TypeOf av ;;
    bt <- reflect.TypeOf bv ;;
    if negb (reflect.rtype_eqb t bt) then
      e <- emitf e av bv "%v != %v" [AType t; AType bt] ;;
      Ok (d, e)
    else
      c <- checkCycles d e av bv t ;;
      match c with
      | Return d e => Ok (d, e)
      | Next d =>
          c <- checkXform walk d e av bv t xformOk ;;
          match c with
          | Return d e => Ok (d, e)
          | Next (haveXform, ax, bx) =>
              c <- checkFormat walk d e av bv t ;;
              match c with
              | Return d e => Ok (d, e)
              | Next _ =>
                  c <- walkKind walk fuel d e av bv t wantType ;;
                  match c with
                  | Return d e => Ok (d, e)
                  | Next s => walkXformed walk fuel s av bv haveXform ax bx
                  end
              end
          end
      end.

(** [differ.walk], with a bound on the depth of the recursion. *)
Fixpoint walk (fuel : nat) : walker :=
  match fuel with
  | O => fun _ _ _ _ _ _ => OutOfFuel
  | S fuel' => walkBody (walk fuel') fuel'
  end.

(** [differ.equal] *)
Definition equal (fuel : nat) : differ -> reflect.Value -> reflect.Value ->
  result bool :=
  equalWith (walk fuel).

(** [each], from the point where the options have been applied to
    [d.config] (the option types are not among the sources): [c] is that
    configuration, [a] and [b] are [reflect.ValueOf] of the two operands, and
    the result pairs the walker's final state with the emitter whose sink
    holds the calls the reporting function [f] received. *)
Definition each (fuel : nat) (c : config) (a b : reflect.Value) : result state :=
  let d := {| cfg := c; aSeen := []; bSeen := [] |} in
  let e := mkPrintEmitter (level c) [] false (callerSink []) in
  walk fuel d (Print e) a b true true.

End Walk.

(** * Vocabulary of the specification *)

(** Induction over type descriptors that reaches the types nested in
    field, parameter and method lists. *)
Section RtypeInd.

Variable P : reflect.rtype -> Prop.

Hypothesis HBasic : forall k, P (reflect.TBasic k).
Hypothesis HNamed : forall p n, P (reflect.TNamed p n).
Hypothesis HArray : forall n e, P e -> P (reflect.TArray n e).
Hypothesis HStruct :
  forall fs, Forall (fun f => P (snd f)) fs -> P (reflect.TStruct fs).
Hypothesis HFunc :
  forall i o v, Forall P i -> Forall P o -> P (reflect.TFunc i o v).
Hypothesis HInterface :
  forall ms, Forall (fun m => P (snd m)) ms -> P (reflect.TInterface ms).
Hypothesis HMap : forall k e, P k -> P e -> P (reflect.TMap k e).
Hypothesis HPtr : forall e, P e -> P (reflect.TPtr e).
Hypothesis HSlice : forall e, P e -> P (reflect.TSlice e).
Hypothesis HChan : forall d e, P e -> P (reflect.TChan d e).

Fixpoint rtype_nested_ind (t : reflect.rtype) : P t :=
  let named :=
    fix named (fs : list (string * reflect.rtype))
      : Forall (fun f => P (snd f)) fs :=
      match fs with
      | [] => Forall_nil _
      | f :: fs' => Forall_cons f (rtype_nested_ind (snd f)) (named fs')
      end in
  let plain :=
    fix plain (ts : list reflect.rtype) : Forall P ts :=
      match ts with
      | [] => Forall_nil _
      | u :: ts' => Forall_cons u (rtype_nested_ind u) (plain ts')
      end in
  match t with
  | reflect.TBasic k => HBasic k
  | reflect.TNamed p n => HNamed p n
  | reflect.TArray n e => HArray n (rtype_nested_ind e)
  | reflect.TStruct fs => HStruct (named fs)
  | reflect.TFunc i o v => HFunc v (plain i) (plain o)
  | reflect.TInterface ms => HInterface (named ms)
  | reflect.TMap k e => HMap (rtype_nested_ind k) (rtype_nested_ind e)
  | reflect.TPtr e => HPtr (rtype_nested_ind e)
  | reflect.TSlice e => HSlice (rtype_nested_ind e)
  | reflect.TChan d e => HChan d (rtype_nested_ind e)
  end.

End RtypeInd.

(** [d.aSeen[a] = b; d.bSeen[b] = a] *)
Definition register (d : differ) (a b : visit) : differ :=
  {| cfg := cfg d; aSeen := (a, b) :: aSeen d; bSeen := (b, a) :: bSeen d |}.

(** The identity tracker pairs one-to-one: [aSeen] and [bSeen] are inverse
    to each other. *)
Definition paired (d : differ) : Prop :=
  forall a b,
    lookupVisit a (aSeen d) = Some b <-> lookupVisit b (bSeen d) = Some a.

(** Every pairing recorded in [d] is still recorded in [d']. *)
Definition keeps (d d' : differ) : Prop :=
  (forall a b, lookupVisit a (aSeen d) = Some b ->
               lookupVisit a (aSeen d') = Some b) /\
  (forall b a, lookupVisit b (bSeen d) = Some a ->
               lookupVisit b (bSeen d') = Some a).

(** The calls the caller's reporting function has received, found at the
    end of a chain of sinks. *)
Fixpoint sink_received (s : sinkFunc) {struct s} : list call :=
  match s with
  | callerSink r => r
  | subSink (mkPrintEmitter _ _ _ s') => sink_received s'
  end.

Definition pe_received (e : printEmitter) : list call :=
  sink_received (pe_sink e).

Definition received (e : emitfer) : list call :=
  match e with
  | Print pe => pe_received pe
  | Count _ => []
  end.

(** [e'] is [e] later in the run: same level, same path, same chain of
    parents; flags only ever set, calls only ever appended. *)
Fixpoint sink_later (s s' : sinkFunc) {struct s} : Prop :=
  match s, s' with
  | callerSink r, callerSink r' => exists x, r' = r ++ x
  | subSink (mkPrintEmitter l p d s1), subSink (mkPrintEmitter l' p' d' s1') =>
      l = l' /\ p = p' /\ (d = true -> d' = true) /\ sink_later s1 s1'
  | _, _ => False
  end.

Definition pe_later (e e' : printEmitter) : Prop :=
  sink_later (subSink e) (subSink e').

Definition later (e e' : emitfer) : Prop :=
  match e, e' with
  | Print pe, Print pe' => pe_later pe pe'
  | Count ce, Count ce' => (n ce <= n ce')%nat
  | _, _ => False
  end.

(** The reference identity of a value: address and type, for a non-nil
    pointer, map or slice. *)
Definition identity (W : reflect.world) (v : reflect.Value) : option visit :=
  match v with
  | reflect.Val t (reflect.DPointer p) | reflect.Val t (reflect.DSlice p _) =>
      match reflect.KindOf W t with
      | reflect.Ptr | reflect.Map | reflect.Slice =>
          if p =? 0 then None else Some {| vp := p; vt := t |}
      | _ => None
      end
  | _ => None
  end.

(** The pairing the tracker has recorded for [a] or for [b] is not the
    pairing of [a] with [b]. *)
Definition mismatch (d : differ) (a b : visit) : Prop :=
  (exists seen, lookupVisit a (aSeen d) = Some seen /\ seen <> b) \/
  (exists seen, lookupVisit b (bSeen d) = Some seen /\ seen <> a).

(** The run has paired neither [a] nor [b] so far. *)
Definition unseen (d : differ) (a b : visit) : Prop :=
  lookupVisit a (aSeen d) = None /\ lookupVisit b (bSeen d) = None.

(** Neither a transform function nor a format function is registered for
    the type [t]. *)
Definition noHook (c : config) (t : reflect.rtype) : Prop :=
  lookupType t (xform c) = None /\ lookupType t (format c) = None.

(** The tracker of a comparison that has just started. *)
Definition fresh (c : config) : differ :=
  {| cfg := c; aSeen := []; bSeen := [] |}.

(** The textual sink of a comparison that has just started. *)
Definition rootEmitter (c : config) : emitfer :=
  Print (mkPrintEmitter (level c) [] false (callerSink [])).

(** A linked structure: [type node struct { val int; next *node }]. *)
Definition intT : reflect.rtype := reflect.TBasic reflect.Int.
Definition nodeT : reflect.rtype := reflect.TNamed "main" "node".
Definition nodePtr : reflect.rtype := reflect.TPtr nodeT.

Definition node (v : Z) (next : reflect.addr) : reflect.Value :=
  reflect.Val nodeT
    (reflect.DElems [reflect.Val intT (reflect.DInt v);
                     reflect.Val nodePtr (reflect.DPointer next)]).

Definition nodeAt (a : reflect.addr) : reflect.Value :=
  reflect.Val nodePtr (reflect.DPointer a).

Definition declaresNode (W : reflect.world) : Prop :=
  reflect.underlying W "main" "node"
  = reflect.TStruct [("val", intT); ("next", nodePtr)].

(** At the non-nil address [a] lies a node holding [v] and pointing to
    [next]. *)
Definition linked (W : reflect.world) (a : reflect.addr) (v : Z)
  (next : reflect.addr) : Prop :=
  a <> 0 /\ reflect.deref W nodePtr a = node v next.

(** The prefix a [printEmitter] puts before a message. *)
Definition prefix (path : list string) : string :=
  if (0 <? List.length path)%nat then (join path ++ ": ")%string else "".

(** A format whose verbs are complete and take every operand of [arg]. *)
Fixpoint fits (format : string) (nargs : nat) {struct format} : bool :=
  match format with
  | EmptyString => (nargs =? 0)%nat
  | String "%" EmptyString => false
  | String "%" (String "%" rest) => fits rest nargs
  | String "%" (String "#" EmptyString) => false
  | String "%" (String "#" (String _ rest)) => fits rest (Nat.pred nargs)
  | String "%" (String _ rest) => fits rest (Nat.pred nargs)
  | String _ rest => fits rest nargs
  end.

(** The blocks of [walk] that precede the switch pass control on to it:
    the cycle check leaves the tracker [d1], the transform check leaves
    [xf = (haveXform, ax, bx)], and no format function takes over. *)
Definition reachesSwitch (W : reflect.world) (L : lib) (fuel : nat)
  (d : differ) (e : emitfer) (av bv : reflect.Value) (t : reflect.rtype)
  (xformOk : bool) (d1 : differ)
  (xf : bool * reflect.Value * reflect.Value) : Prop :=
  checkCycles W d e av bv t = Ok (Next d1) /\
  checkXform (walk W L fuel) d1 e av bv t xformOk = Ok (Next xf) /\
  checkFormat (walk W L fuel) d1 e av bv t = Ok (Next tt).

(** What the closing block of [walk] does with the transform check's
    outcome [xf]. *)
Definition finish (W : reflect.world) (L : lib) (fuel : nat)
  (av bv : reflect.Value) (xf : bool * reflect.Value * reflect.Value)
  (s : state) : result state :=
  walkXformed W L (walk W L fuel) fuel s av bv
    (fst (fst xf)) (snd (fst xf)) (snd xf).

(** The element-wise comparison of two sequences of length [len]: for
    every index [i] in turn, a child sink for the sub-path ["[i]"], the walk
    of the two elements with that sink, transforming permitted and no type
    wanted, and the tracker and the parent sink it leaves. *)
Definition elementwise (W : reflect.world) (L : lib) (fuel : nat)
  (av bv : reflect.Value) (len : nat) (s : state) : result state :=
  forIndex len (fun i '(d, e) =>
    c <- subf W L fuel e "[%d]" [AInt (Z.of_nat i)] ;;
    x <- reflect.Index W av i ;;
    y <- reflect.Index W bv i ;;
    '(d', c') <- walk W L fuel d c x y true false ;;
    Ok (d', resume e c')) s.

(** The keys of the map behind the header at [p], in iteration order, and
    whether [MapIndex] finds a key there. *)
Definition keysAt (W : reflect.world) (t : reflect.rtype) (p : reflect.addr)
  : list reflect.Value :=
  map fst (reflect.mapData W t p).

Definition hasKey (W : reflect.world) (t : reflect.rtype) (p : reflect.addr)
  (k : reflect.Value) : bool :=
  reflect.IsValid (reflect.lookup k (reflect.mapData W t p)).

(** What the map case does for a key only in A, for a key in both maps, and
    for a key only in B. *)
Definition removedKey (W : reflect.world) (L : lib) (fuel : nat)
  (av bv k : reflect.Value) (e : emitfer) : result emitfer :=
  c <- subf W L fuel e "[%#v]" [AValue k] ;;
  x <- reflect.MapIndex W av k ;;
  y <- reflect.MapIndex W bv k ;;
  c <- emitf c x y "(removed)" [] ;;
  Ok (resume e c).

Definition sharedKey (W : reflect.world) (L : lib) (fuel : nat)
  (av bv k : reflect.Value) (s : state) : result state :=
  let '(d, e) := s in
  c <- subf W L fuel e "[%#v]" [AValue k] ;;
  x <- reflect.MapIndex W av k ;;
  y <- reflect.MapIndex W bv k ;;
  '(d', c') <- walk W L fuel d c x y true false ;;
  Ok (d', resume e c').

Definition addedKey (W : reflect.world) (L : lib) (fuel : nat)
  (av bv k : reflect.Value) (e : emitfer) : result emitfer :=
  c <- subf W L fuel e "[%#v]" [AValue k] ;;
  x <- reflect.MapIndex W av k ;;
  y <- reflect.MapIndex W bv k ;;
  c <- emitf c x y "(added) %v" [AFormatter (formatShort y false)] ;;
  Ok (resume e c).

(** The text a printf-style reporting function prints for a call. *)
Definition line (W : reflect.world) (L : lib) (fuel : nat) (c : call)
  : result string :=
  Sprintf W L fuel (fst c) (snd c).

(** A level that is none of [auto], [pathOnly], [full]. *)
Definition unrecognized (l : level.t) : Prop :=
  exists k, l = level.unknown k.

(** One of the three levels [emitf] has a case for. *)
Definition recognized (l : level.t) : Prop :=
  l = level.auto \/ l = level.pathOnly \/ l = level.full.

(** Two textual sinks that have not emitted yet: [g] at a recognized level,
    [b] at an unrecognized one. *)
Definition twins (g b : emitfer) : Prop :=
  exists l p s l' p' s',
    g = Print (mkPrintEmitter l p false s) /\ recognized l /\
    b = Print (mkPrintEmitter l' p' false s') /\ unrecognized l'.

(** The caller's reporting function has received more calls by [e'] than it
    had by [e]. *)
Definition grew (e e' : emitfer) : Prop :=
  (List.length (received e) < List.length (received e'))%nat.

(** The same computation run with [g] ([mg]) and with [b] ([mb]): when the
    first returns, either it has left [g] as it was and the second returns
    the same with [b], or it has reported a difference and the second is the
    fatal error of [emitf]. *)
Definition sameE (g b : emitfer) (mg mb : result emitfer) : Prop :=
  forall g', mg = Ok g' ->
    (g' = g /\ mb = Ok b) \/
    (grew g g' /\ mb = Panic "diff: bad verbose level").

Definition sameS (g b : emitfer) (mg mb : result (differ * emitfer)) : Prop :=
  forall d' g', mg = Ok (d', g') ->
    (g' = g /\ mb = Ok (d', b)) \/
    (grew g g' /\ mb = Panic "diff: bad verbose level").

Definition sameC (g b : emitfer) (mg mb : result (ctl (differ * emitfer)))
  : Prop :=
  forall c, mg = Ok c ->
    match c with
    | Return d' g' =>
        (g' = g /\ mb = Ok (Return d' b)) \/
        (grew g g' /\ mb = Panic "diff: bad verbose level")
    | Next (d', g') =>
        (g' = g /\ mb = Ok (Next (d', b))) \/
        (grew g g' /\ mb = Panic "diff: bad verbose level")
    end.

(** ** A small world for examples

    Nodes at the addresses 1 to 4: the nodes at 1 and 2 point to themselves,
    the nodes at 3 and 4 point to each other.  Maps at 10, 11 and 12: the
    map at 12 holds the entries of the map at 11 in another iteration order.
    One-element slices of [float64] holding NaN at 20, of [int] at 30 and
    31, and a two-element slice of [int] at 40.  The [int] 5 at 60 and
    at 61. *)

Definition stringT : reflect.rtype := reflect.TBasic reflect.String.
Definition float64T : reflect.rtype := reflect.TBasic reflect.Float64.
Definition mapT : reflect.rtype := reflect.TMap stringT intT.
Definition floatsT : reflect.rtype := reflect.TSlice float64T.
Definition intsT : reflect.rtype := reflect.TSlice intT.

Definition intV (i : Z) : reflect.Value := reflect.Val intT (reflect.DInt i).
Definition stringV (s : string) : reflect.Value :=
  reflect.Val stringT (reflect.DString s).
Definition nanV : reflect.Value := reflect.Val float64T (reflect.DFloat S754_nan).
Definition mapAt (a : reflect.addr) : reflect.Value :=
  reflect.Val mapT (reflect.DPointer a).
Definition floatsAt (a : reflect.addr) (len : nat) : reflect.Value :=
  reflect.Val floatsT (reflect.DSlice a len).
Definition intsAt (a : reflect.addr) (len : nat) : reflect.Value :=
  reflect.Val intsT (reflect.DSlice a len).

Definition exampleWorld : reflect.world := {|
  reflect.underlying := fun _ _ =>
    reflect.TStruct [("val", intT); ("next", nodePtr)];
  reflect.deref := fun _ a =>
    if a =? 1 then node 7 1
    else if a =? 2 then node 7 2
    else if a =? 3 then node 7 4
    else if a =? 4 then node 7 3
    else if (a =? 60) || (a =? 61) then intV 5
    else reflect.Zero;
  reflect.sliceData := fun _ a i =>
    if a =? 20 then nanV
    else if a =? 30 then intV 5
    else if a =? 31 then intV 6
    else intV (Z.of_nat i);
  reflect.mapData := fun _ a =>
    if a =? 10 then [(stringV "a", intV 1)]
    else if a =? 11 then [(stringV "a", intV 1); (stringV "b", intV 2)]
    else if a =? 12 then [(stringV "b", intV 2); (stringV "a", intV 1)]
    else [];
  reflect.typeString := fun t =>
    match t with
    | reflect.TBasic k => reflect.KindString k
    | reflect.TNamed _ name => ("main." ++ name)%string
    | _ => "T"
    end
|}.

Definition quote : string := String "034" "".

(** Stand-ins for the library functions, good enough for integers and for
    strings without special characters; the wrapper writers pass their
    text on unchanged. *)
Definition exampleLib : lib := {|
  fmtValue := fun _ _ v =>
    match v with
    | reflect.Val _ (reflect.DInt i) => itoa i
    | reflect.Val _ (reflect.DString s) => (quote ++ s ++ quote)%string
    | reflect.Val _ (reflect.DFloat _) => "NaN"
    | _ => "?"
    end;
  fmtQuote := fun s => (quote ++ s ++ quote)%string;
  fmtPointer := fun a => ("0x" ++ itoa a)%string;
  fmtBad := fun _ _ _ => "%!";
  fmtExtra := fun _ => "%!(EXTRA)";
  indentNew := fun _ s => s;
  tabwriterFlush := fun s => s;
  keyLeb := fun a b =>
    match a, b with
    | reflect.Val _ (reflect.DString s), reflect.Val _ (reflect.DString s') =>
        String.leb s s'
    | _, _ => true
    end
|}.

(** The default rules at verbosity [auto], and the same at a level that is
    none of the three. *)
Definition exampleConfig : config :=
  {| level := level.auto; equalFuncs := false; xform := []; format := [] |}.

Definition badConfig : config :=
  {| level := level.unknown 7; equalFuncs := false; xform := []; format := [] |}.

(** The configuration [differ.equal] gives its nested differ: the level and
    the flag of [c], no transform and no format function. *)
Definition defaultRules (c : config) : config :=
  {| level := level c; equalFuncs := equalFuncs c; xform := []; format := [] |}.

(** An integer type with a transform that maps every value to [0]. *)
Definition zeroing : config :=
  {| level := level.auto; equalFuncs := false;
     xform := [(intT, fun _ => intV 0)]; format := [] |}.

(** Pointers to [int], with a transform that maps a pointer to its
    address: [func(p *int) uintptr]. *)
Definition intPtr : reflect.rtype := reflect.TPtr intT.
Definition uintptrT : reflect.rtype := reflect.TBasic reflect.Uintptr.

Definition intPtrAt (a : reflect.addr) : reflect.Value :=
  reflect.Val intPtr (reflect.DPointer a).

Definition addressOf (v : reflect.Value) : reflect.Value :=
  match v with
  | reflect.Val _ (reflect.DPointer a) => reflect.Val uintptrT (reflect.DUint a)
  | _ => reflect.Zero
  end.

Definition addressing : config :=
  {| level := level.auto; equalFuncs := false;
     xform := [(intPtr, addressOf)]; format := [] |}.

(** Pointers to nodes, with a transform that maps every pointer to [7]. *)
Definition sevening : config :=
  {| level := level.auto; equalFuncs := false;
     xform := [(nodePtr, fun _ => intV 7)]; format := [] |}.

(** [struct { X, Y T }] and a value of it that holds [x] and [y]. *)
Definition twoOf (t : reflect.rtype) : reflect.rtype :=
  reflect.TStruct [("X", t); ("Y", t)].

Definition two (t : reflect.rtype) (x y : reflect.Value) : reflect.Value :=
  reflect.Val (twoOf t) (reflect.DElems [x; y]).

(** The same world with the maps iterating in another order: [m'] gives,
    for every map header, the entries in the order of another iteration. *)
Definition withMapData (W : reflect.world)
  (m' : reflect.rtype -> reflect.addr -> list (reflect.Value * reflect.Value))
  : reflect.world :=
  {| reflect.underlying := reflect.underlying W;
     reflect.deref := reflect.deref W;
     reflect.sliceData := reflect.sliceData W;
     reflect.mapData := m';
     reflect.typeString := reflect.typeString W |}.

Definition reordered (W : reflect.world)
  (m' : reflect.rtype -> reflect.addr -> list (reflect.Value * reflect.Value))
  : Prop :=
  forall t p, Permutation (reflect.mapData W t p) (m' t p).

(** A map answers the lookup of one of its keys with one value. *)
Definition singleValued (es : list (reflect.Value * reflect.Value)) : Prop :=
  forall k k1 v1 k2 v2,
    In k (map fst es) -> In (k1, v1) es -> In (k2, v2) es ->
    reflect.keyEq k1 k = true -> reflect.keyEq k2 k = true -> v1 = v2.

(** [leb] orders the keys [ks] totally. *)
Definition totalOrderOn (leb : reflect.Value -> reflect.Value -> bool)
  (ks : list reflect.Value) : Prop :=
  (forall a b, In a ks -> In b ks -> leb a b = true \/ leb b a = true) /\
  (forall a b, In a ks -> In b ks ->
     leb a b = true -> leb b a = true -> a = b) /\
  (forall a b c, In a ks -> In b ks -> In c ks ->
     leb a b = true -> leb b c = true -> leb a c = true).

Definition mapsWellFormed (L : lib) (W : reflect.world) : Prop :=
  forall t p,
    singleValued (reflect.mapData W t p) /\
    totalOrderOn (keyLeb L) (keysAt W t p).

(** The example world with the maps at 11 and 12 exchanged. *)
Definition exampleReordering (t : reflect.rtype) (a : reflect.addr)
  : list (reflect.Value * reflect.Value) :=
  if a =? 11 then reflect.mapData exampleWorld t 12
  else if a =? 12 then reflect.mapData exampleWorld t 11
  else reflect.mapData exampleWorld t a.

(** ** Vocabulary of the further properties *)

(** [e] after its sink has been called with [cs], one call after the other:
    the flag is set by the first call, the calls go down the chain of
    sinks. *)
Definition delivered (e : printEmitter) (cs : list call) : printEmitter :=
  match cs with
  | [] => e
  | _ :: _ =>
      mkPrintEmitter (pe_level e) (pe_path e) true
        (fold_left callSink cs (pe_sink e))
  end.

(** The call [printEmitter.emitf] makes at level [l] for the path [p]. *)
Definition lineAt (l : level.t) (p : list string) (c : call) : Prop :=
  match l with
  | level.auto =>
      exists format arg, c = (("%s" ++ format ++ LF)%string, AString (prefix p) :: arg)
  | level.pathOnly => c = (("%s" ++ LF)%string, [AString (join p)])
  | level.full =>
      exists av bv,
        c = (("%s%#v != %#v" ++ LF)%string, [AString (prefix p); AValue av; AValue bv])
  | level.unknown _ => False
  end.

(** [c] is a call for the path of [e] or for a path below it. *)
Definition below (e : printEmitter) (c : call) : Prop :=
  exists segs, lineAt (pe_level e) (pe_path e ++ segs) c.

(** No transform and no format function is registered. *)
Definition plain (d : differ) : Prop :=
  xform (cfg d) = [] /\ format (cfg d) = [].

(** The counting sink [k] has counted, on its way to [k'], as many
    differences as the caller of the textual sink [e] has received calls on
    its way to [e']. *)
Definition tally (e e' : printEmitter) (k k' : countEmitter) : Prop :=
  (List.length (pe_received e') + n k = List.length (pe_received e) + n k')%nat.

(** The same computation run with the textual sink [e] ([mp]) and with the
    counting sink [k] ([mc]): when the first returns, so does the second,
    with the same tracker and the same number of differences. *)
Definition countsE (e : printEmitter) (k : countEmitter)
  (mp mc : result emitfer) : Prop :=
  forall e', mp = Ok e' ->
    exists pe' k', e' = Print pe' /\ mc = Ok (Count k') /\ tally e pe' k k'.

Definition countsS (d : differ) (e : printEmitter) (k : countEmitter)
  (mp mc : result (differ * emitfer)) : Prop :=
  forall d' e', mp = Ok (d', e') ->
    exists pe' k', e' = Print pe' /\ cfg d' = cfg d /\
      mc = Ok (d', Count k') /\ tally e pe' k k'.

Definition countsC (d : differ) (e : printEmitter) (k : countEmitter)
  (mp mc : result (ctl (differ * emitfer))) : Prop :=
  forall c, mp = Ok c ->
    match c with
    | Return d' e' =>
        exists pe' k', e' = Print pe' /\ cfg d' = cfg d /\
          mc = Ok (Return d' (Count k')) /\ tally e pe' k k'
    | Next (d', e') =>
        exists pe' k', e' = Print pe' /\ cfg d' = cfg d /\
          mc = Ok (Next (d', Count k')) /\ tally e pe' k k'
    end.

(** [type P *P]: every pointer of the type points to itself. *)
Definition selfT : reflect.rtype := reflect.TNamed "main" "P".

Definition loopWorld : reflect.world := {|
  reflect.underlying := fun _ _ => reflect.TPtr selfT;
  reflect.deref := fun t a => reflect.Val t (reflect.DPointer a);
  reflect.sliceData := fun _ _ _ => reflect.Zero;
  reflect.mapData := fun _ _ => [];
  reflect.typeString := fun _ => "main.P"
|}.

(** The values of [C] are non-nil pointers and non-nil interfaces that lead
    to values of [C] again. *)
Definition pointerCycle (W : reflect.world) (C : reflect.Value -> Prop) : Prop :=
  forall v, C v ->
    exists t,
      (exists a et, v = reflect.Val t (reflect.DPointer a) /\
                    reflect.lit W t = reflect.TPtr et /\ a <> 0 /\
                    C (reflect.deref W t a)) \/
      (exists x, v = reflect.Val t (reflect.DIface x) /\
                 reflect.KindOf W t = reflect.Interface /\ C x).

(** Every pairing the tracker holds pairs an identity with itself. *)
Definition diagonal (d : differ) : Prop :=
  (forall a b, lookupVisit a (aSeen d) = Some b -> b = a) /\
  (forall b a, lookupVisit b (bSeen d) = Some a -> a = b).

(** A value the walker can compare with itself within [n] nested
    activations without finding a difference: it holds data of its kind, no
    floating-point number that differs from itself, and no non-nil function
    unless functions are taken as equal ([ef]).  Pointers, maps, slices and
    channels are not followed. *)
Fixpoint selfEqual (W : reflect.world) (ef : bool) (n : nat) (v : reflect.Value)
  {struct n} : bool :=
  match n with
  | O => false
  | S n' =>
      match v with
      | reflect.Zero => true
      | reflect.Val t d =>
          match reflect.KindOf W t, d with
          | reflect.Bool, reflect.DBool _ => true
          | (reflect.Int | reflect.Int8 | reflect.Int16 | reflect.Int32
             | reflect.Int64), reflect.DInt _ => true
          | (reflect.Uint | reflect.Uint8 | reflect.Uint16 | reflect.Uint32
             | reflect.Uint64 | reflect.Uintptr), reflect.DUint _ => true
          | (reflect.Float32 | reflect.Float64), reflect.DFloat f => SFeqb f f
          | (reflect.Complex64 | reflect.Complex128), reflect.DComplex r i =>
              SFeqb r r && SFeqb i i
          | reflect.String, _ => true
          | reflect.Array, reflect.DElems vs =>
              match reflect.TLen W t with
              | Ok len => (len =? List.length vs)%nat && forallb (selfEqual W ef n') vs
              | _ => false
              end
          | reflect.Struct, reflect.DElems vs =>
              match reflect.NumField W t with
              | Ok num => (num =? List.length vs)%nat && forallb (selfEqual W ef n') vs
              | _ => false
              end
          | reflect.Func, reflect.DPointer p => ef || (p =? 0)
          | reflect.Interface, reflect.DIface x => selfEqual W ef n' x
          | (reflect.Map | reflect.Pointer | reflect.Chan
             | reflect.UnsafePointer), reflect.DPointer _ => true
          | reflect.Slice, reflect.DSlice _ _ => true
          | _, _ => false
          end
      end
  end.

(** No operand has a [Format] method of its own. *)
Definition plainArg (a : farg) : Prop :=
  match a with AFormatter _ => False | _ => True end.

(** The tracker as a walk of a value against itself keeps it: the
    configuration [c], one-to-one, every identity paired with itself. *)
Definition selfTracker (c : config) (d : differ) : Prop :=
  cfg d = c /\ paired d /\ diagonal d.

(** The walk returned the sink it was given and a tracker of the same
    kind. *)
Definition selfResult (c : config) (e : emitfer) (r : result state) : Prop :=
  exists d', r = Ok (d', e) /\ selfTracker c d'.

(** [d] with the level [l] in its configuration, and the configuration [c]
    with the level [l]. *)
Definition setLevel (l : level.t) (c : config) : config :=
  {| level := l; equalFuncs := equalFuncs c;
     xform := xform c; format := format c |}.

Definition withLevel (l : level.t) (d : differ) : differ :=
  {| cfg := setLevel l (cfg d); aSeen := aSeen d; bSeen := bSeen d |}.

(** The same computation run with the sink [e1] ([m1]) and with a sink
    related to it, under a configuration with another level ([m2]): when the
    first returns, the second returns the same tracker, but for the level,
    and a related sink. *)
Definition simE (Q : emitfer -> emitfer -> Prop) (m1 m2 : result emitfer)
  : Prop :=
  forall e1', m1 = Ok e1' -> exists e2', m2 = Ok e2' /\ Q e1' e2'.

Definition simS (Q : emitfer -> emitfer -> Prop) (l : level.t)
  (m1 m2 : result (differ * emitfer)) : Prop :=
  forall d' e1', m1 = Ok (d', e1') ->
    exists e2', m2 = Ok (withLevel l d', e2') /\ Q e1' e2'.

Definition simC (Q : emitfer -> emitfer -> Prop) (l : level.t)
  (m1 m2 : result (ctl (differ * emitfer))) : Prop :=
  forall c, m1 = Ok c ->
    match c with
    | Return d' e1' =>
        exists e2', m2 = Ok (Return (withLevel l d') e2') /\ Q e1' e2'
    | Next (d', e1') =>
        exists e2', m2 = Ok (Next (withLevel l d', e2')) /\ Q e1' e2'
    end.

(** Two calls for the same path, one made at level [l1], one at [l2]. *)
Definition samePath (l1 l2 : level.t) (c1 c2 : call) : Prop :=
  exists p, lineAt l1 p c1 /\ lineAt l2 p c2.

(** Two chains of sinks of the same shape, one at level [l1], one at [l2]:
    same paths, same flags, and the callers have received calls for the
    same paths in the same order.  Two counting sinks are related when they
    are equal. *)
Fixpoint sinkSim (l1 l2 : level.t) (s1 s2 : sinkFunc) {struct s1} : Prop :=
  match s1, s2 with
  | callerSink r1, callerSink r2 => Forall2 (samePath l1 l2) r1 r2
  | subSink (mkPrintEmitter a1 p1 d1 s1'), subSink (mkPrintEmitter a2 p2 d2 s2') =>
      a1 = l1 /\ a2 = l2 /\ p1 = p2 /\ d1 = d2 /\ sinkSim l1 l2 s1' s2'
  | _, _ => False
  end.

Definition levelSim (l1 l2 : level.t) (e1 e2 : emitfer) : Prop :=
  match e1, e2 with
  | Print p1, Print p2 => sinkSim l1 l2 (subSink p1) (subSink p2)
  | Count k1, Count k2 => k1 = k2
  | _, _ => False
  end.

(** A world whose maps of type [map[float64]int] all hold the one entry
    [NaN: 1]. *)
Definition nanMapT : reflect.rtype := reflect.TMap float64T intT.

Definition nanKeyWorld : reflect.world :=
  withMapData exampleWorld (fun _ _ => [(nanV, intV 1)]).

(** Induction over values that reaches the values nested in arrays,
    structs and interfaces. *)
Section ValueInd.

Variable P : reflect.Value -> Prop.
Variable Q : reflect.data -> Prop.

Hypothesis HZero : P reflect.Zero.
Hypothesis HVal : forall t d, Q d -> P (reflect.Val t d).
Hypothesis HBool : forall b, Q (reflect.DBool b).
Hypothesis HInt : forall i, Q (reflect.DInt i).
Hypothesis HUint : forall u, Q (reflect.DUint u).
Hypothesis HFloat : forall f, Q (reflect.DFloat f).
Hypothesis HComplex : forall r i, Q (reflect.DComplex r i).
Hypothesis HString : forall s, Q (reflect.DString s).
Hypothesis HElems : forall vs, Forall P vs -> Q (reflect.DElems vs).
Hypothesis HPointer : forall p, Q (reflect.DPointer p).
Hypothesis HSlice : forall p n, Q (reflect.DSlice p n).
Hypothesis HIface : forall v, P v -> Q (reflect.DIface v).

Fixpoint Value_nested_ind (v : reflect.Value) : P v :=
  match v with
  | reflect.Zero => HZero
  | reflect.Val t d => HVal t (data_nested_ind d)
  end
with data_nested_ind (d : reflect.data) : Q d :=
  match d with
  | reflect.DBool b => HBool b
  | reflect.DInt i => HInt i
  | reflect.DUint u => HUint u
  | reflect.DFloat f => HFloat f
  | reflect.DComplex r i => HComplex r i
  | reflect.DString s => HString s
  | reflect.DElems vs =>
      HElems ((fix all (vs : list reflect.Value) : Forall P vs :=
                 match vs with
                 | [] => Forall_nil _
                 | v :: vs' => Forall_cons v (Value_nested_ind v) (all vs')
                 end) vs)
  | reflect.DPointer p => HPointer p
  | reflect.DSlice p n => HSlice p n
  | reflect.DIface v => HIface (Value_nested_ind v)
  end.

End ValueInd.

(** * Properties *)

(** ** Type identity is decidable by [rtype_eqb] *)

Lemma Kind_eqb_eq (a b : reflect.Kind) : reflect.Kind_eqb a b = true <-> a = b.
Proof.
  split.
  - destruct a, b; simpl; intro H; try reflexivity; discriminate H.
  - intros ->. destruct b; reflexivity.
Qed.

Lemma ChanDir_eqb_eq (a b : reflect.ChanDir) :
  reflect.ChanDir_eqb a b = true <-> a = b.
Proof.
  split.
  - destruct a, b; simpl; intro H; try reflexivity; discriminate H.
  - intros ->. destruct b; reflexivity.
Qed.

Lemma rtype_eqb_eq (t u : reflect.rtype) : reflect.rtype_eqb t u = true <-> t = u.
Proof.
  revert u. induction t using rtype_nested_ind; intros u.
  - destruct u; simpl; try (split; [discriminate | intro E; discriminate E]).
    rewrite Kind_eqb_eq. split; [intros -> | intros [= ->]]; reflexivity.
  - destruct u; simpl; try (split; [discriminate | intro E; discriminate E]).
    rewrite andb_true_iff, !String.eqb_eq.
    split; [intros [-> ->] | intros [= -> ->]]; auto.
  - destruct u; simpl; try (split; [discriminate | intro E; discriminate E]).
    rewrite andb_true_iff, Nat.eqb_eq, IHt.
    split; [intros [-> ->] | intros [= -> ->]]; auto.
  - destruct u; simpl; try (split; [discriminate | intro E; discriminate E]).
    match goal with |- ?f fs fields = true <-> _ =>
      assert (G : forall gs, f fs gs = true <-> fs = gs) end.
    { induction H as [|[n a] fs Ha Hfs IH]; intros [|[m b] gs]; simpl;
        try (split; [discriminate | intro E; discriminate E]).
      - split; reflexivity.
      - simpl in Ha. rewrite !andb_true_iff, String.eqb_eq, (Ha b), IH.
        split; [intros [[-> ->] ->] | intros [= -> -> ->]]; auto. }
    rewrite G. split; [intros -> | intros [= ->]]; reflexivity.
  - destruct u; simpl; try (split; [discriminate | intro E; discriminate E]).
    match goal with |- ?f i ins && _ && _ = true <-> _ =>
      assert (G : forall ts, Forall (fun a => forall b,
                     reflect.rtype_eqb a b = true <-> a = b) ts ->
                   forall us, f ts us = true <-> ts = us) end.
    { induction 1 as [|a ts Ha Hts IH]; intros [|b us]; simpl;
        try (split; [discriminate | intro E; discriminate E]).
      - split; reflexivity.
      - rewrite andb_true_iff, (Ha b), IH.
        split; [intros [-> ->] | intros [= -> ->]]; auto. }
    rewrite !andb_true_iff, (G i H), (G o H0), Bool.eqb_true_iff.
    split; [intros [[-> ->] ->] | intros [= -> -> ->]]; auto.
  - destruct u; simpl; try (split; [discriminate | intro E; discriminate E]).
    match goal with |- ?f ms methods = true <-> _ =>
      assert (G : forall gs, f ms gs = true <-> ms = gs) end.
    { induction H as [|[n a] fs Ha Hfs IH]; intros [|[m b] gs]; simpl;
        try (split; [discriminate | intro E; discriminate E]).
      - split; reflexivity.
      - simpl in Ha. rewrite !andb_true_iff, String.eqb_eq, (Ha b), IH.
        split; [intros [[-> ->] ->] | intros [= -> -> ->]]; auto. }
    rewrite G. split; [intros -> | intros [= ->]]; reflexivity.
  - destruct u; simpl; try (split; [discriminate | intro E; discriminate E]).
    rewrite andb_true_iff, IHt1, IHt2.
    split; [intros [-> ->] | intros [= -> ->]]; auto.
  - destruct u; simpl; try (split; [discriminate | intro E; discriminate E]).
    rewrite IHt. split; [intros -> | intros [= ->]]; reflexivity.
  - destruct u; simpl; try (split; [discriminate | intro E; discriminate E]).
    rewrite IHt. split; [intros -> | intros [= ->]]; reflexivity.
  - destruct u; simpl; try (split; [discriminate | intro E; discriminate E]).
    rewrite andb_true_iff, ChanDir_eqb_eq, IHt.
    split; [intros [-> ->] | intros [= -> ->]]; auto.
Qed.

Lemma rtype_eqb_refl (t : reflect.rtype) : reflect.rtype_eqb t t = true.
Proof. apply rtype_eqb_eq. reflexivity. Qed.

Lemma visit_eqb_eq (a b : visit) : visit_eqb a b = true <-> a = b.
Proof.
  destruct a as [pa ta], b as [pb tb]. unfold visit_eqb. simpl.
  rewrite andb_true_iff, Z.eqb_eq, rtype_eqb_eq.
  split; [intros [-> ->] | intros [= -> ->]]; auto.
Qed.

Lemma visit_eqb_refl (a : visit) : visit_eqb a a = true.
Proof. apply visit_eqb_eq. reflexivity. Qed.

Lemma visit_eqb_neq (a b : visit) : visit_eqb a b = false <-> a <> b.
Proof.
  rewrite <- visit_eqb_eq. destruct (visit_eqb a b); split; congruence.
Qed.

(** ** Reasoning about results and loops *)

Lemma bind_Ok {A B : Type} (c : result A) (k : A -> result B) (b : B) :
  bind c k = Ok b -> exists a, c = Ok a /\ k a = Ok b.
Proof. destruct c; simpl; intro H; try discriminate H. eauto. Qed.

Lemma bind_assoc {A B C : Type} (c : result A) (k : A -> result B)
  (h : B -> result C) :
  bind (bind c k) h = bind c (fun a => bind (k a) h).
Proof. destruct c; reflexivity. Qed.

Lemma bind_ext {A B : Type} (c : result A) (k h : A -> result B) :
  (forall a, k a = h a) -> bind c k = bind c h.
Proof. intro E. destruct c; simpl; auto. Qed.

(** Inverts the hypotheses [bind c k = Ok b] of the context. *)
Ltac inv_bind :=
  repeat match goal with
  | H : bind ?c ?k = Ok ?b |- _ =>
      let a := fresh "a" in
      let E := fresh "E" in
      apply bind_Ok in H; destruct H as [a [E H]]
  | H : Ok _ = Ok _ |- _ => inversion H; subst; clear H
  | H : Panic _ = Ok _ |- _ => discriminate H
  | H : OutOfFuel = Ok _ |- _ => discriminate H
  | H : (let '(x, y) := ?p in _) = Ok _ |- _ => destruct p
  | H : match ?p with (x, y) => _ end = Ok _ |- _ => destruct p
  end.

Lemma forRange_Ok {A S : Type} (P : S -> S -> Prop) (xs : list A)
  (body : A -> S -> result S) :
  (forall s, P s s) ->
  (forall s1 s2 s3, P s1 s2 -> P s2 s3 -> P s1 s3) ->
  (forall x s s', In x xs -> body x s = Ok s' -> P s s') ->
  forall s s', forRange xs body s = Ok s' -> P s s'.
Proof.
  intros Hrefl Htrans. induction xs as [|x xs IH]; simpl; intros Hbody s s' H.
  - inv_bind. apply Hrefl.
  - inv_bind. apply Htrans with a.
    + apply (Hbody x); [left; reflexivity | assumption].
    + apply IH; [|assumption]. intros y s1 s2 Hy. apply Hbody. right. exact Hy.
Qed.

Lemma forRange_app {A S : Type} (xs ys : list A) (body : A -> S -> result S)
  (s : S) :
  forRange (xs ++ ys) body s = (s' <- forRange xs body s ;; forRange ys body s').
Proof.
  revert s. induction xs as [|x xs IH]; simpl; intro s; [reflexivity|].
  rewrite bind_assoc. apply bind_ext. intro a. apply IH.
Qed.

(** ** The tracker and the emitter along a walk *)

Section WalkRel.

Variable W : reflect.world.
Variable L : lib.

(** A relation between the state a walk starts in and the state it ends in
    holds for every walk as soon as it is reflexive and transitive, holds
    across one emission and one new pairing, and carries over from a child
    emitter to the emitter that made it. *)
Variable R : state -> state -> Prop.

Hypothesis R_refl : forall s, R s s.
Hypothesis R_trans : forall s1 s2 s3, R s1 s2 -> R s2 s3 -> R s1 s3.
Hypothesis R_emit :
  forall d e av bv format arg e',
    emitf e av bv format arg = Ok e' -> R (d, e) (d, e').
Hypothesis R_pair :
  forall d e a b,
    lookupVisit a (aSeen d) = None -> lookupVisit b (bSeen d) = None ->
    R (d, e) (register d a b, e).
Hypothesis R_sub :
  forall fuel d e format arg c d' c',
    subf W L fuel e format arg = Ok c ->
    R (d, c) (d', c') -> R (d, e) (d', resume e c').

Lemma checkCycles_rel d e av bv t c :
  checkCycles W d e av bv t = Ok c ->
  match c with
  | Return d' e' => R (d, e) (d', e')
  | Next d' => R (d, e) (d', e)
  end.
Proof.
  unfold checkCycles. intro H.
  destruct (reflect.KindOf W t); inv_bind; auto;
    (destruct (a || a0); inv_bind; auto;
     destruct (lookupVisit _ (aSeen d)) eqn:Ea;
     [ destruct (negb _); inv_bind; eauto
     | destruct (lookupVisit _ (bSeen d)) eqn:Eb; inv_bind; eauto;
       apply R_pair; auto ]).
Qed.

Lemma checkXform_state wk d e av bv t xformOk d' e' :
  checkXform wk d e av bv t xformOk = Ok (Return d' e') -> d' = d /\ e' = e.
Proof.
  unfold checkXform. intro H.
  destruct xformOk; [|discriminate H].
  destruct (lookupType t (xform (cfg d))); [|discriminate H].
  inv_bind. destruct a; inv_bind. auto.
Qed.

Lemma checkFormat_rel wk d e av bv t d' e' :
  checkFormat wk d e av bv t = Ok (Return d' e') -> R (d, e) (d', e').
Proof.
  unfold checkFormat. intro H.
  destruct (lookupType t (format (cfg d))); [|discriminate H].
  inv_bind. destruct (negb a); inv_bind. eauto.
Qed.

Lemma emitSub_rel fuel format arg x y msg d e e' :
  emitSub W L fuel format arg x y msg e = Ok e' -> R (d, e) (d, e').
Proof.
  unfold emitSub. intro H. inv_bind. eauto.
Qed.

Section Step.

Variable wk : walker.
Hypothesis wk_rel :
  forall d e av bv xformOk wantType s,
    wk d e av bv xformOk wantType = Ok s -> R (d, e) s.

Lemma walkSub_rel fuel format arg x y s s' :
  walkSub W L wk fuel format arg x y s = Ok s' -> R s s'.
Proof.
  unfold walkSub. destruct s as [d e]. intro H. inv_bind.
  apply wk_rel in E2. eauto.
Qed.

Lemma walkKind_rel fuel d e av bv t wantType c :
  walkKind W L wk fuel d e av bv t wantType = Ok c ->
  match c with
  | Return d' e' => R (d, e) (d', e')
  | Next s => R (d, e) s
  end.
Proof.
  unfold walkKind, emitPointers, eqtest, forIndex. intro H.
  destruct (reflect.KindOf W t) eqn:K; inv_bind;
    repeat match goal with
    | H : (if ?b then _ else _) = Ok _ |- _ => destruct b; inv_bind
    end; eauto;
    try (eapply (forRange_Ok R); [auto | eauto | | eassumption];
         intros; cbv beta in *; inv_bind; eapply walkSub_rel; eassumption).
  (* map: removed keys, shared keys, added keys *)
  match goal with
  | H1 : forRange _ _ e = Ok ?e1, H2 : forRange _ _ (d, ?e1) = Ok (?d2, ?e2),
    H3 : forRange _ _ ?e2 = Ok ?e3 |- R (d, e) (?d2, ?e3) =>
      apply R_trans with (d, e1);
      [ revert H1; apply (forRange_Ok (fun x y => R (d, x) (d, y))); eauto;
        intros; eapply emitSub_rel; eassumption
      | apply R_trans with (d2, e2);
        [ revert H2; apply (forRange_Ok R); eauto;
          intros; eapply walkSub_rel; eassumption
        | revert H3; apply (forRange_Ok (fun x y => R (d2, x) (d2, y))); eauto;
          intros; eapply emitSub_rel; eassumption ] ]
  end.
Qed.

Lemma walkXformed_rel fuel s av bv haveXform ax bx s' :
  walkXformed W L wk fuel s av bv haveXform ax bx = Ok s' -> R s s'.
Proof.
  unfold walkXformed. destruct s as [d e]. intro H.
  destruct (haveXform && negb (didEmit e)); inv_bind; auto.
  apply wk_rel in E1. eapply R_trans; [eapply R_emit; eauto|]. eauto.
Qed.

Lemma walkBody_rel fuel d e av bv xformOk wantType s :
  walkBody W L wk fuel d e av bv xformOk wantType = Ok s -> R (d, e) s.
Proof.
  unfold walkBody. intro H.
  repeat match goal with
  | H : (if ?b then _ else _) = Ok _ |- _ => destruct b; inv_bind; eauto
  end.
  pose proof (checkCycles_rel _ _ _ _ _ E1) as C1.
  destruct a1 as [d1 e1|d1]; inv_bind; auto.
  destruct a1 as [d2 e2|[[haveXform ax] bx]]; inv_bind.
  { apply checkXform_state in E2. destruct E2; subst. auto. }
  destruct a1 as [d3 e3|[]]; inv_bind.
  { apply checkFormat_rel in E3. eauto. }
  pose proof (walkKind_rel _ _ _ _ _ _ _ E4) as C4.
  destruct a1 as [d4 e4|s4]; inv_bind; eauto.
  apply walkXformed_rel in H. eauto.
Qed.

End Step.

Theorem walk_rel fuel :
  forall d e av bv xformOk wantType s,
    walk W L fuel d e av bv xformOk wantType = Ok s -> R (d, e) s.
Proof.
  induction fuel as [|fuel IH]; simpl; intros d e av bv xformOk wantType s H.
  - discriminate H.
  - eapply walkBody_rel; eauto.
Qed.

End WalkRel.

(** ** Emitters *)

Scheme printEmitter_mut := Induction for printEmitter Sort Prop
  with sinkFunc_mut := Induction for sinkFunc Sort Prop.

Lemma sink_ind_nested (P : sinkFunc -> Prop) :
  (forall r, P (callerSink r)) ->
  (forall l p d s, P s -> P (subSink (mkPrintEmitter l p d s))) ->
  forall s, P s.
Proof.
  intros Hc Hs.
  apply (sinkFunc_mut (fun e => P (subSink e)) P); auto.
Qed.

Lemma callSink_received (s : sinkFunc) (c : call) :
  sink_received (callSink s c) = sink_received s ++ [c].
Proof.
  induction s using sink_ind_nested; simpl; auto.
Qed.

Lemma sink_later_refl (s : sinkFunc) : sink_later s s.
Proof.
  induction s using sink_ind_nested; simpl.
  - exists []. symmetry. apply app_nil_r.
  - auto.
Qed.

Lemma sink_later_trans (s1 s2 s3 : sinkFunc) :
  sink_later s1 s2 -> sink_later s2 s3 -> sink_later s1 s3.
Proof.
  revert s2 s3. induction s1 using sink_ind_nested; intros s2 s3.
  - destruct s2 as [r2|e2]; simpl; [|tauto].
    destruct s3 as [r3|e3]; simpl; [|tauto].
    intros [x ->] [y ->]. exists (x ++ y). symmetry. apply app_assoc.
  - destruct s2 as [r2|[l2 p2 d2 s2]]; simpl; [tauto|].
    destruct s3 as [r3|[l3 p3 d3 s3]]; simpl; [tauto|].
    intros (-> & -> & Hd & H12) (-> & -> & Hd' & H23).
    repeat split; auto. eapply IHs1; eauto.
Qed.

Lemma sink_later_callSink (s : sinkFunc) (c : call) :
  sink_later s (callSink s c).
Proof.
  induction s using sink_ind_nested; simpl.
  - exists [c]. reflexivity.
  - auto.
Qed.

Lemma sink_later_received (s s' : sinkFunc) :
  sink_later s s' -> exists x, sink_received s' = sink_received s ++ x.
Proof.
  revert s'. induction s using sink_ind_nested; intros s'.
  - destruct s' as [r'|e']; simpl; [auto|destruct e'; tauto].
  - destruct s' as [r'|[l' p' d' s']]; simpl; [tauto|].
    intros (_ & _ & _ & H). auto.
Qed.

Lemma later_refl (e : emitfer) : later e e.
Proof.
  destruct e as [pe|ce]; simpl; [apply sink_later_refl | lia].
Qed.

Lemma later_trans (e1 e2 e3 : emitfer) :
  later e1 e2 -> later e2 e3 -> later e1 e3.
Proof.
  destruct e1, e2, e3; simpl; try tauto.
  - apply sink_later_trans.
  - lia.
Qed.

Lemma later_received (e e' : emitfer) :
  later e e' -> exists x, received e' = received e ++ x.
Proof.
  destruct e as [[l p d s]|ce], e' as [[l' p' d' s']|ce'];
    unfold later, pe_later; simpl; try tauto.
  - intros (_ & _ & _ & H). apply sink_later_received. exact H.
  - exists []. reflexivity.
Qed.

Lemma later_didEmit (e e' : emitfer) :
  later e e' -> didEmit e = true -> didEmit e' = true.
Proof.
  destruct e as [[l p d s]|ce], e' as [[l' p' d' s']|ce'];
    unfold later, pe_later; simpl; try tauto.
  unfold countEmitter_didEmit. rewrite !Nat.ltb_lt. lia.
Qed.

Lemma emitf_later (e : emitfer) av bv format arg e' :
  emitf e av bv format arg = Ok e' -> later e e'.
Proof.
  destruct e as [[l p d s]|ce]; simpl; intro H.
  - destruct l; inv_bind; unfold pe_later; simpl;
      (repeat split; auto; apply sink_later_callSink).
  - inv_bind. simpl. lia.
Qed.

Lemma emitf_didEmit (e : emitfer) av bv format arg e' :
  emitf e av bv format arg = Ok e' -> didEmit e' = true.
Proof.
  destruct e as [[l p d s]|ce]; simpl; intro H.
  - destruct l; inv_bind; reflexivity.
  - inv_bind. reflexivity.
Qed.

Lemma subf_resume W L fuel (e : emitfer) format arg c c' :
  subf W L fuel e format arg = Ok c -> later c c' -> later e (resume e c').
Proof.
  destruct e as [[l p d s]|ce]; simpl; intro H; inv_bind.
  - unfold printEmitter_subf in E. inv_bind.
    destruct c' as [[l' p' d' s']|]; unfold later, pe_later; simpl; [|tauto].
    destruct s' as [r'|[l2 p2 d2 s2]]; simpl; tauto.
  - simpl. destruct c'; auto.
Qed.

(** A walk leaves its emitter a later version of itself. *)
Lemma walk_later W L fuel d e av bv xformOk wantType d' e' :
  walk W L fuel d e av bv xformOk wantType = Ok (d', e') -> later e e'.
Proof.
  intro H.
  apply (walk_rel W L (fun s s' => later (snd s) (snd s'))) in H;
    simpl in *; auto.
  - intros. apply later_refl.
  - intros s1 s2 s3. apply later_trans.
  - intros. eapply emitf_later; eauto.
  - intros. apply later_refl.
  - intros. eapply subf_resume; eauto.
Qed.

(** ** The identity tracker *)

Lemma paired_register (d : differ) (a b : visit) :
  lookupVisit a (aSeen d) = None -> lookupVisit b (bSeen d) = None ->
  paired d -> paired (register d a b).
Proof.
  intros Ha Hb Hd x y. unfold register. simpl.
  destruct (visit_eqb a x) eqn:Eax, (visit_eqb b y) eqn:Eby.
  - apply visit_eqb_eq in Eax, Eby. subst. split; reflexivity.
  - apply visit_eqb_eq in Eax. subst x. apply visit_eqb_neq in Eby.
    split.
    + intros [= ->]. congruence.
    + intro H. apply Hd in H. congruence.
  - apply visit_eqb_eq in Eby. subst y. apply visit_eqb_neq in Eax.
    split.
    + intro H. apply Hd in H. congruence.
    + intros [= ->]. congruence.
  - apply Hd.
Qed.

Lemma keeps_register (d : differ) (a b : visit) :
  lookupVisit a (aSeen d) = None -> lookupVisit b (bSeen d) = None ->
  keeps d (register d a b).
Proof.
  intros Ha Hb. split; intros x y H; simpl.
  - destruct (visit_eqb a x) eqn:E; [|exact H].
    apply visit_eqb_eq in E. congruence.
  - destruct (visit_eqb b x) eqn:E; [|exact H].
    apply visit_eqb_eq in E. congruence.
Qed.

Lemma keeps_refl (d : differ) : keeps d d.
Proof. split; auto. Qed.

Lemma keeps_trans (d1 d2 d3 : differ) : keeps d1 d2 -> keeps d2 d3 -> keeps d1 d3.
Proof. intros [A B] [A' B']. split; auto. Qed.

(** A walk never touches the configuration, never forgets or changes a
    pairing, and keeps the tracker one-to-one. *)
Lemma walk_tracker W L fuel d e av bv xformOk wantType d' e' :
  walk W L fuel d e av bv xformOk wantType = Ok (d', e') ->
  cfg d' = cfg d /\ keeps d d' /\ (paired d -> paired d').
Proof.
  intro H.
  apply (walk_rel W L (fun s s' =>
           cfg (fst s') = cfg (fst s) /\ keeps (fst s) (fst s') /\
           (paired (fst s) -> paired (fst s')))) in H; simpl in *; auto.
  - intros. auto using keeps_refl.
  - intros s1 s2 s3 (C & K & P) (C' & K' & P'). split; [|split].
    + congruence.
    + eapply keeps_trans; eauto.
    + auto.
  - intros. auto using keeps_refl.
  - intros. auto using keeps_register, paired_register.
Qed.

Lemma paired_injective (d : differ) (a1 a2 b : visit) :
  paired d ->
  lookupVisit a1 (aSeen d) = Some b -> lookupVisit a2 (aSeen d) = Some b ->
  a1 = a2.
Proof.
  intros P H1 H2. apply P in H1, H2. congruence.
Qed.

Lemma paired_injective_b (d : differ) (b1 b2 a : visit) :
  paired d ->
  lookupVisit b1 (bSeen d) = Some a -> lookupVisit b2 (bSeen d) = Some a ->
  b1 = b2.
Proof.
  intros P H1 H2. apply P in H1, H2. congruence.
Qed.

(** ** One activation of the walker, block by block *)

Section Blocks.

Variable W : reflect.world.
Variable L : lib.

Lemma walk_same_type fuel d e t da db xformOk wantType :
  let av := reflect.Val t da in
  let bv := reflect.Val t db in
  walk W L (S fuel) d e av bv xformOk wantType =
  (c <- checkCycles W d e av bv t ;;
   match c with
   | Return d e => Ok (d, e)
   | Next d =>
       c <- checkXform (walk W L fuel) d e av bv t xformOk ;;
       match c with
       | Return d e => Ok (d, e)
       | Next (haveXform, ax, bx) =>
           c <- checkFormat (walk W L fuel) d e av bv t ;;
           match c with
           | Return d e => Ok (d, e)
           | Next _ =>
               c <- walkKind W L (walk W L fuel) fuel d e av bv t wantType ;;
               match c with
               | Return d e => Ok (d, e)
               | Next s =>
                   walkXformed W L (walk W L fuel) fuel s av bv haveXform ax bx
               end
           end
       end
   end).
Proof.
  simpl. unfold walkBody. simpl. rewrite rtype_eqb_refl. reflexivity.
Qed.

Lemma identity_Some v a :
  identity W v = Some a ->
  exists t, reflect.TypeOf v = Ok t /\ vt a = t /\ vp a <> 0 /\
    reflect.IsNil v = Ok false /\ reflect.PointerOf v = Ok (vp a) /\
    (reflect.KindOf W t = reflect.Ptr \/ reflect.KindOf W t = reflect.Map \/
     reflect.KindOf W t = reflect.Slice).
Proof.
  unfold identity. destruct v as [|t []]; try discriminate;
    (destruct (reflect.KindOf W t) eqn:K; try discriminate;
     destruct (p =? 0) eqn:E; try discriminate; intros [= <-];
     apply Z.eqb_neq in E; exists t; simpl; rewrite ?K;
     repeat split; auto; apply Z.eqb_neq in E; rewrite E; reflexivity).
Qed.

Lemma checkCycles_identity d e t da db a b :
  let av := reflect.Val t da in
  let bv := reflect.Val t db in
  identity W av = Some a -> identity W bv = Some b ->
  checkCycles W d e av bv t =
  match lookupVisit a (aSeen d) with
  | Some seen =>
      if negb (visit_eqb seen b) then
        e <- emitf e av bv "uneven cycle" [] ;; Ok (Return d e)
      else Ok (Return d e)
  | None =>
      match lookupVisit b (bSeen d) with
      | Some _ => e <- emitf e av bv "uneven cycle" [] ;; Ok (Return d e)
      | None => Ok (Next (register d a b))
      end
  end.
Proof.
  intros av bv Ha Hb.
  destruct (identity_Some _ Ha) as (ta & Ta & Va & Na & Ia & Pa & Ka).
  destruct (identity_Some _ Hb) as (tb & Tb & Vb & Nb & Ib & Pb & Kb).
  simpl in Ta, Tb. injection Ta as <-. injection Tb as <-.
  destruct a as [pa ta], b as [pb tb]. cbn [vp vt] in *. subst ta tb.
  unfold checkCycles.
  destruct Ka as [K|[K|K]]; rewrite K, Ia, Ib; cbn [bind orb];
    rewrite Pa, Pb; reflexivity.
Qed.

Lemma checkCycles_scalar d e av bv t :
  reflect.KindOf W t <> reflect.Ptr -> reflect.KindOf W t <> reflect.Map ->
  reflect.KindOf W t <> reflect.Slice ->
  checkCycles W d e av bv t = Ok (Next d).
Proof.
  unfold checkCycles. destruct (reflect.KindOf W t); congruence.
Qed.

Lemma checkXform_none wk d e av bv t xformOk :
  lookupType t (xform (cfg d)) = None ->
  checkXform wk d e av bv t xformOk
  = Ok (Next (false, reflect.Zero, reflect.Zero)).
Proof.
  unfold checkXform. intros ->. destruct xformOk; reflexivity.
Qed.

Lemma checkFormat_none wk d e av bv t :
  lookupType t (format (cfg d)) = None ->
  checkFormat wk d e av bv t = Ok (Next tt).
Proof.
  unfold checkFormat. intros ->. reflexivity.
Qed.

Lemma walkXformed_false wk fuel s av bv ax bx :
  walkXformed W L wk fuel s av bv false ax bx = Ok s.
Proof.
  unfold walkXformed. destruct s. reflexivity.
Qed.

(** With no hook registered for the type, an activation is the cycle check
    followed by the switch. *)
Lemma walk_no_hooks fuel d e t da db xformOk wantType d1 :
  let av := reflect.Val t da in
  let bv := reflect.Val t db in
  checkCycles W d e av bv t = Ok (Next d1) ->
  lookupType t (xform (cfg d1)) = None ->
  lookupType t (format (cfg d1)) = None ->
  walk W L (S fuel) d e av bv xformOk wantType =
  (c <- walkKind W L (walk W L fuel) fuel d1 e av bv t wantType ;;
   match c with
   | Return d e => Ok (d, e)
   | Next s => Ok s
   end).
Proof.
  intros av bv Hc Hx Hf. subst av bv. rewrite walk_same_type. cbv zeta.
  rewrite Hc. simpl.
  rewrite checkXform_none by exact Hx. simpl.
  rewrite checkFormat_none by exact Hf. simpl.
  apply bind_ext. intros [d' e'|s]; [reflexivity|].
  apply walkXformed_false.
Qed.

End Blocks.

(** ** Cycles: worked families *)

Lemma identity_nodeAt W a :
  a <> 0 -> identity W (nodeAt a) = Some {| vp := a; vt := nodePtr |}.
Proof.
  intro H. unfold identity, nodeAt. simpl.
  apply Z.eqb_neq in H. rewrite H. reflexivity.
Qed.

Lemma KindOf_nodeT W : declaresNode W -> reflect.KindOf W nodeT = reflect.Struct.
Proof. unfold declaresNode, reflect.KindOf. simpl. intros ->. reflexivity. Qed.

Lemma walk_int W L fuel d e v xformOk wantType :
  xform (cfg d) = [] -> format (cfg d) = [] ->
  walk W L (S fuel) d e (reflect.Val intT (reflect.DInt v))
    (reflect.Val intT (reflect.DInt v)) xformOk wantType = Ok (d, e).
Proof.
  intros Hx Hf. rewrite walk_no_hooks with (d1 := d).
  - unfold walkKind. simpl. unfold eqtest. simpl. rewrite Z.eqb_refl. reflexivity.
  - reflexivity.
  - rewrite Hx. reflexivity.
  - rewrite Hf. reflexivity.
Qed.

Lemma walk_int_neq W L fuel d e x y xformOk wantType :
  x <> y -> xform (cfg d) = [] -> format (cfg d) = [] ->
  walk W L (S fuel) d e (reflect.Val intT (reflect.DInt x))
    (reflect.Val intT (reflect.DInt y)) xformOk wantType
  = (e' <- emitf e (reflect.Val intT (reflect.DInt x))
             (reflect.Val intT (reflect.DInt y)) "%v != %v"
             [AFormatter (formatShort (reflect.Val intT (reflect.DInt x)) wantType);
              AFormatter (formatShort (reflect.Val intT (reflect.DInt y)) wantType)] ;;
     Ok (d, e')).
Proof.
  intros Hxy Hx Hf. rewrite walk_no_hooks with (d1 := d).
  - unfold walkKind. simpl. unfold eqtest. simpl.
    apply Z.eqb_neq in Hxy. rewrite Hxy. simpl.
    destruct (emitf e _ _ _ _); reflexivity.
  - reflexivity.
  - rewrite Hx. reflexivity.
  - rewrite Hf. reflexivity.
Qed.

Opaque walk.

(** Two nodes that each point back to themselves. *)
Lemma self_loops_equal W L c a b v fuel :
  declaresNode W -> linked W a v a -> linked W b v b ->
  xform c = [] -> format c = [] ->
  each W L (3 + fuel) c (nodeAt a) (nodeAt b)
  = Ok (register (fresh c) {| vp := a; vt := nodePtr |}
          {| vp := b; vt := nodePtr |},
        rootEmitter c).
Proof.
  intros HW [Ha Da] [Hb Db] Hx Hf. unfold each.
  change (3 + fuel)%nat with (S (S (S fuel))).
  unfold nodeAt.
  rewrite walk_no_hooks
    with (d1 := register (fresh c) {| vp := a; vt := nodePtr |}
                  {| vp := b; vt := nodePtr |}).
  2:{ rewrite checkCycles_identity
        with (a := {| vp := a; vt := nodePtr |})
             (b := {| vp := b; vt := nodePtr |})
        by (apply identity_nodeAt; assumption).
      reflexivity. }
  2:{ simpl. rewrite Hx. reflexivity. }
  2:{ simpl. rewrite Hf. reflexivity. }
  unfold walkKind. cbn [reflect.KindOf reflect.lit nodePtr reflect.PointerOf bind].
  destruct (a =? b) eqn:Eab; [reflexivity|].
  cbn [reflect.IsNil bind].
  apply Z.eqb_neq in Ha, Hb. rewrite Ha, Hb.
  cbn [Bool.eqb negb reflect.Elem bind].
  rewrite Ha, Hb, Da, Db. unfold node.
  rewrite walk_no_hooks
    with (d1 := register (fresh c) {| vp := a; vt := nodePtr |}
                  {| vp := b; vt := nodePtr |}).
  2:{ apply checkCycles_scalar; fold nodeT;
        rewrite KindOf_nodeT by assumption; discriminate. }
  2:{ simpl. rewrite Hx. reflexivity. }
  2:{ simpl. rewrite Hf. reflexivity. }
  unfold walkKind. fold nodeT. rewrite KindOf_nodeT by assumption.
  unfold reflect.NumField, reflect.FieldName. simpl reflect.lit. rewrite HW.
  cbn [bind List.length forIndex seq forRange nth_error].
  simpl.
  rewrite walk_int by (simpl; assumption). simpl.
  rewrite walk_same_type. cbv zeta.
  rewrite checkCycles_identity
    with (a := {| vp := a; vt := nodePtr |})
         (b := {| vp := b; vt := nodePtr |})
    by (apply identity_nodeAt; apply Z.eqb_neq; assumption).
  simpl. rewrite !visit_eqb_refl. simpl. reflexivity.
Qed.

(** A node that points back to itself against a cycle of two nodes. *)
Lemma uneven_cycle_once W L c a b1 b2 v fuel :
  declaresNode W -> linked W a v a -> linked W b1 v b2 -> linked W b2 v b1 ->
  b1 <> b2 ->
  level c = level.auto -> xform c = [] -> format c = [] ->
  exists d e,
    each W L (3 + fuel) c (nodeAt a) (nodeAt b1) = Ok (d, e) /\
    received e
    = [(("%s" ++ "uneven cycle" ++ LF)%string, [AString ".next: "])].
Proof.
  intros HW [Ha Da] [Hb1 Db1] [Hb2 Db2] Hne Hl Hx Hf. unfold each.
  assert (Hab : a <> b1).
  { intros ->. rewrite Da in Db1. unfold node in Db1. congruence. }
  change (3 + fuel)%nat with (S (S (S fuel))).
  unfold nodeAt.
  rewrite walk_no_hooks
    with (d1 := register (fresh c) {| vp := a; vt := nodePtr |}
                  {| vp := b1; vt := nodePtr |}).
  2:{ rewrite checkCycles_identity
        with (a := {| vp := a; vt := nodePtr |})
             (b := {| vp := b1; vt := nodePtr |})
        by (apply identity_nodeAt; assumption).
      reflexivity. }
  2:{ simpl. rewrite Hx. reflexivity. }
  2:{ simpl. rewrite Hf. reflexivity. }
  unfold walkKind. cbn [reflect.KindOf reflect.lit nodePtr reflect.PointerOf bind].
  pose proof Ha as Ha'. pose proof Hb2 as Hb2'.
  apply Z.eqb_neq in Hab, Ha, Hb1. rewrite Hab.
  cbn [reflect.IsNil bind].
  rewrite Ha, Hb1. cbn [Bool.eqb negb reflect.Elem bind].
  rewrite Ha, Hb1, Da, Db1. unfold node.
  rewrite walk_no_hooks
    with (d1 := register (fresh c) {| vp := a; vt := nodePtr |}
                  {| vp := b1; vt := nodePtr |}).
  2:{ apply checkCycles_scalar; fold nodeT;
        rewrite KindOf_nodeT by assumption; discriminate. }
  2:{ simpl. rewrite Hx. reflexivity. }
  2:{ simpl. rewrite Hf. reflexivity. }
  unfold walkKind. fold nodeT. rewrite KindOf_nodeT by assumption.
  unfold reflect.NumField, reflect.FieldName. simpl reflect.lit. rewrite HW.
  cbn [bind List.length forIndex seq forRange nth_error].
  simpl.
  rewrite walk_int by (simpl; assumption). simpl.
  rewrite walk_same_type. cbv zeta.
  rewrite checkCycles_identity
    with (a := {| vp := a; vt := nodePtr |})
         (b := {| vp := b2; vt := nodePtr |})
    by (apply identity_nodeAt; assumption).
  simpl. rewrite !visit_eqb_refl.
  assert (E : visit_eqb {| vp := b1; vt := nodePtr |}
                {| vp := b2; vt := nodePtr |} = false).
  { apply visit_eqb_neq. congruence. }
  rewrite E. rewrite Hl. simpl. eexists _, _. split; reflexivity.
Qed.

Transparent walk.

Lemma exampleWorld_declaresNode : declaresNode exampleWorld.
Proof. reflexivity. Qed.

(** C1. During one top-level comparison the identity tracker pairs A-side
    and B-side identities one-to-one: [aSeen] and [bSeen] stay inverse to
    each other, so no two A-side identities share a B-side identity and no
    two B-side identities share an A-side one, and a walk never drops or
    changes a pairing.  Revisiting an identity whose recorded pairing, on
    either side, is not the pairing with the current counterpart emits
    exactly one "uneven cycle" difference and returns at once, the tracker
    unchanged; revisiting a pair recorded as such returns at once without a
    difference.  Two nodes that each point back to themselves compare
    without any difference, whatever the fuel beyond three activations; a
    self-pointing node against a cycle of two nodes yields exactly one
    "uneven cycle" difference, at [.next]. *)
Theorem C1_identity_tracker (W : reflect.world) (L : lib) :
  (forall fuel c a b d e,
     each W L fuel c a b = Ok (d, e) ->
     paired d /\
     (forall a1 a2 b', lookupVisit a1 (aSeen d) = Some b' ->
        lookupVisit a2 (aSeen d) = Some b' -> a1 = a2) /\
     (forall b1 b2 a', lookupVisit b1 (bSeen d) = Some a' ->
        lookupVisit b2 (bSeen d) = Some a' -> b1 = b2)) /\
  (forall fuel d e av bv xformOk wantType d' e',
     paired d -> walk W L fuel d e av bv xformOk wantType = Ok (d', e') ->
     paired d' /\ keeps d d') /\
  (forall fuel d e t da db a b xformOk wantType,
     let av := reflect.Val t da in
     let bv := reflect.Val t db in
     identity W av = Some a -> identity W bv = Some b ->
     paired d -> mismatch d a b ->
     walk W L (S fuel) d e av bv xformOk wantType
     = (e' <- emitf e av bv "uneven cycle" [] ;; Ok (d, e'))) /\
  (forall fuel d e t da db a b xformOk wantType,
     let av := reflect.Val t da in
     let bv := reflect.Val t db in
     identity W av = Some a -> identity W bv = Some b ->
     lookupVisit a (aSeen d) = Some b ->
     walk W L (S fuel) d e av bv xformOk wantType = Ok (d, e)) /\
  (forall c a b v fuel,
     declaresNode W -> linked W a v a -> linked W b v b ->
     xform c = [] -> format c = [] ->
     each W L (3 + fuel) c (nodeAt a) (nodeAt b)
     = Ok (register (fresh c) {| vp := a; vt := nodePtr |}
             {| vp := b; vt := nodePtr |},
           rootEmitter c)) /\
  (forall c a b1 b2 v fuel,
     declaresNode W -> linked W a v a ->
     linked W b1 v b2 -> linked W b2 v b1 -> b1 <> b2 ->
     level c = level.auto -> xform c = [] -> format c = [] ->
     exists d e,
       each W L (3 + fuel) c (nodeAt a) (nodeAt b1) = Ok (d, e) /\
       received e
       = [(("%s" ++ "uneven cycle" ++ LF)%string, [AString ".next: "])]).
Proof.
  repeat apply conj.
  - intros fuel c a b d e H. unfold each in H.
    apply walk_tracker in H. destruct H as (_ & _ & P).
    assert (Pd : paired d).
    { apply P. intros x y. simpl. split; discriminate. }
    split; [exact Pd|]. split.
    + intros. eapply paired_injective; eauto.
    + intros. eapply paired_injective_b; eauto.
  - intros fuel d e av bv xformOk wantType d' e' P H.
    apply walk_tracker in H. destruct H as (_ & K & P'). auto.
  - intros fuel d e t da db a b xformOk wantType av bv Ha Hb P M.
    subst av bv. rewrite walk_same_type. cbv zeta.
    rewrite checkCycles_identity with (a := a) (b := b) by assumption.
    destruct M as [(seen & Hs & Hne)|(seen & Hs & Hne)].
    + rewrite Hs. apply visit_eqb_neq in Hne. rewrite Hne. simpl.
      destruct (emitf e _ _ _ _); reflexivity.
    + destruct (lookupVisit a (aSeen d)) as [s|] eqn:Ea.
      * destruct (visit_eqb s b) eqn:E.
        { apply visit_eqb_eq in E. subst s. apply P in Ea. congruence. }
        simpl. destruct (emitf e _ _ _ _); reflexivity.
      * rewrite Hs. simpl. destruct (emitf e _ _ _ _); reflexivity.
  - intros fuel d e t da db a b xformOk wantType av bv Ha Hb Hs.
    subst av bv. rewrite walk_same_type. cbv zeta.
    rewrite checkCycles_identity with (a := a) (b := b) by assumption.
    rewrite Hs, visit_eqb_refl.
    reflexivity.
  - intros. eapply self_loops_equal; eassumption.
  - intros. eapply uneven_cycle_once; eassumption.
Qed.

Lemma C1_witness :
  exists d e,
    each exampleWorld exampleLib 3 exampleConfig (nodeAt 1) (nodeAt 3)
    = Ok (d, e) /\
    received e
    = [(("%s" ++ "uneven cycle" ++ LF)%string, [AString ".next: "])].
Proof.
  refine (proj2 (proj2 (proj2 (proj2 (proj2
            (C1_identity_tracker exampleWorld exampleLib)))))
          exampleConfig 1 3 4 7 0%nat _ _ _ _ _ _ _ _);
    try reflexivity;
    try (split; [discriminate | reflexivity]);
    discriminate.
Defined.

(** ** The switch, kind by kind *)

Lemma walk_reaches W L fuel d e t da db xformOk wantType d1 xf :
  let av := reflect.Val t da in
  let bv := reflect.Val t db in
  reachesSwitch W L fuel d e av bv t xformOk d1 xf ->
  walk W L (S fuel) d e av bv xformOk wantType =
  (c <- walkKind W L (walk W L fuel) fuel d1 e av bv t wantType ;;
   match c with
   | Return d e => Ok (d, e)
   | Next s => finish W L fuel av bv xf s
   end).
Proof.
  intros av bv (Hc & Hx & Hf). subst av bv.
  rewrite walk_same_type. cbv zeta.
  rewrite Hc. cbn [bind]. rewrite Hx. cbn [bind].
  destruct xf as [[haveXform ax] bx]. rewrite Hf. reflexivity.
Qed.

Lemma reachesSwitch_plain W L fuel d e av bv t xformOk d1 :
  checkCycles W d e av bv t = Ok (Next d1) ->
  lookupType t (xform (cfg d1)) = None ->
  lookupType t (format (cfg d1)) = None ->
  reachesSwitch W L fuel d e av bv t xformOk d1
    (false, reflect.Zero, reflect.Zero).
Proof.
  intros Hc Hx Hf. repeat split; auto.
  - apply checkXform_none; assumption.
  - apply checkFormat_none; assumption.
Qed.

Lemma walkKind_slice W L fuel d e t pa pb la lb wantType :
  let av := reflect.Val t (reflect.DSlice pa la) in
  let bv := reflect.Val t (reflect.DSlice pb lb) in
  reflect.KindOf W t = reflect.Slice -> pa <> 0 -> pb <> 0 ->
  walkKind W L (walk W L fuel) fuel d e av bv t wantType
  = (if negb (la =? lb)%nat then
       e' <- emitf e av bv "{len %d} != {len %d}"
               [AInt (Z.of_nat la); AInt (Z.of_nat lb)] ;;
       Ok (Return d e')
     else if pa =? pb then Ok (Next (d, e))
     else s <- elementwise W L fuel av bv la (d, e) ;; Ok (Next s)).
Proof.
  intros av bv K Ha Hb. subst av bv. unfold walkKind. rewrite K.
  cbn [reflect.IsNil reflect.Len reflect.PointerOf bind].
  apply Z.eqb_neq in Ha, Hb. rewrite Ha, Hb. cbn [Bool.eqb negb].
  destruct (la =? lb)%nat eqn:El; cbn [andb negb]; [|reflexivity].
  destruct (pa =? pb); reflexivity.
Qed.

Lemma identity_slice W t p len :
  reflect.KindOf W t = reflect.Slice -> p <> 0 ->
  identity W (reflect.Val t (reflect.DSlice p len)) = Some {| vp := p; vt := t |}.
Proof.
  intros K Hp. unfold identity. rewrite K.
  apply Z.eqb_neq in Hp. rewrite Hp. reflexivity.
Qed.

Lemma identity_map W t p :
  reflect.KindOf W t = reflect.Map -> p <> 0 ->
  identity W (reflect.Val t (reflect.DPointer p)) = Some {| vp := p; vt := t |}.
Proof.
  intros K Hp. unfold identity. rewrite K.
  apply Z.eqb_neq in Hp. rewrite Hp. reflexivity.
Qed.

(** Two references the run has not paired, of a type without hooks: the
    cycle check pairs them and the activation is the switch. *)
Lemma walk_unseen W L fuel d e t da db a b xformOk wantType :
  let av := reflect.Val t da in
  let bv := reflect.Val t db in
  identity W av = Some a -> identity W bv = Some b ->
  unseen d a b -> noHook (cfg d) t ->
  walk W L (S fuel) d e av bv xformOk wantType =
  (c <- walkKind W L (walk W L fuel) fuel (register d a b) e av bv t wantType ;;
   match c with
   | Return d e => Ok (d, e)
   | Next s => Ok s
   end).
Proof.
  intros av bv Ha Hb [Ua Ub] [Hx Hf]. subst av bv.
  apply walk_no_hooks; try assumption.
  rewrite checkCycles_identity with (a := a) (b := b) by assumption.
  rewrite Ua, Ub. reflexivity.
Qed.

(** Two references the run has paired with each other are not compared
    again. *)
Lemma walk_seen W L fuel d e t da db a b xformOk wantType :
  let av := reflect.Val t da in
  let bv := reflect.Val t db in
  identity W av = Some a -> identity W bv = Some b ->
  lookupVisit a (aSeen d) = Some b ->
  walk W L (S fuel) d e av bv xformOk wantType = Ok (d, e).
Proof.
  intros av bv Ha Hb Hs. subst av bv. rewrite walk_same_type. cbv zeta.
  rewrite checkCycles_identity with (a := a) (b := b) by assumption.
  rewrite Hs, visit_eqb_refl. reflexivity.
Qed.

(** Two slices the run has not paired, of a type without hooks. *)
Lemma walk_slice_unseen W L fuel d e t pa pb la lb xformOk wantType :
  let av := reflect.Val t (reflect.DSlice pa la) in
  let bv := reflect.Val t (reflect.DSlice pb lb) in
  let a := {| vp := pa; vt := t |} in
  let b := {| vp := pb; vt := t |} in
  reflect.KindOf W t = reflect.Slice -> pa <> 0 -> pb <> 0 ->
  unseen d a b -> noHook (cfg d) t ->
  walk W L (S fuel) d e av bv xformOk wantType
  = (if negb (la =? lb)%nat then
       e' <- emitf e av bv "{len %d} != {len %d}"
               [AInt (Z.of_nat la); AInt (Z.of_nat lb)] ;;
       Ok (register d a b, e')
     else if pa =? pb then Ok (register d a b, e)
     else elementwise W L fuel av bv la (register d a b, e)).
Proof.
  intros av bv a b K Ha Hb U N.
  assert (Ew : walk W L (S fuel) d e av bv xformOk wantType =
    (c <- walkKind W L (walk W L fuel) fuel (register d a b) e av bv t
            wantType ;;
     match c with
     | Return d e => Ok (d, e)
     | Next s => Ok s
     end)).
  { subst av bv. apply walk_unseen; try assumption;
      apply identity_slice; assumption. }
  rewrite Ew.
  pose proof (@walkKind_slice W L fuel (register d a b) e t pa pb la lb
                wantType K Ha Hb) as E.
  cbv zeta in E. fold av bv in E. rewrite E.
  destruct (negb (la =? lb)%nat).
  - rewrite bind_assoc. apply bind_ext. reflexivity.
  - destruct (pa =? pb); [reflexivity|].
    destruct (elementwise W L fuel av bv la (register d a b, e)); reflexivity.
Qed.

Opaque walk.

(** [[]int{x}] against [[]int{y}] in other storage, [x] and [y] different. *)
Lemma slice_element_differs W L c pa pb x y fuel :
  pa <> 0 -> pb <> 0 -> pa <> pb -> x <> y ->
  reflect.sliceData W intsT pa 0 = intV x ->
  reflect.sliceData W intsT pb 0 = intV y ->
  level c = level.auto -> xform c = [] -> format c = [] ->
  exists d e,
    each W L (2 + fuel) c (intsAt pa 1) (intsAt pb 1) = Ok (d, e) /\
    received e
    = [(("%s" ++ "%v != %v" ++ LF)%string,
        [AString "[0]: ";
         AFormatter (formatShort (intV x) false);
         AFormatter (formatShort (intV y) false)])].
Proof.
  intros Ha Hb Hab Hxy Da Db Hl Hx Hf.
  change (each W L (2 + fuel) c (intsAt pa 1) (intsAt pb 1))
    with (walk W L (S (S fuel)) (fresh c) (rootEmitter c)
            (reflect.Val intsT (reflect.DSlice pa 1))
            (reflect.Val intsT (reflect.DSlice pb 1)) true true).
  rewrite walk_slice_unseen; try assumption; try reflexivity.
  2:{ split; reflexivity. }
  2:{ split; simpl; [rewrite Hx|rewrite Hf]; reflexivity. }
  apply Z.eqb_neq in Hab. rewrite Hab.
  unfold elementwise, forIndex. simpl.
  rewrite Da, Db. unfold intV.
  rewrite walk_int_neq by (simpl; assumption). simpl. rewrite Hl.
  eexists _, _. split; reflexivity.
Qed.

Transparent walk.

(** C2 (amended).  Two non-nil slices of the same type.  When the run has
    not paired either of them before and no transform or format function is
    registered for their type, the activation pairs them and then: if the
    lengths differ, it emits exactly one difference, ["{len M} != {len N}"],
    and returns without comparing any element; if the lengths are equal and
    the slices do not start at the same address, it compares element-wise:
    for every index in turn, the walk of the two elements under the sub-path
    ["[i]"]; if the lengths are equal and the slices start at the same
    address, it compares no element and emits nothing.  When the run has
    already paired the two with each other, the activation returns at once:
    nothing is emitted, whatever the lengths.  The slice case of the switch
    itself is these three cases, for every tracker.  Comparing [[]int{x}]
    with [[]int{y}] in other storage, for different [x] and [y], delivers
    exactly the difference of the two elements, under ["[0]"]. *)
Theorem C2_slice_lengths (W : reflect.world) (L : lib) fuel d e t pa pb la lb
  xformOk wantType :
  let av := reflect.Val t (reflect.DSlice pa la) in
  let bv := reflect.Val t (reflect.DSlice pb lb) in
  let a := {| vp := pa; vt := t |} in
  let b := {| vp := pb; vt := t |} in
  reflect.KindOf W t = reflect.Slice -> pa <> 0 -> pb <> 0 ->
  (unseen d a b -> noHook (cfg d) t ->
   (la <> lb ->
    walk W L (S fuel) d e av bv xformOk wantType
    = (e' <- emitf e av bv "{len %d} != {len %d}"
               [AInt (Z.of_nat la); AInt (Z.of_nat lb)] ;;
       Ok (register d a b, e'))) /\
   (la = lb -> pa <> pb ->
    walk W L (S fuel) d e av bv xformOk wantType
    = elementwise W L fuel av bv la (register d a b, e)) /\
   (la = lb -> pa = pb ->
    walk W L (S fuel) d e av bv xformOk wantType
    = Ok (register d a b, e))) /\
  (lookupVisit a (aSeen d) = Some b ->
   walk W L (S fuel) d e av bv xformOk wantType = Ok (d, e)) /\
  ((la <> lb ->
    walkKind W L (walk W L fuel) fuel d e av bv t wantType
    = (e' <- emitf e av bv "{len %d} != {len %d}"
               [AInt (Z.of_nat la); AInt (Z.of_nat lb)] ;;
       Ok (Return d e'))) /\
   (la = lb -> pa <> pb ->
    walkKind W L (walk W L fuel) fuel d e av bv t wantType
    = (s <- elementwise W L fuel av bv la (d, e) ;; Ok (Next s))) /\
   (la = lb -> pa = pb ->
    walkKind W L (walk W L fuel) fuel d e av bv t wantType
    = Ok (Next (d, e)))) /\
  (forall c qa qb x y k,
     qa <> 0 -> qb <> 0 -> qa <> qb -> x <> y ->
     reflect.sliceData W intsT qa 0 = intV x ->
     reflect.sliceData W intsT qb 0 = intV y ->
     level c = level.auto -> xform c = [] -> format c = [] ->
     exists d' e',
       each W L (2 + k) c (intsAt qa 1) (intsAt qb 1) = Ok (d', e') /\
       received e'
       = [(("%s" ++ "%v != %v" ++ LF)%string,
           [AString "[0]: ";
            AFormatter (formatShort (intV x) false);
            AFormatter (formatShort (intV y) false)])]).
Proof.
  intros av bv a b K Ha Hb.
  assert (B : forall d,
    (la <> lb ->
     walkKind W L (walk W L fuel) fuel d e av bv t wantType
     = (e' <- emitf e av bv "{len %d} != {len %d}"
                [AInt (Z.of_nat la); AInt (Z.of_nat lb)] ;;
        Ok (Return d e'))) /\
    (la = lb -> pa <> pb ->
     walkKind W L (walk W L fuel) fuel d e av bv t wantType
     = (s <- elementwise W L fuel av bv la (d, e) ;; Ok (Next s))) /\
    (la = lb -> pa = pb ->
     walkKind W L (walk W L fuel) fuel d e av bv t wantType
     = Ok (Next (d, e)))).
  { intro d0.
    pose proof (@walkKind_slice W L fuel d0 e t pa pb la lb wantType K Ha Hb)
      as E.
    cbv zeta in E. fold av bv in E. rewrite E. repeat split.
    - intro Hl. apply Nat.eqb_neq in Hl. rewrite Hl. reflexivity.
    - intros El Hp. apply Nat.eqb_eq in El. apply Z.eqb_neq in Hp.
      rewrite El, Hp. reflexivity.
    - intros El Hp. apply Nat.eqb_eq in El. apply Z.eqb_eq in Hp.
      rewrite El, Hp. reflexivity. }
  assert (Ia : identity W av = Some a) by (apply identity_slice; assumption).
  assert (Ib : identity W bv = Some b) by (apply identity_slice; assumption).
  split; [|split; [|split; [apply B|]]].
  - intros U N.
    pose proof (@walk_slice_unseen W L fuel d e t pa pb la lb xformOk wantType
                  K Ha Hb U N) as Ew.
    cbv zeta in Ew. fold av bv a b in Ew. rewrite Ew. repeat split.
    + intro Hl. apply Nat.eqb_neq in Hl. rewrite Hl. reflexivity.
    + intros El Hp. apply Nat.eqb_eq in El. apply Z.eqb_neq in Hp.
      rewrite El, Hp. reflexivity.
    + intros El Hp. apply Nat.eqb_eq in El. apply Z.eqb_eq in Hp.
      rewrite El, Hp. reflexivity.
  - intro Hs. subst av bv. eapply walk_seen; eassumption.
  - intros. apply slice_element_differs; assumption.
Qed.

Lemma C2_witness :
  each exampleWorld exampleLib 1 exampleConfig (intsAt 30 1) (intsAt 40 2)
  = (e' <- emitf (rootEmitter exampleConfig) (intsAt 30 1) (intsAt 40 2)
             "{len %d} != {len %d}" [AInt 1; AInt 2] ;;
     Ok (register (fresh exampleConfig) {| vp := 30; vt := intsT |}
           {| vp := 40; vt := intsT |}, e')).
Proof.
  refine (proj1 (proj1 (@C2_slice_lengths exampleWorld exampleLib 0%nat
                   (fresh exampleConfig) (rootEmitter exampleConfig)
                   intsT 30 40 1%nat 2%nat true true _ _ _) _ _) _).
  - reflexivity.
  - discriminate.
  - discriminate.
  - split; reflexivity.
  - split; reflexivity.
  - discriminate.
Defined.

(** C2 as stated fails, twice.  A pair of slices of differing lengths that
    the run has met before is not looked at again: of two structs that hold
    the same slice in both fields, a one-element slice in the one and a
    two-element slice in the other, the comparison reports the length
    difference for the first field only.  And compared with itself, a
    one-element slice holding NaN yields no difference, whereas the
    element-wise comparison of the same operands yields one (NaN differs
    from itself). *)
Lemma C2_counterexample :
  (exists d e,
     each exampleWorld exampleLib 3 exampleConfig
       (two intsT (intsAt 30 1) (intsAt 30 1))
       (two intsT (intsAt 40 2) (intsAt 40 2)) = Ok (d, e) /\
     received e
     = [(("%s" ++ "{len %d} != {len %d}" ++ LF)%string,
         [AString ".X: "; AInt 1; AInt 2])]) /\
  ~ (forall (W : reflect.world) (L : lib) fuel d e t pa pb la lb
       xformOk wantType,
       let av := reflect.Val t (reflect.DSlice pa la) in
       let bv := reflect.Val t (reflect.DSlice pb lb) in
       paired d -> noHook (cfg d) t ->
       reflect.KindOf W t = reflect.Slice -> pa <> 0 -> pb <> 0 -> la <> lb ->
       exists d',
         walk W L (S fuel) d e av bv xformOk wantType
         = (e' <- emitf e av bv "{len %d} != {len %d}"
                    [AInt (Z.of_nat la); AInt (Z.of_nat lb)] ;;
            Ok (d', e'))) /\
  ~ (forall (W : reflect.world) (L : lib) fuel c t pa pb len,
       let av := reflect.Val t (reflect.DSlice pa len) in
       let bv := reflect.Val t (reflect.DSlice pb len) in
       noHook c t ->
       reflect.KindOf W t = reflect.Slice -> pa <> 0 -> pb <> 0 ->
       each W L (S fuel) c av bv
       = elementwise W L fuel av bv len
           (register (fresh c) {| vp := pa; vt := t |} {| vp := pb; vt := t |},
            rootEmitter c)).
Proof.
  split; [|split].
  - eexists _, _. split; vm_compute; reflexivity.
  - intro H.
    destruct (H exampleWorld exampleLib 1%nat
                (register (fresh exampleConfig) {| vp := 30; vt := intsT |}
                   {| vp := 40; vt := intsT |})
                (rootEmitter exampleConfig) intsT 30 40 1%nat 2%nat true false)
      as (d' & E).
    + apply paired_register; try reflexivity. intros x y. simpl.
      split; discriminate.
    + split; reflexivity.
    + reflexivity.
    + discriminate.
    + discriminate.
    + discriminate.
    + vm_compute in E. discriminate E.
  - intro H.
    specialize (H exampleWorld exampleLib 2%nat exampleConfig floatsT 20 20
                  1%nat).
    cbv zeta in H.
    specialize (H (conj eq_refl eq_refl) eq_refl ltac:(discriminate)
                  ltac:(discriminate)).
    vm_compute in H. discriminate H.
Qed.

(** ** Maps *)

Lemma forRange_ext {A S : Type} (xs : list A) (f g : A -> S -> result S) (s : S) :
  (forall x s, f x s = g x s) -> forRange xs f s = forRange xs g s.
Proof.
  intro E. revert s. induction xs as [|x xs IH]; simpl; intro s; [reflexivity|].
  rewrite E. apply bind_ext. exact IH.
Qed.

Lemma keyDiff_spec W t pa pb :
  pa <> 0 -> pb <> 0 ->
  keyDiff W (reflect.Val t (reflect.DPointer pa))
    (reflect.Val t (reflect.DPointer pb))
  = Ok (filter (fun k => negb (hasKey W t pb k)) (keysAt W t pa),
        filter (hasKey W t pb) (keysAt W t pa),
        filter (fun k => negb (hasKey W t pa k)) (keysAt W t pb)).
Proof.
  intros Ha Hb. apply Z.eqb_neq in Ha, Hb.
  unfold keyDiff, reflect.MapRange, reflect.MapIndex, reflect.entries.
  rewrite Ha, Hb. cbn [bind]. fold (keysAt W t pa). fold (keysAt W t pb).
  assert (A : forall ks ak both,
    forRange ks (fun k '(ak, both) =>
      x <- Ok (reflect.lookup k (reflect.mapData W t pb)) ;;
      if negb (reflect.IsValid x) then Ok (ak ++ [k], both)
      else Ok (ak, both ++ [k])) (ak, both)
    = Ok (ak ++ filter (fun k => negb (hasKey W t pb k)) ks,
          both ++ filter (hasKey W t pb) ks)).
  { induction ks as [|k ks IH]; intros ak both; simpl.
    - rewrite !app_nil_r. reflexivity.
    - change (reflect.IsValid (reflect.lookup k (reflect.mapData W t pb)))
        with (hasKey W t pb k).
      destruct (hasKey W t pb k); simpl; rewrite IH, <- app_assoc; reflexivity. }
  assert (B : forall ks bk,
    forRange ks (fun k bk =>
      x <- Ok (reflect.lookup k (reflect.mapData W t pa)) ;;
      if negb (reflect.IsValid x) then Ok (bk ++ [k]) else Ok bk) bk
    = Ok (bk ++ filter (fun k => negb (hasKey W t pa k)) ks)).
  { induction ks as [|k ks IH]; intros bk; simpl.
    - rewrite app_nil_r. reflexivity.
    - change (reflect.IsValid (reflect.lookup k (reflect.mapData W t pa)))
        with (hasKey W t pa k).
      destruct (hasKey W t pa k); simpl; rewrite IH, <- ?app_assoc; reflexivity. }
  rewrite A. cbn [bind]. rewrite B. reflexivity.
Qed.

Lemma filter_partition {A : Type} (f : A -> bool) (l : list A) :
  Permutation (filter (fun x => negb (f x)) l ++ filter f l) l.
Proof.
  induction l as [|x l IH]; simpl; [constructor|].
  destruct (f x); simpl.
  - apply Permutation_sym, Permutation_cons_app, Permutation_sym. exact IH.
  - constructor. exact IH.
Qed.

Lemma walkKind_map W L fuel d e t pa pb wantType :
  let av := reflect.Val t (reflect.DPointer pa) in
  let bv := reflect.Val t (reflect.DPointer pb) in
  reflect.KindOf W t = reflect.Map -> pa <> 0 -> pb <> 0 -> pa <> pb ->
  walkKind W L (walk W L fuel) fuel d e av bv t wantType
  = (e1 <- forRange (filter (fun k => negb (hasKey W t pb k)) (keysAt W t pa))
             (removedKey W L fuel av bv) e ;;
     s2 <- forRange (filter (hasKey W t pb) (keysAt W t pa))
             (sharedKey W L fuel av bv) (d, e1) ;;
     e3 <- forRange (filter (fun k => negb (hasKey W t pa k)) (keysAt W t pb))
             (addedKey W L fuel av bv) (snd s2) ;;
     Ok (Next (fst s2, e3))).
Proof.
  intros av bv K Ha Hb Hab.
  unfold walkKind. rewrite K.
  pose proof (keyDiff_spec W t Ha Hb) as KD. fold av bv in KD.
  subst av bv. cbn [reflect.IsNil reflect.PointerOf bind].
  apply Z.eqb_neq in Ha, Hb, Hab. rewrite Ha, Hb, Hab. cbn [Bool.eqb negb].
  rewrite KD. cbn [bind].
  apply bind_ext. intro e1.
  apply bind_ext. intros [d2 e2]. cbn [fst snd].
  reflexivity.
Qed.

Lemma walk_map W L fuel d e t pa pb xformOk wantType d1 xf :
  let av := reflect.Val t (reflect.DPointer pa) in
  let bv := reflect.Val t (reflect.DPointer pb) in
  reflect.KindOf W t = reflect.Map -> pa <> 0 -> pb <> 0 -> pa <> pb ->
  reachesSwitch W L fuel d e av bv t xformOk d1 xf ->
  walk W L (S fuel) d e av bv xformOk wantType
  = (e1 <- forRange (filter (fun k => negb (hasKey W t pb k)) (keysAt W t pa))
             (removedKey W L fuel av bv) e ;;
     s2 <- forRange (filter (hasKey W t pb) (keysAt W t pa))
             (sharedKey W L fuel av bv) (d1, e1) ;;
     e3 <- forRange (filter (fun k => negb (hasKey W t pa k)) (keysAt W t pb))
             (addedKey W L fuel av bv) (snd s2) ;;
     finish W L fuel av bv xf (fst s2, e3)).
Proof.
  intros av bv K Ha Hb Hab R.
  assert (E : walk W L (S fuel) d e av bv xformOk wantType =
    (c <- walkKind W L (walk W L fuel) fuel d1 e av bv t wantType ;;
     match c with
     | Return d e => Ok (d, e)
     | Next s => finish W L fuel av bv xf s
     end)).
  { subst av bv. apply walk_reaches. exact R. }
  rewrite E.
  pose proof (@walkKind_map W L fuel d1 e t pa pb wantType K Ha Hb Hab) as M.
  cbv zeta in M. fold av bv in M. rewrite M.
  rewrite !bind_assoc. apply bind_ext. intro e1.
  rewrite !bind_assoc. apply bind_ext. intro s2.
  rewrite !bind_assoc. apply bind_ext. intro e3. reflexivity.
Qed.

(** Two maps the run has not paired, of a type without hooks. *)
Lemma walk_map_unseen W L fuel d e t pa pb xformOk wantType :
  let av := reflect.Val t (reflect.DPointer pa) in
  let bv := reflect.Val t (reflect.DPointer pb) in
  let a := {| vp := pa; vt := t |} in
  let b := {| vp := pb; vt := t |} in
  reflect.KindOf W t = reflect.Map -> pa <> 0 -> pb <> 0 -> pa <> pb ->
  unseen d a b -> noHook (cfg d) t ->
  walk W L (S fuel) d e av bv xformOk wantType
  = (e1 <- forRange (filter (fun k => negb (hasKey W t pb k)) (keysAt W t pa))
             (removedKey W L fuel av bv) e ;;
     s2 <- forRange (filter (hasKey W t pb) (keysAt W t pa))
             (sharedKey W L fuel av bv) (register d a b, e1) ;;
     e3 <- forRange (filter (fun k => negb (hasKey W t pa k)) (keysAt W t pb))
             (addedKey W L fuel av bv) (snd s2) ;;
     Ok (fst s2, e3)).
Proof.
  intros av bv a b K Ha Hb Hab U N.
  assert (E : walk W L (S fuel) d e av bv xformOk wantType =
    (c <- walkKind W L (walk W L fuel) fuel (register d a b) e av bv t
            wantType ;;
     match c with
     | Return d e => Ok (d, e)
     | Next s => Ok s
     end)).
  { subst av bv. apply walk_unseen; try assumption;
      apply identity_map; assumption. }
  rewrite E.
  pose proof (@walkKind_map W L fuel (register d a b) e t pa pb wantType
                K Ha Hb Hab) as M.
  cbv zeta in M. fold av bv in M. rewrite M.
  rewrite !bind_assoc. apply bind_ext. intro e1.
  rewrite !bind_assoc. apply bind_ext. intro s2.
  rewrite !bind_assoc. apply bind_ext. intro e3. reflexivity.
Qed.

Opaque walk.

(** [{"a": 1}] against [{"a": 1, "b": 2}], whatever the iteration order. *)
Lemma map_added_key W L c pa pb fuel :
  pa <> 0 -> pb <> 0 -> pa <> pb ->
  reflect.mapData W mapT pa = [(stringV "a", intV 1)] ->
  Permutation [(stringV "a", intV 1); (stringV "b", intV 2)]
    (reflect.mapData W mapT pb) ->
  level c = level.auto -> xform c = [] -> format c = [] ->
  exists d e,
    each W L (2 + fuel) c (mapAt pa) (mapAt pb) = Ok (d, e) /\
    received e
    = [(("%s" ++ "(added) %v" ++ LF)%string,
        [AString (prefix [("[" ++ fmtValue L true "v" (stringV "b") ++ "]")%string]);
         AFormatter (formatShort (intV 2) false)])].
Proof.
  intros Ha Hb Hab Da Db Hl Hx Hf. unfold each, mapAt.
  change (2 + fuel)%nat with (S (S fuel)).
  rewrite walk_map
    with (d1 := register (fresh c) {| vp := pa; vt := mapT |}
                  {| vp := pb; vt := mapT |})
         (xf := (false, reflect.Zero, reflect.Zero));
    try assumption; try reflexivity.
  2:{ apply reachesSwitch_plain.
      - unfold checkCycles. cbn [reflect.KindOf reflect.lit mapT reflect.IsNil
          reflect.PointerOf bind].
        apply Z.eqb_neq in Ha, Hb. rewrite Ha, Hb. reflexivity.
      - simpl. rewrite Hx. reflexivity.
      - simpl. rewrite Hf. reflexivity. }
  unfold keysAt, hasKey, removedKey, addedKey, sharedKey, walkSub, finish,
    reflect.MapIndex, reflect.entries.
  apply Z.eqb_neq in Ha, Hb. rewrite Ha, Hb, Da.
  apply Permutation_length_2_inv in Db. destruct Db as [Db|Db]; rewrite Db;
    simpl; unfold intV; rewrite walk_int by (simpl; assumption); simpl;
    rewrite Hl; eexists _, _; split; reflexivity.
Qed.

(** [{"a": x}] against [{"a": y}], [x] and [y] different integers. *)
Lemma map_shared_key W L c pa pb x y fuel :
  pa <> 0 -> pb <> 0 -> pa <> pb -> x <> y ->
  reflect.mapData W mapT pa = [(stringV "a", intV x)] ->
  reflect.mapData W mapT pb = [(stringV "a", intV y)] ->
  level c = level.auto -> xform c = [] -> format c = [] ->
  exists d e,
    each W L (2 + fuel) c (mapAt pa) (mapAt pb) = Ok (d, e) /\
    received e
    = [(("%s" ++ "%v != %v" ++ LF)%string,
        [AString (prefix [("[" ++ fmtValue L true "v" (stringV "a") ++ "]")%string]);
         AFormatter (formatShort (intV x) false);
         AFormatter (formatShort (intV y) false)])].
Proof.
  intros Ha Hb Hab Hxy Da Db Hl Hx Hf. unfold each, mapAt.
  change (2 + fuel)%nat with (S (S fuel)).
  rewrite walk_map_unseen; try assumption; try reflexivity.
  2:{ split; reflexivity. }
  2:{ split; simpl; [rewrite Hx|rewrite Hf]; reflexivity. }
  unfold keysAt, hasKey, removedKey, addedKey, sharedKey,
    reflect.MapIndex, reflect.entries.
  apply Z.eqb_neq in Ha, Hb. rewrite Ha, Hb, Da, Db.
  simpl. unfold intV. rewrite walk_int_neq by (simpl; assumption). simpl.
  rewrite Hl. eexists _, _. split; reflexivity.
Qed.

Transparent walk.

(** C3 (amended).  Two non-nil maps of the same type with distinct storage.
    The keys of A split into those [MapIndex] does not find in B and those
    it finds, and the keys of B contribute those it does not find in A.
    When the run has not paired either map before and no transform or
    format function is registered for their type, the activation pairs them
    and then emits "(removed)" once for every key only in A, under the
    sub-path of that key; then, for every shared key in turn, makes a child
    sink for the sub-path of that key, walks the two values with it
    (transforming permitted, no type wanted) and carries on with the
    tracker and the parent sink that walk leaves; then emits "(added)" with
    the short rendering of the added value once for every key only in B.
    When the run has already paired the two maps with each other, the
    activation returns at once and nothing is emitted.  The map case of the
    switch itself is the three loops, for every tracker.  Comparing
    [{"a": 1}] with [{"a": 1, "b": 2}] delivers exactly one difference: key
    "b", "(added)"; comparing [{"a": x}] with [{"a": y}] for different [x]
    and [y] delivers exactly the difference of the two values, under
    ["a"]. *)
Theorem C3_map_partition (W : reflect.world) (L : lib) :
  (forall fuel d e t pa pb xformOk wantType,
     let av := reflect.Val t (reflect.DPointer pa) in
     let bv := reflect.Val t (reflect.DPointer pb) in
     let a := {| vp := pa; vt := t |} in
     let b := {| vp := pb; vt := t |} in
     let onlyA := filter (fun k => negb (hasKey W t pb k)) (keysAt W t pa) in
     let both := filter (hasKey W t pb) (keysAt W t pa) in
     let onlyB := filter (fun k => negb (hasKey W t pa k)) (keysAt W t pb) in
     reflect.KindOf W t = reflect.Map -> pa <> 0 -> pb <> 0 -> pa <> pb ->
     Permutation (onlyA ++ both) (keysAt W t pa) /\
     (forall k, In k onlyB <-> In k (keysAt W t pb) /\ hasKey W t pa k = false) /\
     (unseen d a b -> noHook (cfg d) t ->
      walk W L (S fuel) d e av bv xformOk wantType
      = (e1 <- forRange onlyA (removedKey W L fuel av bv) e ;;
         s2 <- forRange both (sharedKey W L fuel av bv) (register d a b, e1) ;;
         e3 <- forRange onlyB (addedKey W L fuel av bv) (snd s2) ;;
         Ok (fst s2, e3))) /\
     (lookupVisit a (aSeen d) = Some b ->
      walk W L (S fuel) d e av bv xformOk wantType = Ok (d, e)) /\
     walkKind W L (walk W L fuel) fuel d e av bv t wantType
     = (e1 <- forRange onlyA (removedKey W L fuel av bv) e ;;
        s2 <- forRange both (sharedKey W L fuel av bv) (d, e1) ;;
        e3 <- forRange onlyB (addedKey W L fuel av bv) (snd s2) ;;
        Ok (Next (fst s2, e3)))) /\
  (forall c pa pb fuel,
     pa <> 0 -> pb <> 0 -> pa <> pb ->
     reflect.mapData W mapT pa = [(stringV "a", intV 1)] ->
     Permutation [(stringV "a", intV 1); (stringV "b", intV 2)]
       (reflect.mapData W mapT pb) ->
     level c = level.auto -> xform c = [] -> format c = [] ->
     exists d e,
       each W L (2 + fuel) c (mapAt pa) (mapAt pb) = Ok (d, e) /\
       received e
       = [(("%s" ++ "(added) %v" ++ LF)%string,
           [AString
              (prefix [("[" ++ fmtValue L true "v" (stringV "b") ++ "]")%string]);
            AFormatter (formatShort (intV 2) false)])]) /\
  (forall c pa pb x y fuel,
     pa <> 0 -> pb <> 0 -> pa <> pb -> x <> y ->
     reflect.mapData W mapT pa = [(stringV "a", intV x)] ->
     reflect.mapData W mapT pb = [(stringV "a", intV y)] ->
     level c = level.auto -> xform c = [] -> format c = [] ->
     exists d e,
       each W L (2 + fuel) c (mapAt pa) (mapAt pb) = Ok (d, e) /\
       received e
       = [(("%s" ++ "%v != %v" ++ LF)%string,
           [AString
              (prefix [("[" ++ fmtValue L true "v" (stringV "a") ++ "]")%string]);
            AFormatter (formatShort (intV x) false);
            AFormatter (formatShort (intV y) false)])]).
Proof.
  split; [|split].
  - intros fuel d e t pa pb xformOk wantType av bv a b onlyA both onlyB
      K Ha Hb Hab.
    split; [apply filter_partition|]. split; [|split; [|split]].
    + intro k. unfold onlyB. rewrite filter_In, negb_true_iff. reflexivity.
    + intros U N. apply walk_map_unseen; assumption.
    + intro Hs. subst av bv.
      eapply walk_seen; try eassumption; apply identity_map; assumption.
    + apply walkKind_map; assumption.
  - intros. apply map_added_key; assumption.
  - intros. apply map_shared_key; assumption.
Qed.

Lemma C3_witness :
  exists d e,
    each exampleWorld exampleLib 2 exampleConfig (mapAt 10) (mapAt 12)
    = Ok (d, e) /\
    received e
    = [(("%s" ++ "(added) %v" ++ LF)%string,
        [AString (prefix [("[" ++ quote ++ "b" ++ quote ++ "]")%string]);
         AFormatter (formatShort (intV 2) false)])].
Proof.
  refine (proj1 (proj2 (C3_map_partition exampleWorld exampleLib))
            exampleConfig 10 12 0%nat _ _ _ _ _ _ _ _);
    try reflexivity; try discriminate.
  simpl. apply perm_swap.
Defined.

(** C3 as stated fails: a pair of maps that the run has met before is not
    looked at again.  Of two structs that hold the same map in both fields,
    [{"a": 1}] in the one and [{"a": 1, "b": 2}] in the other, the
    comparison reports the added key "b" for the first field only. *)
Lemma C3_counterexample :
  (exists d e,
     each exampleWorld exampleLib 4 exampleConfig
       (two mapT (mapAt 10) (mapAt 10))
       (two mapT (mapAt 11) (mapAt 11)) = Ok (d, e) /\
     received e
     = [(("%s" ++ "(added) %v" ++ LF)%string,
         [AString (".X[" ++ quote ++ "b" ++ quote ++ "]: ")%string;
          AFormatter (formatShort (intV 2) false)])]) /\
  ~ (forall (W : reflect.world) (L : lib) fuel d e t pa pb xformOk wantType
       d' e',
       let av := reflect.Val t (reflect.DPointer pa) in
       let bv := reflect.Val t (reflect.DPointer pb) in
       paired d -> noHook (cfg d) t ->
       reflect.KindOf W t = reflect.Map -> pa <> 0 -> pb <> 0 -> pa <> pb ->
       (exists k, In k (keysAt W t pb) /\ hasKey W t pa k = false) ->
       walk W L (S fuel) d e av bv xformOk wantType = Ok (d', e') ->
       e' <> e).
Proof.
  split.
  - eexists _, _. split; vm_compute; reflexivity.
  - intro H.
    apply (H exampleWorld exampleLib 1%nat
             (register (fresh exampleConfig) {| vp := 10; vt := mapT |}
                {| vp := 11; vt := mapT |})
             (rootEmitter exampleConfig) mapT 10 11 true false
             (register (fresh exampleConfig) {| vp := 10; vt := mapT |}
                {| vp := 11; vt := mapT |})
             (rootEmitter exampleConfig)).
    + apply paired_register; try reflexivity. intros x y. simpl.
      split; discriminate.
    + split; reflexivity.
    + reflexivity.
    + discriminate.
    + discriminate.
    + discriminate.
    + exists (stringV "b"). split; [right; left; reflexivity | reflexivity].
    + vm_compute. reflexivity.
    + reflexivity.
Qed.

(** ** Hooks *)

Lemma checkCycles_Next W d e av bv t d1 :
  checkCycles W d e av bv t = Ok (Next d1) ->
  cfg d1 = cfg d /\ keeps d d1.
Proof.
  unfold checkCycles. intro H.
  destruct (reflect.KindOf W t); inv_bind; auto using keeps_refl;
    (destruct (a || a0); inv_bind; auto using keeps_refl;
     destruct (lookupVisit _ (aSeen d)) eqn:Ea;
     [ destruct (negb _); inv_bind
     | destruct (lookupVisit _ (bSeen d)) eqn:Eb; inv_bind;
       split; [reflexivity | apply keeps_register; assumption] ]).
Qed.

(** The nested walk of [equal] starts from the default rules of the
    configuration, an empty tracker and a counting sink at zero. *)
Lemma equal_unfold W L fuel d av bv :
  equal W L fuel d av bv =
  ('(_, e) <- walk W L fuel (fresh (defaultRules (cfg d))) (Count {| n := 0 |})
                av bv true true ;;
   Ok (negb (didEmit e))).
Proof. reflexivity. Qed.

Lemma equal_cfg W L fuel d d' av bv :
  level (cfg d) = level (cfg d') -> equalFuncs (cfg d) = equalFuncs (cfg d') ->
  equal W L fuel d av bv = equal W L fuel d' av bv.
Proof.
  intros Hl He. rewrite !equal_unfold. unfold defaultRules.
  rewrite Hl, He. reflexivity.
Qed.

Lemma checkXform_Some W L fuel d e av bv t xf :
  lookupType t (xform (cfg d)) = Some xf ->
  checkXform (walk W L fuel) d e av bv t true =
  (eq <- equal W L fuel d (xf av) (xf bv) ;;
   if (eq : bool) then Ok (Return d e) else Ok (Next (true, xf av, xf bv))).
Proof.
  unfold checkXform. intros ->. reflexivity.
Qed.

Lemma checkCycles_fresh W c e av bv t x :
  checkCycles W (fresh c) e av bv t = Ok x -> exists d1, x = Next d1.
Proof.
  unfold checkCycles. intro H.
  destruct (reflect.KindOf W t); inv_bind; eauto;
    (destruct (a || a0); simpl in H; inv_bind; eauto).
Qed.

(** C4 (amended).  A transform function is registered for the type of the
    two values, transforming is permitted, and the transformed values are
    equal under the default rules.  Then the transform check ends the
    activation with the tracker and the sink it was given, so the activation
    is its cycle check and nothing else: nothing below the node is walked,
    whatever the untransformed values are, and no difference is emitted,
    but for the one the cycle check emits.  For values that are no
    pointers, maps or slices, and for values of which one is nil, the
    activation returns the tracker and the sink unchanged; for two non-nil
    pointers, maps or slices the run has not paired, it
    pairs them and returns the sink unchanged; for two the run has paired
    with each other, it returns both unchanged; for two of which one is
    paired otherwise, it emits exactly one difference, "uneven cycle".  At
    the root of a comparison nothing is paired yet: the comparison of two
    non-nil pointers, maps or slices pairs them and delivers nothing, and
    no comparison of two such values that returns has delivered a call. *)
Theorem C4_rewrite_equal (W : reflect.world) (L : lib) fuel d e t da db xf
  wantType :
  let av := reflect.Val t da in
  let bv := reflect.Val t db in
  lookupType t (xform (cfg d)) = Some xf ->
  equal W L fuel d (xf av) (xf bv) = Ok true ->
  (forall d1, cfg d1 = cfg d ->
     checkXform (walk W L fuel) d1 e av bv t true = Ok (Return d1 e)) /\
  walk W L (S fuel) d e av bv true wantType
  = (c <- checkCycles W d e av bv t ;;
     match c with
     | Return d' e' => Ok (d', e')
     | Next d1 => Ok (d1, e)
     end) /\
  (reflect.KindOf W t <> reflect.Ptr -> reflect.KindOf W t <> reflect.Map ->
   reflect.KindOf W t <> reflect.Slice ->
   walk W L (S fuel) d e av bv true wantType = Ok (d, e)) /\
  (forall an bn,
     reflect.IsNil av = Ok an -> reflect.IsNil bv = Ok bn -> an || bn = true ->
     walk W L (S fuel) d e av bv true wantType = Ok (d, e)) /\
  (forall a b,
     identity W av = Some a -> identity W bv = Some b ->
     (unseen d a b ->
      walk W L (S fuel) d e av bv true wantType = Ok (register d a b, e)) /\
     (lookupVisit a (aSeen d) = Some b ->
      walk W L (S fuel) d e av bv true wantType = Ok (d, e)) /\
     (paired d -> mismatch d a b ->
      walk W L (S fuel) d e av bv true wantType
      = (e' <- emitf e av bv "uneven cycle" [] ;; Ok (d, e')))) /\
  (forall a b,
     identity W av = Some a -> identity W bv = Some b ->
     each W L (S fuel) (cfg d) av bv
     = Ok (register (fresh (cfg d)) a b, rootEmitter (cfg d))) /\
  (forall d' e',
     each W L (S fuel) (cfg d) av bv = Ok (d', e') ->
     e' = rootEmitter (cfg d)).
Proof.
  intros av bv Hx He.
  assert (B : forall d1 e, cfg d1 = cfg d ->
            checkXform (walk W L fuel) d1 e av bv t true = Ok (Return d1 e)).
  { intros d1 e1 Hc. rewrite checkXform_Some with (xf := xf)
      by (rewrite Hc; exact Hx).
    rewrite (@equal_cfg W L fuel d1 d) by (rewrite Hc; reflexivity).
    rewrite He. reflexivity. }
  assert (E : forall d0 e wantType, cfg d0 = cfg d ->
    walk W L (S fuel) d0 e av bv true wantType
    = (c <- checkCycles W d0 e av bv t ;;
       match c with
       | Return d' e' => Ok (d', e')
       | Next d1 => Ok (d1, e)
       end)).
  { intros d0 e0 wt H0. subst av bv. rewrite walk_same_type. cbv zeta.
    destruct (checkCycles W d0 e0 (reflect.Val t da) (reflect.Val t db) t)
      as [[d' e'|d1]| |] eqn:Ec; try reflexivity.
    cbn [bind]. apply checkCycles_Next in Ec. destruct Ec as [Hc _].
    rewrite B by congruence. reflexivity. }
  split; [intros; apply B; assumption|].
  split; [apply E; reflexivity|]. split; [|split; [|split; [|split]]].
  - intros K1 K2 K3. rewrite E by reflexivity.
    rewrite checkCycles_scalar by assumption. reflexivity.
  - intros an bn Han Hbn Hor. rewrite E by reflexivity.
    unfold checkCycles.
    destruct (reflect.KindOf W t); try reflexivity;
      rewrite Han, Hbn; cbn [bind]; rewrite Hor; reflexivity.
  - intros a b Ia Ib.
    assert (Ec := @checkCycles_identity W d e t da db a b Ia Ib).
    cbv zeta in Ec. fold av bv in Ec.
    rewrite E by reflexivity. rewrite Ec. repeat split.
    + intros [Ua Ub]. rewrite Ua, Ub. reflexivity.
    + intro Hs. rewrite Hs, visit_eqb_refl. reflexivity.
    + intros P M. destruct M as [(seen & Hs & Hne)|(seen & Hs & Hne)].
      * rewrite Hs. apply visit_eqb_neq in Hne. rewrite Hne. simpl.
        destruct (emitf e _ _ _ _); reflexivity.
      * destruct (lookupVisit a (aSeen d)) as [s|] eqn:Ea.
        { destruct (visit_eqb s b) eqn:Eb.
          - apply visit_eqb_eq in Eb. subst s. apply P in Ea. congruence.
          - simpl. destruct (emitf e _ _ _ _); reflexivity. }
        rewrite Hs. simpl. destruct (emitf e _ _ _ _); reflexivity.
  - intros a b Ia Ib.
    change (each W L (S fuel) (cfg d) av bv)
      with (walk W L (S fuel) (fresh (cfg d)) (rootEmitter (cfg d)) av bv
              true true).
    rewrite E by reflexivity.
    pose proof (@checkCycles_identity W (fresh (cfg d)) (rootEmitter (cfg d))
                  t da db a b Ia Ib) as Ec.
    cbv zeta in Ec. fold av bv in Ec. rewrite Ec. reflexivity.
  - intros d' e' Hr. unfold each in Hr.
    change (walk W L (S fuel) (fresh (cfg d)) (rootEmitter (cfg d)) av bv
              true true = Ok (d', e')) in Hr.
    rewrite E in Hr by reflexivity.
    destruct (checkCycles W (fresh (cfg d)) (rootEmitter (cfg d)) av bv t)
      as [x| |] eqn:Ec; try discriminate Hr.
    destruct (@checkCycles_fresh W (cfg d) (rootEmitter (cfg d)) av bv t x Ec)
      as (d1 & ->).
    cbn [bind] in Hr. injection Hr as <- <-. reflexivity.
Qed.

Lemma C4_witness :
  walk exampleWorld exampleLib 2 (fresh zeroing) (rootEmitter zeroing)
    (intV 1) (intV 2) true true
  = Ok (fresh zeroing, rootEmitter zeroing).
Proof.
  refine (proj1 (proj2 (proj2 (@C4_rewrite_equal exampleWorld exampleLib 1%nat
            (fresh zeroing) (rootEmitter zeroing) intT (reflect.DInt 1)
            (reflect.DInt 2) (fun _ => intV 0) true _ _))) _ _ _);
    try reflexivity; discriminate.
Defined.

(** C4 as stated fails: the cycle check comes before the transform check.
    With a transform registered for [*node] that maps every pointer to 7,
    two structs are compared that hold a pointer in each of two fields: the
    node at 1 twice in the one, the nodes at 3 and 4 in the other.  The
    first field pairs 1 with 3 and is equal after the transform; at the
    second field the transform would again yield 7 and 7, but the walker
    reports "uneven cycle". *)
Lemma C4_counterexample :
  (exists d e,
     each exampleWorld exampleLib 3 sevening
       (two nodePtr (nodeAt 1) (nodeAt 1))
       (two nodePtr (nodeAt 3) (nodeAt 4)) = Ok (d, e) /\
     received e
     = [(("%s" ++ "uneven cycle" ++ LF)%string, [AString ".Y: "])]) /\
  ~ (forall (W : reflect.world) (L : lib) fuel d e t da db xf wantType d' e',
       let av := reflect.Val t da in
       let bv := reflect.Val t db in
       paired d ->
       lookupType t (xform (cfg d)) = Some xf ->
       equal W L fuel d (xf av) (xf bv) = Ok true ->
       walk W L (S fuel) d e av bv true wantType = Ok (d', e') ->
       e' = e).
Proof.
  split.
  - eexists _, _. split; vm_compute; reflexivity.
  - intro H.
    specialize (H exampleWorld exampleLib 1%nat
                  (register (fresh sevening) {| vp := 1; vt := nodePtr |}
                     {| vp := 3; vt := nodePtr |})
                  (rootEmitter sevening) nodePtr (reflect.DPointer 1)
                  (reflect.DPointer 4) (fun _ => intV 7) false).
    cbv zeta in H.
    assert (P : paired (register (fresh sevening) {| vp := 1; vt := nodePtr |}
                          {| vp := 3; vt := nodePtr |})).
    { apply paired_register; try reflexivity. intros x y. simpl.
      split; discriminate. }
    specialize (fun d' e' => H d' e' P eq_refl eq_refl).
    vm_compute in H.
    specialize (H _ _ eq_refl). discriminate H.
Qed.

Lemma walkKind_Return W L wk fuel d e av bv t wantType d' e' :
  walkKind W L wk fuel d e av bv t wantType = Ok (Return d' e') ->
  didEmit e' = true.
Proof.
  unfold walkKind, emitPointers, eqtest. intro H.
  destruct (reflect.KindOf W t); inv_bind;
    repeat match goal with
    | H : (if ?b then _ else _) = Ok _ |- _ => destruct b; inv_bind
    end.
  eapply emitf_didEmit; eassumption.
Qed.

(** C5.  When a transform function was applied and the transformed values
    are not equal: if no format function takes over and the comparison of
    the untransformed values leaves the switch with a sink that has not
    emitted, the walker emits "(transformed values differ)" and then walks
    exactly once into the transformed values, under the sub-path ["->"], with
    transforming disabled and the type requested; and whichever way the
    activation goes, the sink it returns has emitted. *)
Theorem C5_transformed_differ (W : reflect.world) (L : lib) fuel d e t da db
  xf wantType d1 :
  let av := reflect.Val t da in
  let bv := reflect.Val t db in
  let ax := xf av in
  let bx := xf bv in
  checkCycles W d e av bv t = Ok (Next d1) ->
  lookupType t (xform (cfg d)) = Some xf ->
  equal W L fuel d ax bx = Ok false ->
  (forall d2 e2,
     checkFormat (walk W L fuel) d1 e av bv t = Ok (Next tt) ->
     walkKind W L (walk W L fuel) fuel d1 e av bv t wantType
     = Ok (Next (d2, e2)) ->
     didEmit e2 = false ->
     walk W L (S fuel) d e av bv true wantType
     = (e3 <- emitf e2 av bv "(transformed values differ)" [] ;;
        c <- subf W L fuel e3 "->" [] ;;
        '(d3, c') <- walk W L fuel d2 c ax bx false true ;;
        Ok (d3, resume e3 c'))) /\
  (forall d' e',
     walk W L (S fuel) d e av bv true wantType = Ok (d', e') ->
     didEmit e' = true).
Proof.
  intros av bv ax bx Hc Hx He. subst av bv ax bx.
  destruct (checkCycles_Next _ _ _ _ _ _ Hc) as [C _].
  assert (E : walk W L (S fuel) d e (reflect.Val t da) (reflect.Val t db)
                true wantType =
    (c <- checkFormat (walk W L fuel) d1 e (reflect.Val t da)
            (reflect.Val t db) t ;;
     match c with
     | Return d e => Ok (d, e)
     | Next _ =>
         c <- walkKind W L (walk W L fuel) fuel d1 e (reflect.Val t da)
                (reflect.Val t db) t wantType ;;
         match c with
         | Return d e => Ok (d, e)
         | Next s =>
             walkXformed W L (walk W L fuel) fuel s (reflect.Val t da)
               (reflect.Val t db) true (xf (reflect.Val t da))
               (xf (reflect.Val t db))
         end
     end)).
  { rewrite walk_same_type. cbv zeta. rewrite Hc. cbn [bind].
    rewrite checkXform_Some with (xf := xf) by (rewrite C; exact Hx).
    rewrite equal_cfg with (d' := d) by (rewrite C; reflexivity).
    rewrite He. reflexivity. }
  split.
  - intros d2 e2 Hf Hk Hd. rewrite E, Hf. cbn [bind]. rewrite Hk. cbn [bind].
    unfold walkXformed. rewrite Hd. reflexivity.
  - intros d' e' H. rewrite E in H. inv_bind.
    destruct a as [d2 e2|[]]; inv_bind.
    { unfold checkFormat in E0.
      destruct (lookupType t (format (cfg d1))); [|discriminate E0].
      inv_bind. destruct (negb a); inv_bind.
      eapply emitf_didEmit; eassumption. }
    destruct a as [d3 e3|[d3 e3]]; inv_bind.
    { eapply walkKind_Return; eassumption. }
    unfold walkXformed in H. cbn [andb] in H.
    destruct (didEmit e3) eqn:D; cbn [negb] in H; inv_bind; [assumption|].
    apply walk_later in E4.
    eapply later_didEmit.
    + eapply subf_resume; eassumption.
    + eapply emitf_didEmit; eassumption.
Qed.

Lemma C5_witness :
  let d2 := register (fresh addressing) {| vp := 60; vt := intPtr |}
              {| vp := 61; vt := intPtr |} in
  walk exampleWorld exampleLib 3 (fresh addressing) (rootEmitter addressing)
    (intPtrAt 60) (intPtrAt 61) true true
  = (e3 <- emitf (rootEmitter addressing) (intPtrAt 60) (intPtrAt 61)
             "(transformed values differ)" [] ;;
     c <- subf exampleWorld exampleLib 2 e3 "->" [] ;;
     '(d3, c') <- walk exampleWorld exampleLib 2 d2 c
                    (addressOf (intPtrAt 60)) (addressOf (intPtrAt 61))
                    false true ;;
     Ok (d3, resume e3 c')).
Proof.
  refine (proj1 (@C5_transformed_differ exampleWorld exampleLib 2%nat
                   (fresh addressing) (rootEmitter addressing) intPtr
                   (reflect.DPointer 60) (reflect.DPointer 61) addressOf true
                   (register (fresh addressing) {| vp := 60; vt := intPtr |}
                      {| vp := 61; vt := intPtr |}) _ _ _)
            _ (rootEmitter addressing) _ _ _);
    reflexivity.
Defined.

(** C6.  [equal] runs the walker from a counting sink at zero and an empty
    tracker of its own; that walk ends in a counting sink and never reaches
    the caller's reporting function; the answer does not depend on the
    pairings the enclosing comparison has recorded.  The enclosing state is
    out of the sub-check's reach: when the transform check ends an
    activation, tracker and sink are the ones the check was given; when the
    format check ends it, the tracker is unchanged and the sink is exactly
    what the one emission of the format function's text makes of it; and
    when both checks pass control on, the switch starts from the tracker
    the cycle check left and from the sink the activation was given. *)
Theorem C6_equal_is_isolated (W : reflect.world) (L : lib) :
  (forall fuel d av bv,
     equal W L fuel d av bv
     = ('(_, e) <- walk W L fuel (fresh (defaultRules (cfg d)))
                     (Count {| n := 0 |}) av bv true true ;;
        Ok (negb (didEmit e)))) /\
  (forall fuel c av bv d2 e2,
     walk W L fuel (fresh c) (Count {| n := 0 |}) av bv true true
     = Ok (d2, e2) ->
     exists k, e2 = Count k /\ received e2 = []) /\
  (forall fuel d av bv seenA seenB,
     equal W L fuel {| cfg := cfg d; aSeen := seenA; bSeen := seenB |} av bv
     = equal W L fuel d av bv) /\
  (forall fuel d e av bv t xformOk d' e',
     checkXform (walk W L fuel) d e av bv t xformOk = Ok (Return d' e') ->
     d' = d /\ e' = e) /\
  (forall fuel d e av bv t d' e',
     checkFormat (walk W L fuel) d e av bv t = Ok (Return d' e') ->
     d' = d /\
     exists ff, lookupType t (format (cfg d)) = Some ff /\
       emitf e av bv "%s" [AString (ff av bv)] = Ok e') /\
  (forall fuel d e t da db xformOk wantType d1 xf,
     let av := reflect.Val t da in
     let bv := reflect.Val t db in
     reachesSwitch W L fuel d e av bv t xformOk d1 xf ->
     walk W L (S fuel) d e av bv xformOk wantType
     = (c <- walkKind W L (walk W L fuel) fuel d1 e av bv t wantType ;;
        match c with
        | Return d e => Ok (d, e)
        | Next s => finish W L fuel av bv xf s
        end)).
Proof.
  repeat apply conj.
  - intros. apply equal_unfold.
  - intros fuel c av bv d2 e2 H. apply walk_later in H.
    destruct e2 as [pe|k]; simpl in H; [contradiction|]. eauto.
  - intros. apply equal_cfg; reflexivity.
  - intros fuel d e av bv t xformOk d' e'. apply checkXform_state.
  - intros fuel d e av bv t d' e' H. unfold checkFormat in H.
    destruct (lookupType t (format (cfg d))) as [ff|]; [|discriminate H].
    inv_bind. destruct (negb a); inv_bind. eauto.
  - intros. apply walk_reaches. assumption.
Qed.

Lemma C6_witness :
  exists k, Count {| n := 1 |} = Count k /\ received (Count {| n := 1 |}) = [].
Proof.
  refine (proj1 (proj2 (C6_equal_is_isolated exampleWorld exampleLib))
            1%nat exampleConfig (intV 1) (intV 2) (fresh exampleConfig)
            (Count {| n := 1 |}) _).
  reflexivity.
Defined.

(** A walk under the default rules applies no hook at any activation. *)
Lemma no_hooks_checks (wk : walker) d e av bv t xformOk :
  xform (cfg d) = [] -> format (cfg d) = [] ->
  checkXform wk d e av bv t xformOk = Ok (Next (false, reflect.Zero, reflect.Zero))
  /\ checkFormat wk d e av bv t = Ok (Next tt).
Proof.
  intros Hx Hf. split.
  - apply checkXform_none. rewrite Hx. reflexivity.
  - apply checkFormat_none. rewrite Hf. reflexivity.
Qed.

(** C10.  The differ [equal] builds has an empty transform map and an empty
    format map: its answer is the same whatever is registered in the
    enclosing configuration, for any type; the nested walk ends with both
    maps still empty; and at every activation under empty maps neither the
    transform check nor the format check applies a function. *)
Theorem C10_equal_drops_hooks (W : reflect.world) (L : lib) :
  (forall fuel d av bv xs fs,
     equal W L fuel
       {| cfg := {| level := level (cfg d); equalFuncs := equalFuncs (cfg d);
                    xform := xs; format := fs |};
          aSeen := aSeen d; bSeen := bSeen d |} av bv
     = equal W L fuel d av bv) /\
  (forall fuel d av bv d2 e2,
     walk W L fuel (fresh (defaultRules (cfg d))) (Count {| n := 0 |})
       av bv true true = Ok (d2, e2) ->
     xform (cfg d2) = [] /\ format (cfg d2) = []) /\
  (forall wk d e av bv t xformOk,
     xform (cfg d) = [] -> format (cfg d) = [] ->
     checkXform wk d e av bv t xformOk
     = Ok (Next (false, reflect.Zero, reflect.Zero)) /\
     checkFormat wk d e av bv t = Ok (Next tt)).
Proof.
  repeat apply conj.
  - intros. apply equal_cfg; reflexivity.
  - intros fuel d av bv d2 e2 H. apply walk_tracker in H. destruct H as (C & _).
    rewrite C. split; reflexivity.
  - intros. apply no_hooks_checks; assumption.
Qed.

Lemma C10_witness :
  equal exampleWorld exampleLib 2 (fresh zeroing) (intV 1) (intV 2) = Ok false /\
  (xform (cfg (fresh (defaultRules zeroing))) = [] /\
   format (cfg (fresh (defaultRules zeroing))) = []).
Proof.
  split; [reflexivity|].
  refine (proj1 (proj2 (C10_equal_drops_hooks exampleWorld exampleLib))
            1%nat (fresh zeroing) (intV 1) (intV 1)
            (fresh (defaultRules zeroing)) (Count {| n := 0 |}) _).
  reflexivity.
Defined.

(** ** Formatting calls *)

Lemma append_assoc (s1 s2 s3 : string) :
  ((s1 ++ s2) ++ s3 = s1 ++ (s2 ++ s3))%string.
Proof.
  induction s1 as [|c s1 IH]; simpl; [reflexivity|]. rewrite IH. reflexivity.
Qed.

Section SprintfFacts.

Variable W : reflect.world.
Variable L : lib.
Variable fuel : nat.

Lemma Sprintf_char c rest args :
  c <> "%"%char ->
  Sprintf W L fuel (String c rest) args
  = (r <- Sprintf W L fuel rest args ;; Ok (String c r)).
Proof.
  intro H.
  destruct c as [[] [] [] [] [] [] [] []]; try reflexivity.
  exfalso. apply H. reflexivity.
Qed.

Lemma Sprintf_verb verb rest args :
  verb <> "%"%char -> verb <> "#"%char ->
  Sprintf W L fuel (String "%" (String verb rest)) args
  = ('(s, args') <- fmtVerb W L fuel false verb args ;;
     r <- Sprintf W L fuel rest args' ;; Ok (s ++ r)%string).
Proof.
  intros H1 H2.
  destruct verb as [[] [] [] [] [] [] [] []]; try reflexivity;
    exfalso; (apply H1; reflexivity) || (apply H2; reflexivity).
Qed.

Lemma Sprintf_percent rest args :
  Sprintf W L fuel (String "%" (String "%" rest)) args
  = (r <- Sprintf W L fuel rest args ;; Ok ("%" ++ r)%string).
Proof. reflexivity. Qed.

Lemma Sprintf_sharp verb rest args :
  Sprintf W L fuel (String "%" (String "#" (String verb rest))) args
  = ('(s, args') <- fmtVerb W L fuel true verb args ;;
     r <- Sprintf W L fuel rest args' ;; Ok (s ++ r)%string).
Proof. reflexivity. Qed.

Lemma fits_char c rest k :
  c <> "%"%char -> fits (String c rest) k = fits rest k.
Proof.
  intro H.
  destruct c as [[] [] [] [] [] [] [] []]; try reflexivity.
  exfalso. apply H. reflexivity.
Qed.

Lemma fits_verb verb rest k :
  verb <> "%"%char -> verb <> "#"%char ->
  fits (String "%" (String verb rest)) k = fits rest (Nat.pred k).
Proof.
  intros H1 H2.
  destruct verb as [[] [] [] [] [] [] [] []]; try reflexivity;
    exfalso; (apply H1; reflexivity) || (apply H2; reflexivity).
Qed.

Lemma fmtVerb_args sharp verb args s args' :
  fmtVerb W L fuel sharp verb args = Ok (s, args') ->
  List.length args' = Nat.pred (List.length args).
Proof.
  unfold fmtVerb. destruct args as [|a args]; intro H; inv_bind; reflexivity.
Qed.

Lemma ascii_eq_dec' (a b : ascii) : a = b \/ a <> b.
Proof.
  destruct (Ascii.eqb a b) eqn:E.
  - left. apply Ascii.eqb_eq. exact E.
  - right. apply Ascii.eqb_neq. exact E.
Qed.

(** A format that takes all its operands prints the same with a line feed
    appended, followed by the line feed. *)
Lemma Sprintf_LF format :
  forall args,
    fits format (List.length args) = true ->
    Sprintf W L fuel (format ++ LF)%string args
    = (m <- Sprintf W L fuel format args ;; Ok (m ++ LF)%string).
Proof.
  remember (String.length format) as k eqn:Hk.
  revert format Hk. induction k as [k IH] using lt_wf_ind.
  intros format Hk args Hfit.
  assert (step : forall rest args',
            (String.length rest < k)%nat ->
            fits rest (List.length args') = true ->
            Sprintf W L fuel (rest ++ LF)%string args'
            = (m <- Sprintf W L fuel rest args' ;; Ok (m ++ LF)%string)).
  { intros rest args' Hlt Hf. eapply IH; eauto. }
  destruct format as [|c rest].
  - simpl in Hfit. apply Nat.eqb_eq in Hfit.
    destruct args; [reflexivity | discriminate Hfit].
  - simpl in Hk. destruct (ascii_eq_dec' c "%") as [->|Hc].
    + destruct rest as [|verb rest]; [discriminate Hfit|].
      simpl in Hk.
      destruct (ascii_eq_dec' verb "%") as [->|Hv1].
      { change (String "%" (String "%" rest) ++ LF)%string
          with (String "%" (String "%" (rest ++ LF)))%string.
        rewrite !Sprintf_percent.
        rewrite (step rest args) by (try lia; exact Hfit).
        rewrite !bind_assoc. apply bind_ext. reflexivity. }
      destruct (ascii_eq_dec' verb "#") as [->|Hv2].
      { destruct rest as [|verb rest]; [discriminate Hfit|].
        simpl in Hk.
        change (String "%" (String "#" (String verb rest)) ++ LF)%string
          with (String "%" (String "#" (String verb (rest ++ LF))))%string.
        rewrite !Sprintf_sharp.
        change (fits (String "%" (String "#" (String verb rest)))
                  (List.length args))
          with (fits rest (Nat.pred (List.length args))) in Hfit.
        rewrite !bind_assoc.
        destruct (fmtVerb W L fuel true verb args) as [[s args']| |] eqn:E;
          try reflexivity.
        cbn [bind]. apply fmtVerb_args in E.
        rewrite (step rest args') by (try lia; rewrite E; exact Hfit).
        rewrite !bind_assoc. apply bind_ext. intro r. cbn [bind].
        rewrite append_assoc. reflexivity. }
      change ((String "%" (String verb rest)) ++ LF)%string
        with (String "%" (String verb (rest ++ LF)))%string.
      rewrite !Sprintf_verb by assumption.
      rewrite fits_verb in Hfit by assumption.
      rewrite !bind_assoc.
      destruct (fmtVerb W L fuel false verb args) as [[s args']| |] eqn:E;
        try reflexivity.
      cbn [bind]. apply fmtVerb_args in E.
      rewrite (step rest args') by (try lia; rewrite E; exact Hfit).
      rewrite !bind_assoc. apply bind_ext. intro r. cbn [bind].
      rewrite append_assoc. reflexivity.
    + change ((String c rest) ++ LF)%string with (String c (rest ++ LF))%string.
      rewrite !Sprintf_char by assumption.
      rewrite fits_char in Hfit by assumption.
      rewrite (step rest args) by (try lia; exact Hfit).
      rewrite !bind_assoc. apply bind_ext. reflexivity.
Qed.

End SprintfFacts.

(** ** The textual sink *)

(** C7.  Every [emitf] on a textual sink, however deep below the root,
    hands exactly one call to the caller's reporting function, and the line
    that call prints is, at [auto], the path prefix ("path: ", nothing for
    an empty path), the message and a line feed; at [pathOnly], the path
    and a line feed, whatever the message; at [full], the path prefix, the
    Go-syntax rendering of A, " != ", that of B and a line feed. *)
Theorem C7_textual_sink_line (W : reflect.world) (L : lib) fuel
  (e : printEmitter) av bv format arg :
  (pe_level e = level.auto -> fits format (List.length arg) = true ->
   exists e' c,
     emitf (Print e) av bv format arg = Ok (Print e') /\
     received (Print e') = received (Print e) ++ [c] /\
     line W L fuel c
     = (m <- Sprintf W L fuel format arg ;;
        Ok (prefix (pe_path e) ++ m ++ LF)%string)) /\
  (pe_level e = level.pathOnly ->
   exists e' c,
     emitf (Print e) av bv format arg = Ok (Print e') /\
     received (Print e') = received (Print e) ++ [c] /\
     line W L fuel c = Ok (join (pe_path e) ++ LF)%string) /\
  (pe_level e = level.full ->
   exists e' c,
     emitf (Print e) av bv format arg = Ok (Print e') /\
     received (Print e') = received (Print e) ++ [c] /\
     line W L fuel c
     = Ok (prefix (pe_path e) ++ fmtValue L true "v" av ++ " != "
           ++ fmtValue L true "v" bv ++ LF)%string).
Proof.
  destruct e as [l p d s]. unfold pe_level, pe_path.
  repeat apply conj.
  - intros E Hfit. subst l. eexists _, _. split; [reflexivity|]. split.
    + apply callSink_received.
    + unfold line. cbn [fst snd].
      change ("%s" ++ format ++ LF)%string
        with (String "%" (String "s" (format ++ LF)))%string.
      rewrite Sprintf_verb by discriminate.
      cbn [fmtVerb fmtArg bind]. rewrite Sprintf_LF by exact Hfit.
      rewrite !bind_assoc. apply bind_ext. reflexivity.
  - intros E. subst l. eexists _, _. split; [reflexivity|]. split.
    + apply callSink_received.
    + reflexivity.
  - intros E. subst l. eexists _, _. split; [reflexivity|]. split.
    + apply callSink_received.
    + reflexivity.
Qed.

Lemma C7_witness :
  exists e' c,
    emitf (Print (mkPrintEmitter level.auto [".next"] false (callerSink [])))
      (intV 1) (intV 2) "%v != %v" [AInt 1; AInt 2] = Ok (Print e') /\
    received (Print e') = [] ++ [c] /\
    line exampleWorld exampleLib 1 c
    = (m <- Sprintf exampleWorld exampleLib 1 "%v != %v" [AInt 1; AInt 2] ;;
       Ok (prefix [".next"] ++ m ++ LF)%string).
Proof.
  refine (proj1 (C7_textual_sink_line exampleWorld exampleLib 1
                   (mkPrintEmitter level.auto [".next"] false (callerSink []))
                   (intV 1) (intV 2) "%v != %v" [AInt 1; AInt 2]) _ _);
    reflexivity.
Defined.

(** ** An unrecognized level *)

Lemma emitf_unrecognized (e : printEmitter) av bv format arg :
  unrecognized (pe_level e) ->
  emitf (Print e) av bv format arg = Panic "diff: bad verbose level".
Proof.
  destruct e as [l p d s]. intros [k E]. simpl in E. subst l. reflexivity.
Qed.

Lemma walk_unrecognized W L fuel d (e : printEmitter) av bv xformOk wantType
  d' e' :
  unrecognized (pe_level e) ->
  walk W L fuel d (Print e) av bv xformOk wantType = Ok (d', e') ->
  e' = Print e.
Proof.
  intros U H.
  refine (walk_rel W L (fun s s' =>
            forall pe, snd s = Print pe -> unrecognized (pe_level pe) ->
                       snd s' = snd s) _ _ _ _ _
            fuel d (Print e) av bv xformOk wantType H e eq_refl U).
  - reflexivity.
  - intros s1 s2 s3 H12 H23 pe E Upe.
    pose proof (H12 pe E Upe) as E2.
    rewrite (H23 pe); [exact E2 | congruence | exact Upe].
  - intros d0 e0 av0 bv0 format arg e1 Hemit pe E Upe. simpl in *. subst e0.
    rewrite emitf_unrecognized in Hemit by exact Upe. discriminate Hemit.
  - reflexivity.
  - intros fuel0 d0 e0 format arg c d1 c1 Hs Hc pe E Upe. simpl in *. subst e0.
    simpl in Hs. inv_bind. unfold printEmitter_subf in E. inv_bind.
    rewrite (Hc _ eq_refl) by exact Upe. reflexivity.
Qed.

(** Run with a sink at an unrecognized level, the walker does what it does
    with a sink at a recognized level up to the first difference, where it
    aborts. *)

Section Sim.
Variable W : reflect.world.
Variable L : lib.

Lemma twins_emitf g b av bv format arg :
  twins g b -> emitf b av bv format arg = Panic "diff: bad verbose level".
Proof.
  intros (l & p & s & l' & p' & s' & -> & _ & -> & [k ->]). reflexivity.
Qed.

Lemma twins_didEmit g b :
  twins g b -> didEmit g = false /\ didEmit b = false.
Proof.
  intros (l & p & s & l' & p' & s' & -> & _ & -> & _). split; reflexivity.
Qed.

Lemma twins_subf fuel g b format arg c :
  twins g b -> subf W L fuel g format arg = Ok c ->
  exists c', subf W L fuel b format arg = Ok c' /\ twins c c' /\
    resume g c = g /\ resume b c' = b.
Proof.
  intros (l & p & s & l' & p' & s' & -> & R & -> & U). simpl.
  unfold printEmitter_subf. simpl.
  destruct (Sprintf W L fuel format arg) as [seg| |]; simpl; try discriminate.
  intros [= <-]. eexists. split; [reflexivity|]. split.
  - exists l, (p ++ [seg]), (subSink (mkPrintEmitter l p false s)),
      l', (p' ++ [seg]), (subSink (mkPrintEmitter l' p' false s')). auto.
  - split; reflexivity.
Qed.

Lemma emitf_grew g b av bv format arg g' :
  twins g b -> emitf g av bv format arg = Ok g' -> grew g g'.
Proof.
  intros (l & p & s & l' & p' & s' & -> & _ & _ & _) H. unfold grew.
  simpl in H. destruct l; try discriminate H; injection H as <-;
    unfold received, pe_received; simpl; rewrite callSink_received;
    rewrite length_app; simpl; lia.
Qed.

Lemma later_grew e e1 e2 : grew e e1 -> later e1 e2 -> grew e e2.
Proof.
  unfold grew. intros H Hl. apply later_received in Hl. destruct Hl as [x ->].
  rewrite length_app. lia.
Qed.

Lemma subf_received fuel e format arg c :
  subf W L fuel e format arg = Ok c -> received c = received e.
Proof.
  destruct e as [[l p d s]|ce]; simpl; intro H.
  - unfold printEmitter_subf in H.
    destruct (Sprintf W L fuel format arg); try discriminate H.
    injection H as <-. reflexivity.
  - injection H as <-. reflexivity.
Qed.

Lemma resume_received fuel e format arg c c' :
  subf W L fuel e format arg = Ok c -> later c c' ->
  received (resume e c') = received c'.
Proof.
  destruct e as [[l p d s]|ce]; simpl; intro H.
  - unfold printEmitter_subf in H.
    destruct (Sprintf W L fuel format arg); try discriminate H.
    injection H as <-.
    destruct c' as [[l' p' d' s']|]; unfold later, pe_later; simpl; [|tauto].
    destruct s' as [r'|[l2 p2 d2 s2]]; simpl; tauto.
  - reflexivity.
Qed.

(** What a child has emitted, its parent has emitted. *)
Lemma resume_grew fuel e format arg c c' :
  subf W L fuel e format arg = Ok c -> later c c' ->
  grew c c' -> grew e (resume e c').
Proof.
  intros Hs Hl. unfold grew.
  rewrite (@resume_received fuel e format arg c c' Hs Hl).
  rewrite (@subf_received fuel e format arg c Hs). auto.
Qed.

Lemma forRange_later {A} (xs : list A) (body : A -> state -> result state) :
  (forall x s s', body x s = Ok s' -> later (snd s) (snd s')) ->
  forall s s', forRange xs body s = Ok s' -> later (snd s) (snd s').
Proof.
  intro H. induction xs as [|x xs IH]; simpl; intros s s' E.
  - injection E as <-. apply later_refl.
  - apply bind_Ok in E. destruct E as (s1 & E1 & E2).
    eapply later_trans; [eapply H; eauto | eapply IH; eauto].
Qed.

Lemma forRange_laterE {A} (xs : list A) (body : A -> emitfer -> result emitfer) :
  (forall x e e', body x e = Ok e' -> later e e') ->
  forall e e', forRange xs body e = Ok e' -> later e e'.
Proof.
  intro H. induction xs as [|x xs IH]; simpl; intros s s' E.
  - injection E as <-. apply later_refl.
  - apply bind_Ok in E. destruct E as (s1 & E1 & E2).
    eapply later_trans; [eapply H; eauto | eapply IH; eauto].
Qed.

Lemma emitSub_later fuel format arg x y msg e e' :
  emitSub W L fuel format arg x y msg e = Ok e' -> later e e'.
Proof.
  unfold emitSub. intro H.
  apply bind_Ok in H. destruct H as (c & Ec & H).
  apply bind_Ok in H. destruct H as (xv & _ & H).
  apply bind_Ok in H. destruct H as (yv & _ & H).
  apply bind_Ok in H. destruct H as (c1 & E1 & H). injection H as <-.
  eapply subf_resume; [exact Ec|]. eapply emitf_later; eauto.
Qed.

Lemma forRange_sameS {A} (xs : list A) (body : A -> state -> result state) g b :
  (forall x s s', body x s = Ok s' -> later (snd s) (snd s')) ->
  (forall x d, sameS g b (body x (d, g)) (body x (d, b))) ->
  forall d, sameS g b (forRange xs body (d, g)) (forRange xs body (d, b)).
Proof.
  intros Hl H. induction xs as [|x xs IH]; intros d d' g' E; simpl in *.
  - injection E as <- <-. left. auto.
  - apply bind_Ok in E. destruct E as ([d1 g1] & E1 & E2).
    destruct (H x d _ _ E1) as [[-> Eb]|[Hd Eb]]; rewrite Eb; simpl.
    + apply IH. exact E2.
    + right. split; [|reflexivity].
      eapply later_grew; [exact Hd|].
      change (later (snd (d1, g1)) (snd (d', g'))).
      eapply forRange_later; [exact Hl | exact E2].
Qed.

Lemma forRange_sameE {A} (xs : list A) (body : A -> emitfer -> result emitfer) g b :
  (forall x e e', body x e = Ok e' -> later e e') ->
  (forall x, sameE g b (body x g) (body x b)) ->
  sameE g b (forRange xs body g) (forRange xs body b).
Proof.
  intros Hl H. induction xs as [|x xs IH]; intros g' E; simpl in *.
  - injection E as <-. left. auto.
  - apply bind_Ok in E. destruct E as (g1 & E1 & E2).
    destruct (H x _ E1) as [[-> Eb]|[Hd Eb]]; rewrite Eb; simpl.
    + apply IH. exact E2.
    + right. split; [|reflexivity].
      eapply later_grew; [exact Hd|].
      eapply forRange_laterE; [exact Hl | exact E2].
Qed.

Lemma emitSub_sameE fuel format arg x y msg g b :
  twins g b ->
  sameE g b (emitSub W L fuel format arg x y msg g)
            (emitSub W L fuel format arg x y msg b).
Proof.
  intros T g' E. right. unfold emitSub in *.
  apply bind_Ok in E. destruct E as (c & Ec & E).
  destruct (@twins_subf fuel g b format arg c T Ec) as (c' & Ec' & Tc & _).
  rewrite Ec'. simpl.
  apply bind_Ok in E. destruct E as (xv & -> & E).
  apply bind_Ok in E. destruct E as (yv & -> & E). simpl.
  apply bind_Ok in E. destruct E as (c1 & E1 & E). injection E as <-.
  rewrite (@twins_emitf _ _ _ _ _ _ Tc). split; [|reflexivity].
  eapply resume_grew; [exact Ec | eapply emitf_later; eauto
                      | eapply emitf_grew; eauto].
Qed.

Section Step.
Variable wk : walker.
Hypothesis wk_later : forall d e av bv xo wt d' e',
  wk d e av bv xo wt = Ok (d', e') -> later e e'.
Hypothesis wk_same : forall d g b av bv xo wt, twins g b ->
  sameS g b (wk d g av bv xo wt) (wk d b av bv xo wt).

Lemma walkSub_later fuel format arg x y s s' :
  walkSub W L wk fuel format arg x y s = Ok s' -> later (snd s) (snd s').
Proof.
  unfold walkSub. destruct s as [d e]. intro H.
  apply bind_Ok in H. destruct H as (c & Ec & H).
  apply bind_Ok in H. destruct H as (xv & _ & H).
  apply bind_Ok in H. destruct H as (yv & _ & H).
  apply bind_Ok in H. destruct H as ([d1 c1] & E1 & H). injection H as <-.
  simpl. eapply subf_resume; [exact Ec|]. eapply wk_later; eauto.
Qed.

Lemma walkSub_sameS fuel format arg x y d g b :
  twins g b ->
  sameS g b (walkSub W L wk fuel format arg x y (d, g))
            (walkSub W L wk fuel format arg x y (d, b)).
Proof.
  intros T d' g' E. unfold walkSub in *.
  apply bind_Ok in E. destruct E as (c & Ec & E).
  destruct (@twins_subf fuel g b format arg c T Ec) as (c' & Ec' & Tc & Rg & Rb).
  rewrite Ec'. simpl.
  apply bind_Ok in E. destruct E as (xv & -> & E).
  apply bind_Ok in E. destruct E as (yv & -> & E). simpl.
  apply bind_Ok in E. destruct E as ([d1 c1] & E1 & E).
  injection E as <- <-.
  destruct (@wk_same d c c' xv yv true false Tc _ _ E1) as [[-> Eb]|[Hg Eb]];
    rewrite Eb; simpl.
  - left. rewrite Rg, Rb. auto.
  - right. split; [|reflexivity].
    eapply resume_grew; [exact Ec | eapply wk_later; eauto | exact Hg].
Qed.

Lemma sameS_Next g b mg mb :
  sameS g b mg mb ->
  sameC g b (s <- mg ;; Ok (Next s)) (s <- mb ;; Ok (Next s)).
Proof.
  intros S c H. apply bind_Ok in H. destruct H as ([d1 g1] & E & H).
  injection H as <-.
  destruct (S _ _ E) as [[-> Eb]|[Hg Eb]]; rewrite Eb; [left|right]; auto.
Qed.

(** [H] is [e <- emitf g ... ;; Ok (.., e)]: the other run aborts there. *)
Ltac sim_emit T H :=
  let g1 := fresh "g" in
  let Eg := fresh "Eg" in
  apply bind_Ok in H; destruct H as (g1 & Eg & H);
  rewrite (@twins_emitf _ _ _ _ _ _ T);
  injection H as <-; try subst;
  right; split; [eapply emitf_grew; [exact T | exact Eg] | reflexivity].

Ltac sim_pure H :=
  let E := fresh "E" in
  apply bind_Ok in H; destruct H as (? & E & H); rewrite E; cbn [bind].

Lemma walkKind_sameC fuel d g b av bv t wantType :
  twins g b ->
  sameC g b (walkKind W L wk fuel d g av bv t wantType)
            (walkKind W L wk fuel d b av bv t wantType).
Proof.
  intros T c H. unfold walkKind, emitPointers, eqtest in *.
  destruct (reflect.KindOf W t).
  all: try discriminate H.
  all: repeat first
    [ match type of H with
      | bind (emitf _ _ _ _ _) _ = Ok _ => sim_emit T H
      | bind (forIndex _ _ _) _ = Ok _ => fail 1
      | bind (forRange _ _ _) _ = Ok _ => fail 1
      | bind (wk _ _ _ _ _ _) _ = Ok _ => fail 1
      | bind (if ?c then _ else _) _ = Ok _ => destruct c eqn:?
      | bind (Ok _) _ = Ok _ => progress cbn [bind] in H |- *
      | bind _ _ = Ok _ => sim_pure H
      | (if ?c then _ else _) = Ok _ => destruct c eqn:?
      | Ok _ = Ok _ => injection H as <-; left; split; reflexivity
      end ].
  - (* Array *)
    revert c H. apply sameS_Next. apply forRange_sameS.
    + intros i s s'. apply walkSub_later.
    + intros i d0. apply walkSub_sameS. exact T.
  - (* Interface *)
    revert c H. apply sameS_Next. apply wk_same. exact T.
  - (* Map *)
    destruct x3 as [[ak both] bk].
    apply bind_Ok in H. destruct H as (e1 & Hak & H).
    apply bind_Ok in H. destruct H as ([d2 e2] & Hboth & H).
    apply bind_Ok in H. destruct H as (e3 & Hbk & H).
    injection H as <-.
    assert (Lboth : later e1 e2).
    { change (later (snd (d, e1)) (snd (d2, e2))).
      eapply forRange_later; [|exact Hboth].
      intros k s s'. apply walkSub_later. }
    assert (Lbk : later e2 e3).
    { eapply forRange_laterE; [|exact Hbk].
      intros k e0 e'. apply emitSub_later. }
    apply forRange_sameE with (b := b) in Hak;
      [|intros k e e'; apply emitSub_later
       |intro k; apply emitSub_sameE; exact T].
    destruct Hak as [[-> Eb]|[Hg Eb]]; rewrite Eb; cbn [bind].
    2:{ right. split; [|reflexivity].
        eapply later_grew; [|exact Lbk]. eapply later_grew; eauto. }
    apply forRange_sameS with (b := b) in Hboth;
      [|intros k s s'; apply walkSub_later
       |intros k d0; apply walkSub_sameS; exact T].
    destruct Hboth as [[-> Eb2]|[Hg Eb2]]; rewrite Eb2; cbn [bind].
    2:{ right. split; [|reflexivity]. eapply later_grew; eauto. }
    apply forRange_sameE with (b := b) in Hbk;
      [|intros k e e'; apply emitSub_later
       |intro k; apply emitSub_sameE; exact T].
    destruct Hbk as [[-> Eb3]|[Hg Eb3]]; rewrite Eb3; cbn [bind]; auto.
  - (* Ptr *)
    revert c H. apply sameS_Next. apply wk_same. exact T.
  - (* Slice *)
    revert c H. apply sameS_Next. apply forRange_sameS.
    + intros i s s'. apply walkSub_later.
    + intros i d0. apply walkSub_sameS. exact T.
  - (* Struct *)
    revert c H. apply sameS_Next. apply forRange_sameS.
    + intros i s s' H. apply bind_Ok in H. destruct H as (name & _ & H).
      revert H. apply walkSub_later.
    + intros i d0 d' g' H.
      sim_pure H. revert d' g' H. apply walkSub_sameS. exact T.
Qed.

Lemma checkCycles_same d g b av bv t c :
  twins g b ->
  checkCycles W d g av bv t = Ok c ->
  match c with
  | Return d' g' =>
      (g' = g /\ checkCycles W d b av bv t = Ok (Return d' b)) \/
      (grew g g' /\
       checkCycles W d b av bv t = Panic "diff: bad verbose level")
  | Next d' => checkCycles W d b av bv t = Ok (Next d')
  end.
Proof.
  intros T H. unfold checkCycles in *.
  destruct (reflect.KindOf W t).
  all: repeat first
    [ match type of H with
      | bind (emitf _ _ _ _ _) _ = Ok _ => sim_emit T H
      | bind _ _ = Ok _ => sim_pure H
      | (if ?c then _ else _) = Ok _ => destruct c eqn:?
      | match ?c with Some _ => _ | None => _ end = Ok _ => destruct c eqn:?
      | Ok _ = Ok _ => injection H as <-; auto
      end ].
Qed.

Lemma checkXform_same d g b av bv t xo c :
  checkXform wk d g av bv t xo = Ok c ->
  match c with
  | Return d' g' => g' = g /\ checkXform wk d b av bv t xo = Ok (Return d' b)
  | Next x => checkXform wk d b av bv t xo = Ok (Next x)
  end.
Proof.
  intros H. unfold checkXform in *.
  repeat first
    [ match type of H with
      | bind _ _ = Ok _ => sim_pure H
      | (if ?c then _ else _) = Ok _ => destruct c eqn:?
      | match ?c with Some _ => _ | None => _ end = Ok _ => destruct c eqn:?
      | Ok _ = Ok _ => injection H as <-; auto
      end ].
Qed.

Lemma checkFormat_same d g b av bv t c :
  twins g b ->
  checkFormat wk d g av bv t = Ok c ->
  match c with
  | Return d' g' =>
      (g' = g /\ checkFormat wk d b av bv t = Ok (Return d' b)) \/
      (grew g g' /\
       checkFormat wk d b av bv t = Panic "diff: bad verbose level")
  | Next x => checkFormat wk d b av bv t = Ok (Next x)
  end.
Proof.
  intros T H. unfold checkFormat in *.
  repeat first
    [ match type of H with
      | bind (emitf _ _ _ _ _) _ = Ok _ => sim_emit T H
      | bind _ _ = Ok _ => sim_pure H
      | (if ?c then _ else _) = Ok _ => destruct c eqn:?
      | match ?c with Some _ => _ | None => _ end = Ok _ => destruct c eqn:?
      | Ok _ = Ok _ => injection H as <-; auto
      end ].
Qed.

Lemma walkXformed_later fuel s av bv hx ax bx s' :
  walkXformed W L wk fuel s av bv hx ax bx = Ok s' -> later (snd s) (snd s').
Proof.
  unfold walkXformed. destruct s as [d e]. intro H.
  destruct (hx && negb (didEmit e)).
  - apply bind_Ok in H. destruct H as (e1 & E1 & H).
    apply bind_Ok in H. destruct H as (c & Ec & H).
    apply bind_Ok in H. destruct H as ([d1 c1] & Ew & H). injection H as <-.
    simpl. eapply later_trans; [eapply emitf_later; eauto|].
    eapply subf_resume; [exact Ec|]. eapply wk_later; eauto.
  - injection H as <-. apply later_refl.
Qed.

Lemma walkXformed_sameS fuel d g b av bv hx ax bx :
  twins g b ->
  sameS g b (walkXformed W L wk fuel (d, g) av bv hx ax bx)
            (walkXformed W L wk fuel (d, b) av bv hx ax bx).
Proof.
  intros T d' g' H. unfold walkXformed in *.
  destruct (@twins_didEmit g b T) as [Hg Hb].
  rewrite Hg in H. rewrite Hb. destruct hx; cbn [andb negb] in *.
  - apply bind_Ok in H. destruct H as (e1 & E1 & H).
    apply bind_Ok in H. destruct H as (c & Ec & H).
    apply bind_Ok in H. destruct H as ([d1 c1] & Ew & H).
    injection H as <- <-.
    rewrite (@twins_emitf _ _ _ _ _ _ T). right. split; [|reflexivity].
    eapply later_grew; [eapply emitf_grew; eauto|].
    eapply subf_resume; [exact Ec|]. eapply wk_later; eauto.
  - injection H as <- <-. left. auto.
Qed.

Lemma walkBody_sameS fuel d g b av bv xo wt :
  twins g b ->
  sameS g b (walkBody W L wk fuel d g av bv xo wt)
            (walkBody W L wk fuel d b av bv xo wt).
Proof.
  intros T d' g' H. unfold walkBody in *.
  destruct (negb (reflect.IsValid av) && negb (reflect.IsValid bv)).
  { injection H as <- <-. left. auto. }
  destruct (negb (reflect.IsValid av)); [sim_emit T H|].
  destruct (negb (reflect.IsValid bv)); [sim_emit T H|].
  sim_pure H. sim_pure H.
  destruct (negb (reflect.rtype_eqb x x0)); [sim_emit T H|].
  apply bind_Ok in H. destruct H as (c1 & Hc & H).
  pose proof (@checkCycles_same d g b av bv x c1 T Hc) as Ec.
  destruct c1 as [d1 g1|d1].
  { injection H as <- <-.
    destruct Ec as [[-> Ec]|[Hg Ec]]; rewrite Ec; [left|right]; auto. }
  rewrite Ec. cbn [bind].
  apply bind_Ok in H. destruct H as (c2 & Hx & H).
  pose proof (@checkXform_same d1 g b av bv x xo c2 Hx) as Ex.
  destruct c2 as [d2 g2|[[hx ax] bx]].
  { destruct Ex as [-> Ex]. rewrite Ex. injection H as <- <-. left. auto. }
  rewrite Ex. cbn [bind].
  apply bind_Ok in H. destruct H as (c3 & Hf & H).
  pose proof (@checkFormat_same d1 g b av bv x c3 T Hf) as Ef.
  destruct c3 as [d3 g3|[]].
  { injection H as <- <-.
    destruct Ef as [[-> Ef]|[Hg Ef]]; rewrite Ef; [left|right]; auto. }
  rewrite Ef. cbn [bind].
  apply bind_Ok in H. destruct H as (c4 & Hk & H).
  pose proof (@walkKind_sameC fuel d1 g b av bv x wt T c4 Hk) as Ek.
  destruct c4 as [d4 g4|[d4 g4]].
  { injection H as <- <-.
    destruct Ek as [[-> Ek]|[Hg Ek]]; rewrite Ek; [left|right]; auto. }
  destruct Ek as [[-> Ek]|[Hg Ek]]; rewrite Ek; cbn [bind].
  - revert d' g' H. apply walkXformed_sameS. exact T.
  - right. split; [|reflexivity].
    apply walkXformed_later in H. simpl in H. eapply later_grew; eauto.
Qed.

End Step.

Lemma walk_sameS fuel : forall d g b av bv xo wt,
  twins g b ->
  sameS g b (walk W L fuel d g av bv xo wt) (walk W L fuel d b av bv xo wt).
Proof.
  induction fuel as [|fuel IH]; intros d g b av bv xo wt T.
  - intros d' g' H. discriminate H.
  - simpl. apply walkBody_sameS; try assumption.
    intros. eapply walk_later; eauto.
Qed.

End Sim.

(** C8 (amended).  Under a level that is none of the three, every emission
    of a difference through the textual sink is the fatal error "diff: bad
    verbose level", raised before anything reaches the caller; a comparison
    run that does return has emitted nothing: its sink is the one it started
    with; and where the same walk with a sink at a recognized level returns,
    the comparison run aborts with that fatal error if that walk has
    reported a difference, and returns the same tracker, nothing emitted, if
    it has reported none. *)
Theorem C8_bad_level_is_fatal (W : reflect.world) (L : lib) :
  (forall (e : printEmitter) av bv format arg,
     unrecognized (pe_level e) ->
     emitf (Print e) av bv format arg = Panic "diff: bad verbose level") /\
  (forall fuel c a b d e,
     unrecognized (level c) ->
     each W L fuel c a b = Ok (d, e) ->
     e = rootEmitter c /\ didEmit e = false /\ received e = []) /\
  (forall fuel c l a b d e,
     unrecognized (level c) ->
     recognized l ->
     walk W L fuel (fresh c)
       (Print (mkPrintEmitter l [] false (callerSink []))) a b true true
     = Ok (d, e) ->
     each W L fuel c a b =
     match received e with
     | [] => Ok (d, rootEmitter c)
     | _ :: _ => Panic "diff: bad verbose level"
     end).
Proof.
  split; [|split].
  - intros. apply emitf_unrecognized. assumption.
  - intros fuel c a b d e U H. unfold each in H.
    apply walk_unrecognized in H; [|exact U]. subst e. auto.
  - intros fuel c l a b d e U R H.
    assert (T : twins (Print (mkPrintEmitter l [] false (callerSink [])))
                      (rootEmitter c)).
    { exists l, [], (callerSink []), (level c), [], (callerSink []). auto. }
    destruct (@walk_sameS W L fuel (fresh c) _ _ a b true true T d e H)
      as [[-> E]|[G E]].
    + exact E.
    + unfold grew in G. simpl in G.
      destruct (received e); [inversion G | exact E].
Qed.

Lemma C8_witness :
  emitf (rootEmitter badConfig) (intV 5) (intV 6) "%v != %v" []
  = Panic "diff: bad verbose level" /\
  each exampleWorld exampleLib 3 badConfig (intsAt 30 1) (intsAt 31 2)
  = Panic "diff: bad verbose level".
Proof.
  destruct (C8_bad_level_is_fatal exampleWorld exampleLib) as (Hemit & _ & Hrun).
  split.
  - refine (Hemit (mkPrintEmitter (level.unknown 7) [] false (callerSink []))
              (intV 5) (intV 6) "%v != %v" [] _).
    exists 7. reflexivity.
  - eapply eq_trans;
      [eapply (Hrun 3%nat badConfig level.auto (intsAt 30 1) (intsAt 31 2))|].
    + exists 7. reflexivity.
    + left. reflexivity.
    + vm_compute. reflexivity.
    + reflexivity.
Defined.

(** C8 as stated fails: under an unrecognized level the comparison of the
    integer 1 with itself never aborts; with any fuel at all it returns,
    having emitted nothing. *)
Lemma C8_counterexample :
  ~ (forall (W : reflect.world) (L : lib) c a b,
       unrecognized (level c) ->
       exists fuel msg, each W L fuel c a b = Panic msg).
Proof.
  intro H.
  destruct (H exampleWorld exampleLib badConfig (intV 1) (intV 1))
    as (fuel & msg & E).
  { exists 7. reflexivity. }
  destruct fuel as [|fuel]; [discriminate E|].
  unfold each, intV in E. rewrite walk_int in E by reflexivity.
  discriminate E.
Qed.

(** ** The renderer does not depend on the iteration order of maps *)

Lemma insertKey_In leb k ks x : In x (insertKey leb k ks) <-> x = k \/ In x ks.
Proof.
  induction ks as [|y ks IH]; simpl.
  - intuition.
  - destruct (leb k y); simpl; rewrite ?IH; intuition.
Qed.

Lemma sortKeys_In leb ks x : In x (sortKeys leb ks) <-> In x ks.
Proof.
  induction ks as [|y ks IH]; simpl; [reflexivity|].
  rewrite insertKey_In, IH. intuition.
Qed.

Lemma insertKey_Permutation leb k ks : Permutation (insertKey leb k ks) (k :: ks).
Proof.
  induction ks as [|y ks IH]; simpl; [reflexivity|].
  destruct (leb k y); [reflexivity|].
  rewrite IH. apply perm_swap.
Qed.

Lemma sortKeys_Permutation leb ks : Permutation (sortKeys leb ks) ks.
Proof.
  induction ks as [|y ks IH]; simpl; [reflexivity|].
  rewrite insertKey_Permutation, IH. reflexivity.
Qed.

Lemma totalOrderOn_incl leb ks ks' :
  (forall x, In x ks' -> In x ks) -> totalOrderOn leb ks -> totalOrderOn leb ks'.
Proof.
  intros I (T & A & R). repeat split; intros.
  - apply T; auto.
  - apply A; auto.
  - eapply R with (b := b); auto.
Qed.

Lemma insertKey_comm leb x y s :
  totalOrderOn leb (x :: y :: s) ->
  insertKey leb x (insertKey leb y s) = insertKey leb y (insertKey leb x s).
Proof.
  intros (T & A & R). induction s as [|z s IH]; simpl.
  - destruct (leb x y) eqn:Exy, (leb y x) eqn:Eyx; try reflexivity.
    + rewrite (A x y); simpl; auto.
    + destruct (T x y) as [E|E]; simpl; auto; congruence.
  - assert (IH' : insertKey leb x (insertKey leb y s)
                  = insertKey leb y (insertKey leb x s)).
    { apply IH.
      - intros a b Ha Hb. apply T; simpl in *; intuition.
      - intros a b Ha Hb. apply A; simpl in *; intuition.
      - intros a b c Ha Hb Hc. apply R; simpl in *; intuition. }
    assert (Ix : In x (x :: y :: z :: s)) by (simpl; auto).
    assert (Iy : In y (x :: y :: z :: s)) by (simpl; auto).
    assert (Iz : In z (x :: y :: z :: s)) by (simpl; auto).
    destruct (leb y z) eqn:Eyz, (leb x z) eqn:Exz; simpl;
      rewrite ?Eyz, ?Exz;
      destruct (leb x y) eqn:Exy, (leb y x) eqn:Eyx; simpl;
      rewrite ?Eyz, ?Exz; try reflexivity;
      try (rewrite IH'; reflexivity);
      try (rewrite (A x y Ix Iy Exy Eyx); reflexivity);
      try (destruct (T x y Ix Iy); congruence);
      try (rewrite (R x y z Ix Iy Iz Exy Eyz) in Exz; discriminate);
      try (rewrite (R y x z Iy Ix Iz Eyx Exz) in Eyz; discriminate).
Qed.

(** Sorting does not see the order the keys arrive in. *)
Lemma sortKeys_reordered leb ks ks' :
  totalOrderOn leb ks -> Permutation ks ks' ->
  sortKeys leb ks = sortKeys leb ks'.
Proof.
  intros T P. induction P as [|x l l' P IH|x y l|l l' l'' P1 IH1 P2 IH2].
  - reflexivity.
  - simpl. rewrite IH; [reflexivity|].
    eapply totalOrderOn_incl; [|exact T]. simpl; auto.
  - simpl. apply insertKey_comm.
    eapply totalOrderOn_incl; [|exact T].
    intros z Hz. simpl in *. rewrite sortKeys_In in Hz. intuition.
  - rewrite IH1 by exact T. apply IH2.
    eapply totalOrderOn_incl; [|exact T].
    intros z Hz. eapply Permutation_in; [|exact Hz].
    apply Permutation_sym. exact P1.
Qed.

Lemma insertKey_Sorted leb k ks :
  totalOrderOn leb (k :: ks) ->
  Sorted (fun a b => leb a b = true) ks ->
  Sorted (fun a b => leb a b = true) (insertKey leb k ks).
Proof.
  intros (T & _ & _) S. induction S as [|y ks S IH Hd]; simpl.
  - repeat constructor.
  - destruct (leb k y) eqn:E.
    + repeat constructor; auto.
    + constructor.
      * apply IH. intros a b Ha Hb. apply T; simpl in *; intuition.
      * assert (Eyk : leb y k = true).
        { destruct (T k y) as [X|X]; simpl; auto; congruence. }
        destruct Hd as [|z ks' Hz]; simpl.
        { constructor. exact Eyk. }
        destruct (leb k z); constructor; assumption.
Qed.

Lemma sortKeys_Sorted leb ks :
  totalOrderOn leb ks -> Sorted (fun a b => leb a b = true) (sortKeys leb ks).
Proof.
  intro T. induction ks as [|k ks IH]; simpl; [constructor|].
  apply insertKey_Sorted.
  - eapply totalOrderOn_incl; [|exact T].
    intros z Hz. simpl in *. rewrite sortKeys_In in Hz. exact Hz.
  - apply IH. eapply totalOrderOn_incl; [|exact T]. simpl; auto.
Qed.

Lemma lookup_found k es :
  (exists k' v, In (k', v) es /\ reflect.keyEq k' k = true /\
     reflect.lookup k es = v) \/
  ((forall k' v, In (k', v) es -> reflect.keyEq k' k = false) /\
   reflect.lookup k es = reflect.Zero).
Proof.
  induction es as [|[k1 v1] es IH]; simpl.
  - right. split; [intros k' v []|reflexivity].
  - destruct (reflect.keyEq k1 k) eqn:E.
    + left. exists k1, v1. auto.
    + destruct IH as [(k' & v & I & Q & Lk)|(N & Lk)].
      * left. exists k', v. auto.
      * right. split; [|exact Lk].
        intros k' v [[= <- <-]|I]; [exact E|eauto].
Qed.

Lemma lookup_reordered k es es' :
  In k (map fst es) -> singleValued es -> Permutation es es' ->
  reflect.lookup k es = reflect.lookup k es'.
Proof.
  intros Ik SV P.
  destruct (lookup_found k es) as [(k1 & v1 & I1 & Q1 & L1)|(N1 & L1)],
           (lookup_found k es') as [(k2 & v2 & I2 & Q2 & L2)|(N2 & L2)].
  - rewrite L1, L2. eapply SV; eauto.
    eapply Permutation_in; [apply Permutation_sym; exact P|exact I2].
  - apply (Permutation_in _ P) in I1. rewrite (N2 _ _ I1) in Q1. discriminate.
  - apply (Permutation_in _ (Permutation_sym P)) in I2.
    rewrite (N1 _ _ I2) in Q2. discriminate.
  - congruence.
Qed.

Lemma writeEach_ext_In {A : Type} (xs : list A)
  (f g : A -> result (string * bool)) :
  (forall x, In x xs -> f x = g x) -> writeEach xs f = writeEach xs g.
Proof.
  induction xs as [|x xs IH]; simpl; intro E; [reflexivity|].
  rewrite (E x) by auto. apply bind_ext. intros [s brk].
  destruct brk; [reflexivity|]. rewrite IH by auto. reflexivity.
Qed.

Lemma writeEach_ext {A : Type} (xs : list A)
  (f g : A -> result (string * bool)) :
  (forall x, f x = g x) -> writeEach xs f = writeEach xs g.
Proof. intro E. apply writeEach_ext_In. auto. Qed.

Lemma indexed_In {A : Type} (ks : list A) i k : In (i, k) (indexed ks) -> In k ks.
Proof. unfold indexed. apply in_combine_r. Qed.

Section Reordered.

Variable W : reflect.world.
Variable L : lib.
Variable m' : reflect.rtype -> reflect.addr -> list (reflect.Value * reflect.Value).

Hypothesis WF : mapsWellFormed L W.
Hypothesis RO : reordered W m'.

Let W' := withMapData W m'.

Lemma Len_reordered v : reflect.Len W' v = reflect.Len W v.
Proof.
  destruct v as [|t []]; try reflexivity. simpl.
  destruct (p =? 0); [reflexivity|]. simpl.
  rewrite (Permutation_length (RO t p)). reflexivity.
Qed.

Lemma sortedKeys_reordered v : sortedKeys W' L v = sortedKeys W L v.
Proof.
  unfold sortedKeys, reflect.MapRange, reflect.entries.
  destruct v as [|t []]; try reflexivity. simpl.
  destruct (p =? 0); [reflexivity|]. simpl. f_equal. symmetry.
  apply sortKeys_reordered.
  - apply (WF t p).
  - apply Permutation_map. apply RO.
Qed.

Lemma MapIndex_reordered v keys mk :
  sortedKeys W L v = Ok keys -> In mk keys ->
  reflect.MapIndex W' v mk = reflect.MapIndex W v mk.
Proof.
  unfold sortedKeys, reflect.MapRange, reflect.MapIndex, reflect.entries.
  destruct v as [|t []]; try discriminate. simpl.
  destruct (p =? 0); simpl; intros [= <-] I; [reflexivity|].
  f_equal. symmetry. apply sortKeys_In in I. apply lookup_reordered.
  - exact I.
  - apply (WF t p).
  - apply RO.
Qed.

(** The renderer asks the world for type strings, pointees, slice
    elements and, of maps, only the length, the sorted keys and the value
    under a key. *)
Lemma writeToBody_reordered f rec v wantType depth :
  writeToBody W' L f rec v wantType depth
  = writeToBody W L f rec v wantType depth.
Proof.
  destruct v as [|t d]; [reflexivity|].
  unfold writeToBody.
  change (reflect.KindOf W' t) with (reflect.KindOf W t).
  destruct (reflect.KindOf W t) eqn:K; try reflexivity.
  - (* map *)
    apply bind_ext. intros [|]; [reflexivity|].
    apply bind_ext. intro ty.
    rewrite Len_reordered. apply bind_ext. intro len.
    destruct (_ && _); [reflexivity|].
    rewrite sortedKeys_reordered.
    destruct (sortedKeys W L (reflect.Val t d)) as [keys| |] eqn:SK;
      try reflexivity.
    cbn [bind].
    assert (E : forall mk, In mk keys ->
              reflect.MapIndex W' (reflect.Val t d) mk
              = reflect.MapIndex W (reflect.Val t d) mk).
    { intros mk I. eapply MapIndex_reordered; eassumption. }
    destruct (full f && _).
    + rewrite writeEach_ext_In
        with (g := fun mk =>
          mv <- reflect.MapIndex W (reflect.Val t d) mk ;;
          sk <- rec mk false 0 ;;
          sv <- rec mv false (depth + 1) ;;
          Ok (sk ++ ":" ++ TAB ++ sv ++ "," ++ LF, false)%string);
        [reflexivity|].
      intros mk I. rewrite (E mk I). reflexivity.
    + rewrite writeEach_ext_In
        with (g := fun '(i, mk) =>
          if (0 <? i)%nat then Ok (", ...", true)
          else
            mv <- reflect.MapIndex W (reflect.Val t d) mk ;;
            sk <- rec mk false 0 ;;
            sv <- rec mv false (depth + 1) ;;
            Ok (sk ++ ":" ++ sv, false)%string);
        [reflexivity|].
      intros [i mk] I. apply indexed_In in I. rewrite (E mk I). reflexivity.
  - (* slice *)
    apply bind_ext. intros [|]; [reflexivity|].
    apply bind_ext. intro ty.
    rewrite Len_reordered. reflexivity.
Qed.

End Reordered.

Lemma bind_cong {A B : Type} (c c' : result A) (k k' : A -> result B) :
  c = c' -> (forall a, k a = k' a) -> bind c k = bind c' k'.
Proof. intros -> E. apply bind_ext. exact E. Qed.

(** Unfolds equal computations that differ in the recursive calls only. *)
Ltac same_shape H :=
  repeat first
    [ reflexivity
    | rewrite H
    | apply bind_ext; intro
    | apply bind_cong; [|intro]
    | apply writeEach_ext; intro
    | match goal with
      | |- (if ?b then _ else _) = (if ?b then _ else _) => destruct b
      | |- match ?x with _ => _ end = match ?x with _ => _ end => destruct x
      end ].

Lemma writeToBody_ext W L f rec rec' v wantType depth :
  (forall x w d, rec x w d = rec' x w d) ->
  writeToBody W L f rec v wantType depth
  = writeToBody W L f rec' v wantType depth.
Proof.
  intro H. destruct v as [|t d]; [reflexivity|].
  unfold writeToBody. destruct (reflect.KindOf W t); same_shape H.
Qed.

Lemma writeTo_reordered W L m' :
  mapsWellFormed L W -> reordered W m' ->
  forall fuel f v wantType depth,
    writeTo (withMapData W m') L fuel f v wantType depth
    = writeTo W L fuel f v wantType depth.
Proof.
  intros WF RO. induction fuel as [|fuel IH]; intros f v wantType depth.
  - reflexivity.
  - simpl. rewrite writeToBody_reordered by assumption.
    apply writeToBody_ext. intros. apply IH.
Qed.

Lemma exampleWorld_wellFormed : mapsWellFormed exampleLib exampleWorld.
Proof.
  intros t a. unfold keysAt. simpl.
  destruct (a =? 10); [|destruct (a =? 11); [|destruct (a =? 12)]];
    (split;
     [ intros k k1 v1 k2 v2 Ik I1 I2 Q1 Q2; simpl in *;
       repeat match goal with
       | H : _ \/ _ |- _ => destruct H
       | H : False |- _ => destruct H
       | H : (_, _) = (_, _) |- _ => injection H as <- <-
       | H : _ = k |- _ => subst k
       end; try reflexivity; discriminate
     | repeat split; simpl; intros;
       repeat match goal with
       | H : _ \/ _ |- _ => destruct H
       | H : False |- _ => destruct H
       | H : stringV _ = _ |- _ => rewrite <- H in *; clear H
       end; simpl in *; auto; try discriminate ]).
Qed.

Lemma exampleReordering_reordered : reordered exampleWorld exampleReordering.
Proof.
  intros t a. unfold exampleReordering. simpl.
  destruct (a =? 10) eqn:E10, (a =? 11) eqn:E11, (a =? 12) eqn:E12;
    try reflexivity; try apply perm_swap;
    apply Z.eqb_eq in E10; try apply Z.eqb_eq in E11;
    try apply Z.eqb_eq in E12; lia.
Qed.

(** C9.  Rendering does not depend on the order in which maps happen to
    iterate: in a world whose maps are well formed (a lookup of a key has
    one answer, the key order is total on the keys of each map), rendering
    a value with the same mode and type-annotation arguments yields the
    same text, or runs out of the same fuel, whatever order the entries of
    the maps are visited in; and the keys a map is rendered by are the keys
    of the map, sorted, the same list for every iteration order. *)
Theorem C9_rendering_is_deterministic (W : reflect.world) (L : lib)
  (m' : reflect.rtype -> reflect.addr -> list (reflect.Value * reflect.Value)) :
  mapsWellFormed L W -> reordered W m' ->
  (forall fuel f, Format (withMapData W m') L fuel f = Format W L fuel f) /\
  (forall v, sortedKeys (withMapData W m') L v = sortedKeys W L v) /\
  (forall t p keys,
     p <> 0 ->
     sortedKeys W L (reflect.Val t (reflect.DPointer p)) = Ok keys ->
     Permutation keys (keysAt W t p) /\
     Sorted (fun a b => keyLeb L a b = true) keys).
Proof.
  intros WF RO. repeat apply conj.
  - intros fuel f. unfold Format.
    rewrite writeTo_reordered by assumption. reflexivity.
  - intro v. apply sortedKeys_reordered; assumption.
  - intros t p keys Hp H. unfold sortedKeys, reflect.MapRange in H. simpl in H.
    apply Z.eqb_neq in Hp. rewrite Hp in H. simpl in H. injection H as <-.
    split.
    + apply sortKeys_Permutation.
    + apply sortKeys_Sorted. apply (WF t p).
Qed.

Lemma C9_witness :
  Format (withMapData exampleWorld exampleReordering) exampleLib 4
    (formatFull (mapAt 11))
  = Format exampleWorld exampleLib 4 (formatFull (mapAt 11)).
Proof.
  exact (proj1 (C9_rendering_is_deterministic
                  exampleWorld_wellFormed exampleReordering_reordered)
           4%nat (formatFull (mapAt 11))).
Defined.

(** * Further properties of the code *)

(** ** What a walk does to its sink *)

Lemma fold_callSink_sub cs l p d s :
  fold_left callSink cs (subSink (mkPrintEmitter l p d s))
  = subSink (mkPrintEmitter l p (match cs with [] => d | _ => true end)
               (fold_left callSink cs s)).
Proof.
  revert d s. induction cs as [|c cs IH]; intros d s; simpl; [reflexivity|].
  rewrite IH. destruct cs; reflexivity.
Qed.

Lemma fold_callSink_received cs s :
  sink_received (fold_left callSink cs s) = sink_received s ++ cs.
Proof.
  revert s. induction cs as [|c cs IH]; intro s; simpl.
  - rewrite app_nil_r. reflexivity.
  - rewrite IH, callSink_received, <- app_assoc. reflexivity.
Qed.

Lemma delivered_app e cs1 cs2 :
  delivered (delivered e cs1) cs2 = delivered e (cs1 ++ cs2).
Proof.
  destruct e as [l p d s].
  destruct cs1 as [|c1 cs1]; [reflexivity|].
  destruct cs2 as [|c2 cs2]; [rewrite app_nil_r; reflexivity|].
  unfold delivered. simpl. rewrite fold_left_app. reflexivity.
Qed.

Lemma delivered_level e cs : pe_level (delivered e cs) = pe_level e.
Proof. destruct e, cs; reflexivity. Qed.

Lemma delivered_path e cs : pe_path (delivered e cs) = pe_path e.
Proof. destruct e, cs; reflexivity. Qed.

Lemma delivered_received e cs :
  pe_received (delivered e cs) = pe_received e ++ cs.
Proof.
  destruct e as [l p d s], cs as [|c cs]; unfold pe_received; simpl.
  - rewrite app_nil_r. reflexivity.
  - rewrite fold_callSink_received, callSink_received, <- app_assoc. reflexivity.
Qed.

Lemma delivered_did e cs :
  pe_did (delivered e cs) = match cs with [] => pe_did e | _ => true end.
Proof. destruct e, cs; reflexivity. Qed.

Lemma below_delivered e cs c : below (delivered e cs) c <-> below e c.
Proof. unfold below. rewrite delivered_level, delivered_path. reflexivity. Qed.

Lemma emitf_delivered (e : printEmitter) av bv format arg e' :
  emitf (Print e) av bv format arg = Ok e' ->
  exists c, e' = Print (delivered e [c]) /\ lineAt (pe_level e) (pe_path e) c.
Proof.
  destruct e as [l p d s]. simpl. intro H.
  destruct l; try discriminate H; injection H as <-;
    (eexists; split; [reflexivity|]); simpl; eauto.
Qed.

Lemma walk_delivered W L fuel d (pe : printEmitter) av bv xformOk wantType d' e' :
  walk W L fuel d (Print pe) av bv xformOk wantType = Ok (d', e') ->
  exists cs, e' = Print (delivered pe cs) /\ Forall (below pe) cs.
Proof.
  intro H.
  refine (walk_rel W L (fun s s' =>
            forall pe, snd s = Print pe ->
              exists cs, snd s' = Print (delivered pe cs) /\ Forall (below pe) cs)
            _ _ _ _ _ fuel d (Print pe) av bv xformOk wantType H pe eq_refl).
  - intros s e E. exists []. split; [exact E | constructor].
  - intros s1 s2 s3 H12 H23 e E.
    destruct (H12 e E) as (cs1 & E2 & F1).
    destruct (H23 _ E2) as (cs2 & E3 & F2).
    exists (cs1 ++ cs2). rewrite delivered_app in E3. split; [exact E3|].
    apply Forall_app. split; [exact F1|].
    eapply Forall_impl; [|exact F2]. intros c. apply below_delivered.
  - intros d0 e0 av0 bv0 format arg e1 Hemit e E. simpl in *. subst e0.
    apply emitf_delivered in Hemit. destruct Hemit as (c & -> & Hc).
    exists [c]. split; [reflexivity|]. constructor; [|constructor].
    exists []. rewrite app_nil_r. exact Hc.
  - intros d0 e0 a b _ _ e E. exists []. split; [exact E | constructor].
  - intros fuel0 d0 e0 format arg c d1 c1 Hs Hc e E. simpl in *. subst e0.
    simpl in Hs. apply bind_Ok in Hs. destruct Hs as (cpe & Es & Hs).
    injection Hs as <-. unfold printEmitter_subf in Es.
    apply bind_Ok in Es. destruct Es as (seg & _ & Es). injection Es as <-.
    destruct (Hc _ eq_refl) as (cs & -> & F).
    exists cs. split.
    + destruct e as [l p dd s]. destruct cs as [|c cs]; [reflexivity|].
      unfold delivered. cbn [pe_level pe_path pe_sink resume].
      rewrite fold_callSink_sub. reflexivity.
    + eapply Forall_impl; [|exact F]. intros c (segs & Hl).
      exists (seg :: segs). cbn [pe_level pe_path] in Hl.
      rewrite <- app_assoc in Hl. exact Hl.
Qed.

(** X1.  A walk changes its textual sink only by calling it: the sink it
    returns has the level and the path of the sink it was given, the caller
    has received what it had received before followed by the calls of the
    walk, and the flag [did] is the old flag unless a call was made, in which
    case it is set.  So after a comparison [didEmit] of the root sink is true
    exactly when the caller has received a call. *)
Theorem X1_walk_only_appends_calls (W : reflect.world) (L : lib) :
  (forall fuel d (e : printEmitter) av bv xformOk wantType d' e',
     walk W L fuel d (Print e) av bv xformOk wantType = Ok (d', e') ->
     exists e1 cs,
       e' = Print e1 /\
       pe_level e1 = pe_level e /\ pe_path e1 = pe_path e /\
       pe_received e1 = pe_received e ++ cs /\
       pe_did e1 = match cs with [] => pe_did e | _ :: _ => true end) /\
  (forall fuel c a b d e,
     each W L fuel c a b = Ok (d, e) ->
     didEmit e = match received e with [] => false | _ :: _ => true end).
Proof.
  split.
  - intros fuel d e av bv xformOk wantType d' e' H.
    apply walk_delivered in H. destruct H as (cs & -> & _).
    exists (delivered e cs), cs.
    split; [reflexivity|]. split; [apply delivered_level|].
    split; [apply delivered_path|]. split; [apply delivered_received|].
    apply delivered_did.
  - intros fuel c a b d e H. unfold each in H.
    apply walk_delivered in H. destruct H as (cs & -> & _).
    simpl. unfold printEmitter_didEmit.
    rewrite delivered_did, delivered_received. simpl.
    destruct cs; reflexivity.
Qed.

Lemma X1_witness :
  exists d e,
    each exampleWorld exampleLib 3 exampleConfig (nodeAt 1) (nodeAt 3)
    = Ok (d, e) /\
    didEmit e = match received e with [] => false | _ :: _ => true end.
Proof.
  eexists _, _. split; [vm_compute; reflexivity|].
  eapply (proj2 (X1_walk_only_appends_calls exampleWorld exampleLib)
            3%nat exampleConfig (nodeAt 1) (nodeAt 3)).
  vm_compute. reflexivity.
Defined.

(** X2.  Every call a walk makes through a textual sink is the call
    [emitf] makes at the level of the sink for the path of the sink or for a
    path that extends it. *)
Theorem X2_lines_carry_the_path (W : reflect.world) (L : lib)
  fuel d (e : printEmitter) av bv xformOk wantType d' e' :
  walk W L fuel d (Print e) av bv xformOk wantType = Ok (d', e') ->
  exists cs,
    received e' = pe_received e ++ cs /\
    Forall (fun c => exists segs, lineAt (pe_level e) (pe_path e ++ segs) c) cs.
Proof.
  intro H. apply walk_delivered in H. destruct H as (cs & -> & F).
  exists cs. split; [apply delivered_received | exact F].
Qed.

Lemma X2_witness :
  exists d' e',
    walk exampleWorld exampleLib 3 (fresh exampleConfig)
      (Print (mkPrintEmitter level.pathOnly ["root"] false (callerSink [])))
      (nodeAt 1) (nodeAt 3) true true = Ok (d', e') /\
    exists cs,
      received e' = [] ++ cs /\
      Forall (fun c => exists segs, lineAt level.pathOnly (["root"] ++ segs) c) cs.
Proof.
  eexists _, _. split; [vm_compute; reflexivity|].
  eapply (@X2_lines_carry_the_path exampleWorld exampleLib 3 (fresh exampleConfig)
            (mkPrintEmitter level.pathOnly ["root"] false (callerSink []))
            (nodeAt 1) (nodeAt 3) true true).
  vm_compute. reflexivity.
Defined.

(** ** The counting sink counts the calls of the textual sink *)

Lemma tally_refl e k : tally e e k k.
Proof. unfold tally. lia. Qed.

Lemma tally_trans e1 e2 e3 k1 k2 k3 :
  tally e1 e2 k1 k2 -> tally e2 e3 k2 k3 -> tally e1 e3 k1 k3.
Proof. unfold tally. lia. Qed.

Lemma emitf_tally (e : printEmitter) k av bv format arg e' :
  emitf (Print e) av bv format arg = Ok e' ->
  exists pe', e' = Print pe' /\
    tally e pe' k (countEmitter_emitf k av bv format arg).
Proof.
  intro H. apply emitf_delivered in H. destruct H as (c & -> & _).
  eexists. split; [reflexivity|]. unfold tally.
  rewrite delivered_received, length_app. simpl. lia.
Qed.

Section Counts.

Variable W : reflect.world.
Variable L : lib.

Lemma subf_child fuel (e : printEmitter) format arg c :
  subf W L fuel (Print e) format arg = Ok c ->
  exists ce, c = Print ce /\ pe_received ce = pe_received e.
Proof.
  simpl. unfold printEmitter_subf. intro H.
  apply bind_Ok in H. destruct H as (x & E & H). injection H as <-.
  apply bind_Ok in E. destruct E as (seg & _ & E). injection E as <-.
  eexists. split; [reflexivity|]. destruct e. reflexivity.
Qed.

Lemma emitSub_counts fuel format arg x y msg e k :
  countsE e k (emitSub W L fuel format arg x y msg (Print e))
              (emitSub W L fuel format arg x y msg (Count k)).
Proof.
  intros e' H. unfold emitSub in *.
  apply bind_Ok in H. destruct H as (c & Ec & H).
  apply bind_Ok in H. destruct H as (xv & -> & H).
  apply bind_Ok in H. destruct H as (yv & -> & H).
  apply bind_Ok in H. destruct H as (c1 & E1 & H). injection H as <-.
  destruct (@subf_child fuel _ format arg _ Ec) as (ce & -> & Rc).
  pose proof (@emitf_later _ _ _ _ _ _ E1) as L1.
  destruct (@emitf_tally _ k _ _ _ _ _ E1) as (pe1 & -> & T1).
  pose proof (@resume_received W L fuel _ format arg _ _ Ec L1) as Rr.
  pose proof (@subf_resume W L fuel _ format arg _ _ Ec L1) as L2.
  destruct (resume (Print e) (Print pe1)) as [pr|] eqn:Er; [|contradiction].
  exists pr, (countEmitter_emitf k xv yv (fst (msg xv yv)) (snd (msg xv yv))).
  split; [exact Er|]. split; [reflexivity|].
  unfold tally in *. simpl in Rr. rewrite Rr, <- Rc. exact T1.
Qed.

Lemma forRange_countsE {A} (xs : list A) (body : A -> emitfer -> result emitfer) :
  (forall x e k, countsE e k (body x (Print e)) (body x (Count k))) ->
  forall e k, countsE e k (forRange xs body (Print e)) (forRange xs body (Count k)).
Proof.
  intro H. induction xs as [|x xs IH]; intros e k e' E; simpl in *.
  - injection E as <-. exists e, k. auto using tally_refl.
  - apply bind_Ok in E. destruct E as (e1 & E1 & E2).
    destruct (H x e k _ E1) as (pe1 & k1 & -> & -> & T1). simpl.
    destruct (IH pe1 k1 _ E2) as (pe2 & k2 & -> & -> & T2).
    exists pe2, k2. eauto using tally_trans.
Qed.

Lemma forRange_countsS {A} (xs : list A) (body : A -> state -> result state) :
  (forall x d e k, plain d ->
     countsS d e k (body x (d, Print e)) (body x (d, Count k))) ->
  forall d e k, plain d ->
    countsS d e k (forRange xs body (d, Print e)) (forRange xs body (d, Count k)).
Proof.
  intro H. induction xs as [|x xs IH]; intros d e k P d' e' E; simpl in *.
  - injection E as <- <-. exists e, k. auto using tally_refl.
  - apply bind_Ok in E. destruct E as ([d1 e1] & E1 & E2).
    destruct (H x d e k P _ _ E1) as (pe1 & k1 & -> & C1 & -> & T1). simpl.
    assert (P1 : plain d1) by (unfold plain in *; rewrite C1; exact P).
    destruct (IH d1 pe1 k1 P1 _ _ E2) as (pe2 & k2 & -> & C2 & -> & T2).
    exists pe2, k2. split; [reflexivity|]. split; [congruence|].
    eauto using tally_trans.
Qed.

Section Step.

Variable wk : walker.
Hypothesis wk_later : forall d e av bv xo wt d' e',
  wk d e av bv xo wt = Ok (d', e') -> later e e'.
Hypothesis wk_counts : forall d e k av bv xo wt, plain d ->
  countsS d e k (wk d (Print e) av bv xo wt) (wk d (Count k) av bv xo wt).

Lemma walkSub_counts fuel format arg x y d e k :
  plain d ->
  countsS d e k (walkSub W L wk fuel format arg x y (d, Print e))
                (walkSub W L wk fuel format arg x y (d, Count k)).
Proof.
  intros P d' e' H. unfold walkSub in *.
  apply bind_Ok in H. destruct H as (c & Ec & H).
  apply bind_Ok in H. destruct H as (xv & -> & H).
  apply bind_Ok in H. destruct H as (yv & -> & H).
  apply bind_Ok in H. destruct H as ([d1 c1] & E1 & H). injection H as <- <-.
  destruct (@subf_child fuel _ format arg _ Ec) as (ce & -> & Rc).
  pose proof (@wk_later _ _ _ _ _ _ _ _ E1) as L1.
  destruct (@wk_counts d ce k xv yv true false P _ _ E1) as (pe1 & k1 & -> & C1 & Ek & T1).
  pose proof (@resume_received W L fuel _ format arg _ _ Ec L1) as Rr.
  pose proof (@subf_resume W L fuel _ format arg _ _ Ec L1) as L2.
  destruct (resume (Print e) (Print pe1)) as [pr|] eqn:Er; [|contradiction].
  exists pr, k1. split; [exact Er|]. split; [exact C1|].
  cbn [subf countEmitter_subf bind]. unfold countEmitter_subf.
  rewrite Ek. cbn [bind resume]. split; [reflexivity|].
  unfold tally in *. simpl in Rr. rewrite Rr, <- Rc. exact T1.
Qed.

Lemma countsS_Next d e k mp mc :
  countsS d e k mp mc ->
  countsC d e k (s <- mp ;; Ok (Next s)) (s <- mc ;; Ok (Next s)).
Proof.
  intros S c H. apply bind_Ok in H. destruct H as ([d1 g1] & E & H).
  injection H as <-.
  destruct (S _ _ E) as (pe' & k' & -> & C & -> & T).
  exists pe', k'. auto.
Qed.

(** [H] is [e <- emitf (Print e) ... ;; k e]. *)
Ltac count_emit H :=
  let g1 := fresh "g" in
  let Eg := fresh "Eg" in
  let pe1 := fresh "pe" in
  let T := fresh "T" in
  apply bind_Ok in H; destruct H as (g1 & Eg & H);
  eapply emitf_tally in Eg; destruct Eg as (pe1 & -> & T);
  cbn [emitf bind].

Ltac count_pure H :=
  let E := fresh "E" in
  apply bind_Ok in H; destruct H as (? & E & H); rewrite E; cbn [bind].

Ltac count_done H :=
  injection H as <-; try subst;
  eexists _, _; repeat (split; [reflexivity|]);
  first [ eassumption | apply tally_refl ].

Lemma walkKind_counts fuel d e k av bv t wantType :
  plain d ->
  countsC d e k (walkKind W L wk fuel d (Print e) av bv t wantType)
                (walkKind W L wk fuel d (Count k) av bv t wantType).
Proof.
  intros P c H. unfold walkKind, emitPointers, eqtest in *.
  destruct (reflect.KindOf W t).
  all: try discriminate H.
  all: repeat first
    [ match type of H with
      | bind (emitf _ _ _ _ _) _ = Ok _ => count_emit H
      | bind (forIndex _ _ _) _ = Ok _ => fail 1
      | bind (forRange _ _ _) _ = Ok _ => fail 1
      | bind (wk _ _ _ _ _ _) _ = Ok _ => fail 1
      | bind (if ?c then _ else _) _ = Ok _ => destruct c eqn:?
      | bind (Ok _) _ = Ok _ => progress cbn [bind] in H |- *
      | bind _ _ = Ok _ => count_pure H
      | (if ?c then _ else _) = Ok _ => destruct c eqn:?
      | Ok _ = Ok _ => count_done H
      end ].
  - (* Array *)
    revert c H. apply countsS_Next. apply forRange_countsS; [|exact P].
    intros i d0 e0 k0 P0. apply walkSub_counts. exact P0.
  - (* Interface *)
    revert c H. apply countsS_Next. apply wk_counts. exact P.
  - (* Map *)
    destruct x3 as [[ak both] bk].
    apply bind_Ok in H. destruct H as (e1 & Hak & H).
    apply bind_Ok in H. destruct H as ([d2 e2] & Hboth & H).
    apply bind_Ok in H. destruct H as (e3 & Hbk & H).
    injection H as <-.
    eapply forRange_countsE with (k := k) in Hak;
      [|intros k0 e0 k1; apply emitSub_counts].
    destruct Hak as (pe1 & k1 & -> & -> & T1). cbn [bind].
    eapply forRange_countsS with (k := k1) in Hboth;
      [|intros k0 d0 e0 k2 P0; apply walkSub_counts; exact P0|exact P].
    destruct Hboth as (pe2 & k2 & -> & C2 & -> & T2). cbn [bind].
    eapply forRange_countsE with (k := k2) in Hbk;
      [|intros k0 e0 k3; apply emitSub_counts].
    destruct Hbk as (pe3 & k3 & -> & -> & T3). cbn [bind].
    exists pe3, k3. repeat (split; [first [reflexivity | exact C2]|]).
    eauto using tally_trans.
  - (* Ptr *)
    revert c H. apply countsS_Next. apply wk_counts. exact P.
  - (* Slice *)
    revert c H. apply countsS_Next. apply forRange_countsS; [|exact P].
    intros i d0 e0 k0 P0. apply walkSub_counts. exact P0.
  - (* Struct *)
    revert c H. apply countsS_Next. apply forRange_countsS; [|exact P].
    intros i d0 e0 k0 P0 d' g' H.
    count_pure H. revert d' g' H. apply walkSub_counts. exact P0.
Qed.

Lemma checkCycles_counts d e k av bv t c :
  checkCycles W d (Print e) av bv t = Ok c ->
  match c with
  | Return d' e' =>
      exists pe' k', e' = Print pe' /\ cfg d' = cfg d /\
        checkCycles W d (Count k) av bv t = Ok (Return d' (Count k')) /\
        tally e pe' k k'
  | Next d' => cfg d' = cfg d /\ checkCycles W d (Count k) av bv t = Ok (Next d')
  end.
Proof.
  intros H. unfold checkCycles in *.
  destruct (reflect.KindOf W t).
  all: repeat first
    [ match type of H with
      | bind (emitf _ _ _ _ _) _ = Ok _ => count_emit H
      | bind _ _ = Ok _ => count_pure H
      | (if ?c then _ else _) = Ok _ => destruct c eqn:?
      | match ?c with Some _ => _ | None => _ end = Ok _ => destruct c eqn:?
      | Ok (Return _ _) = Ok _ => count_done H
      | Ok (Next _) = Ok _ => injection H as <-; split; reflexivity
      end ].
Qed.

Lemma walkBody_counts fuel d e k av bv xo wt :
  plain d ->
  countsS d e k (walkBody W L wk fuel d (Print e) av bv xo wt)
                (walkBody W L wk fuel d (Count k) av bv xo wt).
Proof.
  intros P d' g' H. unfold walkBody in *.
  destruct (negb (reflect.IsValid av) && negb (reflect.IsValid bv)).
  { injection H as <- <-. exists e, k. auto using tally_refl. }
  destruct (negb (reflect.IsValid av)).
  { count_emit H. injection H as <- <-. eauto 10. }
  destruct (negb (reflect.IsValid bv)).
  { count_emit H. injection H as <- <-. eauto 10. }
  count_pure H. count_pure H.
  destruct (negb (reflect.rtype_eqb x x0)).
  { count_emit H. injection H as <- <-. eauto 10. }
  apply bind_Ok in H. destruct H as (c1 & Hc & H).
  pose proof (@checkCycles_counts d e k av bv x c1 Hc) as Ec.
  destruct c1 as [d1 g1|d1].
  { injection H as <- <-.
    destruct Ec as (pe' & k' & -> & C & -> & T). exists pe', k'. auto. }
  destruct Ec as [C1 Ec]. rewrite Ec. cbn [bind].
  assert (P1 : plain d1) by (unfold plain in *; rewrite C1; exact P).
  destruct (@no_hooks_checks wk d1 (Print e) av bv x xo (proj1 P1) (proj2 P1))
    as [Hx Hf].
  destruct (@no_hooks_checks wk d1 (Count k) av bv x xo (proj1 P1) (proj2 P1))
    as [Hx' Hf'].
  rewrite Hx in H. rewrite Hx'. cbn [bind] in *.
  rewrite Hf in H. rewrite Hf'. cbn [bind] in *.
  apply bind_Ok in H. destruct H as (c4 & Hk & H).
  pose proof (@walkKind_counts fuel d1 e k av bv x wt P1 c4 Hk) as Ek.
  destruct c4 as [d4 g4|[d4 g4]].
  { injection H as <- <-.
    destruct Ek as (pe' & k' & -> & C & -> & T). exists pe', k'.
    repeat split; auto. congruence. }
  destruct Ek as (pe' & k' & -> & C & -> & T). cbn [bind].
  rewrite walkXformed_false in H. rewrite walkXformed_false.
  injection H as <- <-. exists pe', k'. repeat split; auto. congruence.
Qed.

End Step.

Lemma walk_counts fuel : forall d e k av bv xo wt,
  plain d ->
  countsS d e k (walk W L fuel d (Print e) av bv xo wt)
                (walk W L fuel d (Count k) av bv xo wt).
Proof.
  induction fuel as [|fuel IH]; intros d e k av bv xo wt P.
  - intros d' g' H. discriminate H.
  - simpl. apply walkBody_counts; try assumption.
    intros. eapply walk_later; eauto.
Qed.

End Counts.



(** ** The same walk with two sinks and two levels *)

Section WalkSim.

Variable W : reflect.world.
Variable L : lib.

(** The level in the configuration of the second walk. *)
Variable l : level.t.

(** A relation between sinks carries over from the start of a walk to its
    end as soon as related sinks agree on [didEmit], emit to related sinks,
    and make related children that hand related parents back; the walker
    itself never reads the level of its configuration. *)
Variable Q : emitfer -> emitfer -> Prop.

Hypothesis Q_count : Q (Count {| n := 0 |}) (Count {| n := 0 |}).
Hypothesis Q_did : forall e1 e2, Q e1 e2 -> didEmit e1 = didEmit e2.
Hypothesis Q_emit :
  forall e1 e2 av bv format arg,
    Q e1 e2 -> simE Q (emitf e1 av bv format arg) (emitf e2 av bv format arg).
Hypothesis Q_sub :
  forall fuel e1 e2 format arg c1,
    Q e1 e2 -> subf W L fuel e1 format arg = Ok c1 ->
    exists c2, subf W L fuel e2 format arg = Ok c2 /\ Q c1 c2 /\
      forall c1' c2', later c1 c1' -> Q c1' c2' ->
        Q (resume e1 c1') (resume e2 c2').

Lemma emitSub_sim fuel format arg x y msg e1 e2 :
  Q e1 e2 ->
  simE Q (emitSub W L fuel format arg x y msg e1)
         (emitSub W L fuel format arg x y msg e2).
Proof.
  intros H e1' E. unfold emitSub in *.
  apply bind_Ok in E. destruct E as (c1 & Ec & E).
  destruct (Q_sub _ _ _ H Ec) as (c2 & -> & Hc & Hr). cbn [bind].
  apply bind_Ok in E. destruct E as (xv & -> & E).
  apply bind_Ok in E. destruct E as (yv & -> & E). cbn [bind].
  apply bind_Ok in E. destruct E as (c1' & E1 & E). injection E as <-.
  destruct (Q_emit _ _ _ _ Hc E1) as (c2' & -> & Hc'). cbn [bind].
  eexists. split; [reflexivity|]. apply Hr; [|exact Hc'].
  eapply emitf_later; eauto.
Qed.

Lemma forRange_simE {A} (xs : list A) (body : A -> emitfer -> result emitfer) :
  (forall x e1 e2, Q e1 e2 -> simE Q (body x e1) (body x e2)) ->
  forall e1 e2, Q e1 e2 -> simE Q (forRange xs body e1) (forRange xs body e2).
Proof.
  intro H. induction xs as [|x xs IH]; intros e1 e2 He e1' E; simpl in *.
  - injection E as <-. eauto.
  - apply bind_Ok in E. destruct E as (a1 & E1 & E2).
    destruct (H x e1 e2 He _ E1) as (a2 & -> & Ha). cbn [bind].
    eapply IH; eauto.
Qed.

Lemma forRange_simS {A} (xs : list A) (body : A -> state -> result state) :
  (forall x d e1 e2, Q e1 e2 ->
     simS Q l (body x (d, e1)) (body x (withLevel l d, e2))) ->
  forall d e1 e2, Q e1 e2 ->
    simS Q l (forRange xs body (d, e1)) (forRange xs body (withLevel l d, e2)).
Proof.
  intro H. induction xs as [|x xs IH]; intros d e1 e2 He d' e1' E; simpl in *.
  - injection E as <- <-. eauto.
  - apply bind_Ok in E. destruct E as ([d1 a1] & E1 & E2).
    destruct (H x d e1 e2 He _ _ E1) as (a2 & -> & Ha). cbn [bind].
    eapply IH; eauto.
Qed.

Section Step.

Variable wk : walker.
Hypothesis wk_later : forall d e av bv xo wt d' e',
  wk d e av bv xo wt = Ok (d', e') -> later e e'.
Hypothesis wk_sim : forall d e1 e2 av bv xo wt, Q e1 e2 ->
  simS Q l (wk d e1 av bv xo wt) (wk (withLevel l d) e2 av bv xo wt).

(** The comparison on the side: its own configuration copies the level,
    which the counting sink never sees. *)
Lemma equalWith_sim d av bv r :
  equalWith wk d av bv = Ok r -> equalWith wk (withLevel l d) av bv = Ok r.
Proof.
  unfold equalWith. intro H.
  apply bind_Ok in H. destruct H as ([d1 e1] & E & H). injection H as <-.
  apply (@wk_sim _ _ _ av bv true true Q_count) in E.
  destruct E as (e2 & E & He).
  change (wk {| cfg := {| level := l;
                          equalFuncs := equalFuncs (cfg d);
                          xform := []; format := [] |};
                aSeen := []; bSeen := [] |}
             (Count {| n := 0 |}) av bv true true
          = Ok (withLevel l d1, e2)) in E.
  change (level (cfg (withLevel l d))) with l.
  change (equalFuncs (cfg (withLevel l d))) with (equalFuncs (cfg d)).
  rewrite E. cbn [bind]. rewrite (Q_did He). reflexivity.
Qed.

Lemma walkSub_sim fuel format arg x y d e1 e2 :
  Q e1 e2 ->
  simS Q l (walkSub W L wk fuel format arg x y (d, e1))
           (walkSub W L wk fuel format arg x y (withLevel l d, e2)).
Proof.
  intros H d' e1' E. unfold walkSub in *.
  apply bind_Ok in E. destruct E as (c1 & Ec & E).
  destruct (Q_sub _ _ _ H Ec) as (c2 & -> & Hc & Hr). cbn [bind].
  apply bind_Ok in E. destruct E as (xv & -> & E).
  apply bind_Ok in E. destruct E as (yv & -> & E). cbn [bind].
  apply bind_Ok in E. destruct E as ([d1 c1'] & E1 & E). injection E as <- <-.
  destruct (@wk_sim d c1 c2 xv yv true false Hc _ _ E1) as (c2' & -> & Hc').
  cbn [bind]. eexists. split; [reflexivity|]. apply Hr; [|exact Hc'].
  eapply wk_later; eauto.
Qed.

Lemma simS_Next m1 m2 :
  simS Q l m1 m2 ->
  simC Q l (s <- m1 ;; Ok (Next s)) (s <- m2 ;; Ok (Next s)).
Proof.
  intros S c H. apply bind_Ok in H. destruct H as ([d1 g1] & E & H).
  injection H as <-.
  destruct (S _ _ E) as (e2' & -> & H2). simpl. eauto.
Qed.

(** [H] is [e <- emitf e1 ... ;; k e]. *)
Ltac sim2_emit HQ H :=
  let g1 := fresh "g" in
  let Eg := fresh "Eg" in
  let g2 := fresh "g" in
  let HQ' := fresh "HQ" in
  apply bind_Ok in H; destruct H as (g1 & Eg & H);
  destruct (Q_emit _ _ _ _ HQ Eg) as (g2 & -> & HQ');
  cbn [bind].

Ltac sim2_pure H :=
  let E := fresh "E" in
  apply bind_Ok in H; destruct H as (? & E & H); rewrite E; cbn [bind].

Ltac sim2_equal H :=
  let E := fresh "E" in
  apply bind_Ok in H; destruct H as (? & E & H);
  apply equalWith_sim in E; rewrite E; cbn [bind].

Ltac sim2_done H :=
  injection H as <-; try subst; eexists; split; [reflexivity | eassumption].

Lemma walkKind_sim fuel d e1 e2 av bv t wantType :
  Q e1 e2 ->
  simC Q l (walkKind W L wk fuel d e1 av bv t wantType)
           (walkKind W L wk fuel (withLevel l d) e2 av bv t wantType).
Proof.
  intros HQ c H. unfold walkKind, emitPointers, eqtest in *.
  change (equalFuncs (cfg (withLevel l d))) with (equalFuncs (cfg d)).
  destruct (reflect.KindOf W t).
  all: try discriminate H.
  all: repeat first
    [ match type of H with
      | bind (emitf _ _ _ _ _) _ = Ok _ => sim2_emit HQ H
      | bind (forIndex _ _ _) _ = Ok _ => fail 1
      | bind (forRange _ _ _) _ = Ok _ => fail 1
      | bind (wk _ _ _ _ _ _) _ = Ok _ => fail 1
      | bind (if ?c then _ else _) _ = Ok _ => destruct c eqn:?
      | bind (Ok _) _ = Ok _ => progress cbn [bind] in H |- *
      | bind _ _ = Ok _ => sim2_pure H
      | (if ?c then _ else _) = Ok _ => destruct c eqn:?
      | Ok _ = Ok _ => sim2_done H
      end ].
  - (* Array *)
    revert c H. apply simS_Next. apply forRange_simS; [|exact HQ].
    intros i d0 a1 a2 Ha. apply walkSub_sim. exact Ha.
  - (* Interface *)
    revert c H. apply simS_Next. apply wk_sim. exact HQ.
  - (* Map *)
    destruct x3 as [[ak both] bk].
    apply bind_Ok in H. destruct H as (a1 & Hak & H).
    apply bind_Ok in H. destruct H as ([d2 b1] & Hboth & H).
    apply bind_Ok in H. destruct H as (c1 & Hbk & H).
    injection H as <-.
    eapply forRange_simE with (e2 := e2) in Hak;
      [|intros k0 y1 y2 Hy; apply emitSub_sim; exact Hy|exact HQ].
    destruct Hak as (a2 & -> & Ha). cbn [bind].
    eapply forRange_simS with (e2 := a2) in Hboth;
      [|intros k0 d0 y1 y2 Hy; apply walkSub_sim; exact Hy|exact Ha].
    destruct Hboth as (b2 & -> & Hb). cbn [bind].
    eapply forRange_simE with (e2 := b2) in Hbk;
      [|intros k0 y1 y2 Hy; apply emitSub_sim; exact Hy|exact Hb].
    destruct Hbk as (c2 & -> & Hc). cbn [bind]. eauto.
  - (* Ptr *)
    revert c H. apply simS_Next. apply wk_sim. exact HQ.
  - (* Slice *)
    revert c H. apply simS_Next. apply forRange_simS; [|exact HQ].
    intros i d0 a1 a2 Ha. apply walkSub_sim. exact Ha.
  - (* Struct *)
    revert c H. apply simS_Next. apply forRange_simS; [|exact HQ].
    intros i d0 a1 a2 Ha d' g' H.
    sim2_pure H. revert d' g' H. apply walkSub_sim. exact Ha.
Qed.

Lemma checkCycles_sim d e1 e2 av bv t c :
  Q e1 e2 ->
  checkCycles W d e1 av bv t = Ok c ->
  match c with
  | Return d' e1' =>
      exists e2', checkCycles W (withLevel l d) e2 av bv t
                  = Ok (Return (withLevel l d') e2') /\ Q e1' e2'
  | Next d' =>
      checkCycles W (withLevel l d) e2 av bv t = Ok (Next (withLevel l d'))
  end.
Proof.
  intros HQ H. unfold checkCycles in *.
  change (aSeen (withLevel l d)) with (aSeen d).
  change (bSeen (withLevel l d)) with (bSeen d).
  destruct (reflect.KindOf W t).
  all: repeat first
    [ match type of H with
      | bind (emitf _ _ _ _ _) _ = Ok _ => sim2_emit HQ H
      | bind _ _ = Ok _ => sim2_pure H
      | (if ?c then _ else _) = Ok _ => destruct c eqn:?
      | match ?c with Some _ => _ | None => _ end = Ok _ => destruct c eqn:?
      | Ok (Return _ _) = Ok _ => sim2_done H
      | Ok (Next _) = Ok _ => injection H as <-; reflexivity
      end ].
Qed.

Lemma checkXform_sim d e1 e2 av bv t xo c :
  Q e1 e2 ->
  checkXform wk d e1 av bv t xo = Ok c ->
  match c with
  | Return d' e1' =>
      exists e2', checkXform wk (withLevel l d) e2 av bv t xo
                  = Ok (Return (withLevel l d') e2') /\ Q e1' e2'
  | Next x => checkXform wk (withLevel l d) e2 av bv t xo = Ok (Next x)
  end.
Proof.
  intros HQ H. unfold checkXform in *.
  change (xform (cfg (withLevel l d))) with (xform (cfg d)).
  repeat first
    [ match type of H with
      | bind (equalWith _ _ _ _) _ = Ok _ => sim2_equal H
      | bind _ _ = Ok _ => sim2_pure H
      | (if ?c then _ else _) = Ok _ => destruct c eqn:?
      | match ?c with Some _ => _ | None => _ end = Ok _ => destruct c eqn:?
      | Ok (Return _ _) = Ok _ => sim2_done H
      | Ok (Next _) = Ok _ => injection H as <-; reflexivity
      end ].
Qed.

Lemma checkFormat_sim d e1 e2 av bv t c :
  Q e1 e2 ->
  checkFormat wk d e1 av bv t = Ok c ->
  match c with
  | Return d' e1' =>
      exists e2', checkFormat wk (withLevel l d) e2 av bv t
                  = Ok (Return (withLevel l d') e2') /\ Q e1' e2'
  | Next x => checkFormat wk (withLevel l d) e2 av bv t = Ok (Next x)
  end.
Proof.
  intros HQ H. unfold checkFormat in *.
  change (format (cfg (withLevel l d))) with (format (cfg d)).
  repeat first
    [ match type of H with
      | bind (equalWith _ _ _ _) _ = Ok _ => sim2_equal H
      | bind (emitf _ _ _ _ _) _ = Ok _ => sim2_emit HQ H
      | bind _ _ = Ok _ => sim2_pure H
      | (if ?c then _ else _) = Ok _ => destruct c eqn:?
      | match ?c with Some _ => _ | None => _ end = Ok _ => destruct c eqn:?
      | Ok (Return _ _) = Ok _ => sim2_done H
      | Ok (Next _) = Ok _ => injection H as <-; reflexivity
      end ].
Qed.

Lemma walkXformed_sim fuel d e1 e2 av bv hx ax bx :
  Q e1 e2 ->
  simS Q l (walkXformed W L wk fuel (d, e1) av bv hx ax bx)
           (walkXformed W L wk fuel (withLevel l d, e2) av bv hx ax bx).
Proof.
  intros HQ d' e1' H. unfold walkXformed in *.
  rewrite <- (Q_did HQ). destruct (hx && negb (didEmit e1)).
  - sim2_emit HQ H.
    apply bind_Ok in H. destruct H as (c1 & Ec & H).
    destruct (Q_sub _ _ _ HQ0 Ec) as (c2 & -> & Hc & Hr). cbn [bind].
    apply bind_Ok in H. destruct H as ([d1 c1'] & Ew & H).
    injection H as <- <-.
    destruct (@wk_sim d c1 c2 ax bx false true Hc _ _ Ew) as (c2' & -> & Hc').
    cbn [bind]. eexists. split; [reflexivity|]. apply Hr; [|exact Hc'].
    eapply wk_later; eauto.
  - injection H as <- <-. eauto.
Qed.

Lemma walkBody_sim fuel d e1 e2 av bv xo wt :
  Q e1 e2 ->
  simS Q l (walkBody W L wk fuel d e1 av bv xo wt)
           (walkBody W L wk fuel (withLevel l d) e2 av bv xo wt).
Proof.
  intros HQ d' e1' H. unfold walkBody in *.
  destruct (negb (reflect.IsValid av) && negb (reflect.IsValid bv)).
  { injection H as <- <-. eauto. }
  destruct (negb (reflect.IsValid av)).
  { sim2_emit HQ H. injection H as <- <-. eauto. }
  destruct (negb (reflect.IsValid bv)).
  { sim2_emit HQ H. injection H as <- <-. eauto. }
  sim2_pure H. sim2_pure H.
  destruct (negb (reflect.rtype_eqb x x0)).
  { sim2_emit HQ H. injection H as <- <-. eauto. }
  apply bind_Ok in H. destruct H as (c1 & Hc & H).
  pose proof (@checkCycles_sim d e1 e2 av bv x c1 HQ Hc) as Ec.
  destruct c1 as [d1 g1|d1].
  { injection H as <- <-. destruct Ec as (g2 & -> & Hg). cbn [bind]. eauto. }
  rewrite Ec. cbn [bind].
  apply bind_Ok in H. destruct H as (c2 & Hx & H).
  pose proof (@checkXform_sim d1 e1 e2 av bv x xo c2 HQ Hx) as Ex.
  destruct c2 as [d2 g2|[[hx ax] bx]].
  { injection H as <- <-. destruct Ex as (g2' & -> & Hg). cbn [bind]. eauto. }
  rewrite Ex. cbn [bind].
  apply bind_Ok in H. destruct H as (c3 & Hf & H).
  pose proof (@checkFormat_sim d1 e1 e2 av bv x c3 HQ Hf) as Ef.
  destruct c3 as [d3 g3|[]].
  { injection H as <- <-. destruct Ef as (g2' & -> & Hg). cbn [bind]. eauto. }
  rewrite Ef. cbn [bind].
  apply bind_Ok in H. destruct H as (c4 & Hk & H).
  pose proof (@walkKind_sim fuel d1 e1 e2 av bv x wt HQ c4 Hk) as Ek.
  destruct c4 as [d4 g4|[d4 g4]].
  { injection H as <- <-. destruct Ek as (g2' & -> & Hg). cbn [bind]. eauto. }
  destruct Ek as (g2' & -> & Hg). cbn [bind].
  revert d' e1' H. apply walkXformed_sim. exact Hg.
Qed.

End Step.

Lemma walk_sim fuel : forall d e1 e2 av bv xo wt,
  Q e1 e2 ->
  simS Q l (walk W L fuel d e1 av bv xo wt)
           (walk W L fuel (withLevel l d) e2 av bv xo wt).
Proof.
  induction fuel as [|fuel IH]; intros d e1 e2 av bv xo wt HQ.
  - intros d' g' H. discriminate H.
  - simpl. apply walkBody_sim; try assumption.
    intros. eapply walk_later; eauto.
Qed.

End WalkSim.

(** ** The level of the sink *)

Lemma callSink_sim l1 l2 c1 c2 s1 :
  samePath l1 l2 c1 c2 ->
  forall s2, sinkSim l1 l2 s1 s2 ->
    sinkSim l1 l2 (callSink s1 c1) (callSink s2 c2).
Proof.
  intro Hc. induction s1 as [r1|a p d s1 IH] using sink_ind_nested;
    intros [r2|[a2 p2 d2 s2]] H; simpl in *; try contradiction.
  - apply Forall2_app; [exact H|]. constructor; [exact Hc | constructor].
  - destruct H as (-> & -> & -> & -> & H). repeat split. apply IH. exact H.
Qed.

Lemma sinkSim_received l1 l2 s1 :
  forall s2, sinkSim l1 l2 s1 s2 ->
    Forall2 (samePath l1 l2) (sink_received s1) (sink_received s2).
Proof.
  induction s1 as [r1|a p d s1 IH] using sink_ind_nested;
    intros [r2|[a2 p2 d2 s2]] H; simpl in *; try contradiction.
  - exact H.
  - destruct H as (_ & _ & _ & _ & H). auto.
Qed.

Lemma levelSim_didEmit l1 l2 e1 e2 :
  levelSim l1 l2 e1 e2 -> didEmit e1 = didEmit e2.
Proof.
  destruct e1 as [[a1 p1 d1 s1]|k1], e2 as [[a2 p2 d2 s2]|k2];
    try contradiction; simpl.
  - intros (_ & _ & _ & -> & _). reflexivity.
  - intros ->. reflexivity.
Qed.

Lemma levelSim_emitf l1 l2 e1 e2 av bv format arg :
  recognized l1 -> recognized l2 -> levelSim l1 l2 e1 e2 ->
  simE (levelSim l1 l2) (emitf e1 av bv format arg) (emitf e2 av bv format arg).
Proof.
  intros R1 R2 H e1' E.
  destruct e1 as [[a1 p1 d1 s1]|k1], e2 as [[a2 p2 d2 s2]|k2];
    try contradiction.
  - simpl in H. destruct H as (-> & -> & <- & <- & Hs).
    destruct R1 as [ -> | [ -> | -> ] ], R2 as [ -> | [ -> | -> ] ];
      simpl in *; injection E as <-;
      (eexists; split; [reflexivity|]); simpl;
      (repeat split; try reflexivity);
      (apply callSink_sim; [|exact Hs]); exists p1; simpl;
      split; first [reflexivity | do 2 eexists; reflexivity].
  - simpl in H. subst k2. exists e1'. split; [exact E|].
    simpl in E. injection E as <-. reflexivity.
Qed.

Lemma levelSim_subf W L l1 l2 fuel e1 e2 format arg c1 :
  levelSim l1 l2 e1 e2 -> subf W L fuel e1 format arg = Ok c1 ->
  exists c2, subf W L fuel e2 format arg = Ok c2 /\ levelSim l1 l2 c1 c2 /\
    forall c1' c2', later c1 c1' -> levelSim l1 l2 c1' c2' ->
      levelSim l1 l2 (resume e1 c1') (resume e2 c2').
Proof.
  intros H E.
  destruct e1 as [[a1 p1 d1 s1]|k1], e2 as [[a2 p2 d2 s2]|k2];
    try contradiction.
  - pose proof H as H0.
    simpl in H. destruct H as (-> & -> & <- & <- & Hs).
    simpl in *. unfold printEmitter_subf in *.
    destruct (Sprintf W L fuel format arg) as [seg| |]; try discriminate E.
    simpl in *. injection E as <-.
    eexists. split; [reflexivity|]. split.
    + simpl. repeat split; auto.
    + intros [[b1 q1 f1 t1]|] [[b2 q2 f2 t2]|]; try contradiction.
      intros Hl Hc. simpl in Hc. destruct Hc as (_ & _ & _ & _ & Ht).
      unfold later, pe_later in Hl. simpl in Hl.
      destruct Hl as (_ & _ & _ & Hl).
      destruct t1 as [r1|[b1' q1' f1' t1']]; [contradiction|].
      destruct t2 as [r2|[b2' q2' f2' t2']]; [contradiction|].
      simpl. exact Ht.
  - simpl in H. subst k2. exists c1. split; [exact E|].
    simpl in E. injection E as <-. split; [reflexivity|].
    intros c1' c2' _ Hc. exact Hc.
Qed.

Lemma walk_levels W L l1 l2 fuel d e1 e2 av bv xo wt :
  recognized l1 -> recognized l2 -> levelSim l1 l2 e1 e2 ->
  simS (levelSim l1 l2) l2 (walk W L fuel d e1 av bv xo wt)
                           (walk W L fuel (withLevel l2 d) e2 av bv xo wt).
Proof.
  intros R1 R2 H.
  apply walk_sim; [| | | |exact H].
  - reflexivity.
  - apply levelSim_didEmit.
  - intros. apply levelSim_emitf; assumption.
  - intros. eapply levelSim_subf; eauto.
Qed.



(** ** A value compared with itself *)

Lemma fmtVerb_plain W L fuel sharp verb args :
  Forall plainArg args ->
  exists s args', fmtVerb W L fuel sharp verb args = Ok (s, args') /\
                  Forall plainArg args'.
Proof.
  intros H. destruct H as [|a args Ha Hargs]; simpl.
  - eexists _, _. split; [reflexivity | constructor].
  - destruct a; try contradiction; simpl;
      try (destruct sharp, verb as [[] [] [] [] [] [] [] []]; simpl);
      eexists _, _; (split; [reflexivity | exact Hargs]).
Qed.

(** [Sprintf] returns when no operand has a [Format] method of its own. *)
Lemma Sprintf_plain W L fuel format :
  forall args, Forall plainArg args ->
    exists s, Sprintf W L fuel format args = Ok s.
Proof.
  assert (G : forall k format, (String.length format <= k)%nat ->
            forall args, Forall plainArg args ->
              exists s, Sprintf W L fuel format args = Ok s).
  { induction k as [|k IH]; intros fmt Hk args Ha.
    - destruct fmt; [|simpl in Hk; lia]. simpl. eauto.
    - destruct fmt as [|c rest]; [simpl; eauto|]. simpl in Hk.
      destruct (ascii_dec c "%") as [->|Hc].
      + destruct rest as [|v rest']; [simpl; eauto|]. simpl in Hk.
        destruct (ascii_dec v "%") as [->|Hv].
        { rewrite Sprintf_percent.
          destruct (IH rest' ltac:(lia) args Ha) as (r & ->). simpl. eauto. }
        destruct (ascii_dec v "#") as [->|Hs].
        { destruct rest' as [|verb r'']; [simpl; eauto|]. simpl in Hk.
          rewrite Sprintf_sharp.
          destruct (fmtVerb_plain W L fuel true verb Ha) as (s & a' & -> & Ha').
          cbn [bind].
          destruct (IH r'' ltac:(lia) a' Ha') as (r & ->). simpl. eauto. }
        rewrite Sprintf_verb by assumption.
        destruct (fmtVerb_plain W L fuel false v Ha) as (s & a' & -> & Ha').
        cbn [bind].
        destruct (IH rest' ltac:(lia) a' Ha') as (r & ->). simpl. eauto.
      + rewrite Sprintf_char by assumption.
        destruct (IH rest ltac:(lia) args Ha) as (r & ->). simpl. eauto. }
  intros args Ha. eapply G; eauto.
Qed.

Lemma subf_plain W L fuel e format arg :
  Forall plainArg arg ->
  exists c, subf W L fuel e format arg = Ok c /\ resume e c = e.
Proof.
  intro Ha. destruct e as [[l p d s]|ce]; simpl.
  - unfold printEmitter_subf.
    destruct (Sprintf_plain W L fuel format Ha) as (seg & ->). simpl.
    eexists. split; reflexivity.
  - eexists. split; reflexivity.
Qed.

Lemma diagonal_register d a :
  diagonal d -> diagonal (register d a a).
Proof.
  intros [Ha Hb]. split; intros x y; simpl;
    (destruct (visit_eqb a x) eqn:E;
     [apply visit_eqb_eq in E; intros [= <-]; exact E | auto]).
Qed.

Lemma checkCycles_self W c d e t dat :
  selfTracker c d ->
  (reflect.KindOf W t = reflect.Ptr \/ reflect.KindOf W t = reflect.Map \/
   reflect.KindOf W t = reflect.Slice ->
   exists b p, reflect.IsNil (reflect.Val t dat) = Ok b /\
               reflect.PointerOf (reflect.Val t dat) = Ok p) ->
  (exists d1, checkCycles W d e (reflect.Val t dat) (reflect.Val t dat) t
              = Ok (Next d1) /\ selfTracker c d1) \/
  checkCycles W d e (reflect.Val t dat) (reflect.Val t dat) t = Ok (Return d e).
Proof.
  intros (C & P & D) Hp.
  assert (N : exists d1, Ok (Next d) = Ok (Next d1) /\ selfTracker c d1).
  { exists d. split; [reflexivity | exact (conj C (conj P D))]. }
  unfold checkCycles.
  destruct (reflect.KindOf W t); try (left; exact N).
  all: destruct Hp as (isnil & p & -> & ->); [tauto|]; cbn [bind].
  all: destruct isnil; cbn [orb]; [left; exact N|].
  all: destruct (lookupVisit {| vp := p; vt := t |} (aSeen d)) as [seen|] eqn:Ea.
  all: try (apply D in Ea; subst seen; rewrite visit_eqb_refl;
            right; reflexivity).
  all: destruct (lookupVisit {| vp := p; vt := t |} (bSeen d)) as [seen|] eqn:Eb.
  all: try (exfalso; pose proof Eb as Eb'; apply D in Eb'; subst seen;
            apply P in Eb; congruence).
  all: left; eexists; split; [reflexivity|];
    split; [exact C|]; split;
    [apply paired_register; assumption | apply diagonal_register; exact D].
Qed.

Lemma forRange_self {A} (c : config) (e : emitfer) (xs : list A)
  (body : A -> state -> result state) :
  (forall x d, In x xs -> selfTracker c d ->
     exists d', body x (d, e) = Ok (d', e) /\ selfTracker c d') ->
  forall d, selfTracker c d ->
    exists d', forRange xs body (d, e) = Ok (d', e) /\ selfTracker c d'.
Proof.
  induction xs as [|x xs IH]; intros H d T; simpl.
  - eauto.
  - destruct (H x d (or_introl eq_refl) T) as (d1 & -> & T1). cbn [bind].
    apply IH; [|exact T1]. intros y d0 Hy. apply H. right. exact Hy.
Qed.

Section SelfStep.

Variable W : reflect.world.
Variable L : lib.
Variable c : config.
Hypothesis c_plain : xform c = [] /\ format c = [].
Variable fuel : nat.
Hypothesis IH : forall v d e xo wt,
  selfEqual W (equalFuncs c) fuel v = true -> selfTracker c d ->
  exists d', walk W L fuel d e v v xo wt = Ok (d', e) /\ selfTracker c d'.

Lemma walkSub_self format arg x v d e :
  Forall plainArg arg -> x = Ok v ->
  selfEqual W (equalFuncs c) fuel v = true -> selfTracker c d ->
  exists d', walkSub W L (walk W L fuel) fuel format arg x x (d, e) = Ok (d', e) /\
             selfTracker c d'.
Proof.
  intros Ha -> Hv T. unfold walkSub.
  destruct (@subf_plain W L fuel e format arg Ha) as (ch & -> & Hr). cbn [bind].
  destruct (@IH v d ch true false Hv T) as (d' & -> & T'). cbn [bind].
  rewrite Hr. eauto.
Qed.

Lemma elements_self vs d e (x : nat -> result reflect.Value)
  (fmt : nat -> string) (arg : nat -> list farg) :
  (forall i, (i < List.length vs)%nat ->
     Forall plainArg (arg i) /\
     exists v, x i = Ok v /\ nth_error vs i = Some v) ->
  forallb (selfEqual W (equalFuncs c) fuel) vs = true ->
  selfTracker c d ->
  exists d',
    forIndex (List.length vs) (fun i =>
      walkSub W L (walk W L fuel) fuel (fmt i) (arg i) (x i) (x i)) (d, e)
    = Ok (d', e) /\ selfTracker c d'.
Proof.
  intros Hx Hall T. unfold forIndex.
  apply forRange_self with (c := c); [|exact T].
  intros i d0 Hi T0. apply in_seq in Hi.
  destruct (Hx i ltac:(lia)) as (Ha & v & Ev & En).
  apply walkSub_self with (v := v); auto.
  rewrite forallb_forall in Hall. apply Hall.
  eapply nth_error_In; eauto.
Qed.

End SelfStep.

Lemma selfEqual_pointerish W ef fuel t dat :
  selfEqual W ef (S fuel) (reflect.Val t dat) = true ->
  reflect.KindOf W t = reflect.Ptr \/ reflect.KindOf W t = reflect.Map \/
  reflect.KindOf W t = reflect.Slice ->
  exists b p, reflect.IsNil (reflect.Val t dat) = Ok b /\
              reflect.PointerOf (reflect.Val t dat) = Ok p.
Proof.
  simpl. intros H [K|[K|K]]; rewrite K in H;
    destruct dat; try discriminate H; simpl; eauto.
Qed.

Lemma walk_selfEqual W L c :
  xform c = [] -> format c = [] ->
  forall fuel v d e xo wt,
    selfEqual W (equalFuncs c) fuel v = true -> selfTracker c d ->
    selfResult c e (walk W L fuel d e v v xo wt).
Proof.
  intros Hx Hf. induction fuel as [|fuel IH]; intros v d e xo wt Hs T;
    [discriminate Hs|].
  destruct v as [|t dat]; [exists d; simpl; auto|].
  rewrite walk_same_type. cbv zeta.
  destruct (@checkCycles_self W c d e t dat T
              (selfEqual_pointerish _ _ _ _ _ Hs)) as [(d1 & Ec & T1)|Ec];
    rewrite Ec; cbn [bind]; [|exists d; auto].
  assert (C1 : cfg d1 = c) by apply T1.
  destruct (@no_hooks_checks (walk W L fuel) d1 e (reflect.Val t dat)
              (reflect.Val t dat) t xo) as [Ex Ef];
    [rewrite C1; exact Hx | rewrite C1; exact Hf |].
  rewrite Ex. cbn [bind]. rewrite Ef. cbn [bind].
  simpl in Hs.
  unfold walkKind, eqtest, emitPointers.
  destruct (reflect.KindOf W t) eqn:K; destruct dat; try discriminate Hs.
  all: cbn [reflect.BoolOf reflect.IntOf reflect.UintOf reflect.FloatOf
            reflect.ComplexOf reflect.PointerOf reflect.IsNil reflect.Len
            reflect.Elem bind scalar_eqb fst snd].
  all: rewrite ?Z.eqb_refl, ?String.eqb_refl, ?Bool.eqb_reflx, ?Nat.eqb_refl,
               ?C1.
  all: cbn [negb andb orb bind].
  all: try (rewrite walkXformed_false; exists d1; auto; fail).
  - (* Float32 *)
    rewrite Hs. cbn [negb bind]. rewrite walkXformed_false. exists d1; auto.
  - (* Float64 *)
    rewrite Hs. cbn [negb bind]. rewrite walkXformed_false. exists d1; auto.
  - (* Complex64 *)
    rewrite Hs. cbn [negb bind]. rewrite walkXformed_false. exists d1; auto.
  - (* Complex128 *)
    rewrite Hs. cbn [negb bind]. rewrite walkXformed_false. exists d1; auto.
  - (* Array *)
    destruct (reflect.TLen W t) as [len| |]; try discriminate Hs.
    apply andb_true_iff in Hs. destruct Hs as [Hl Hall].
    apply Nat.eqb_eq in Hl. subst len. cbn [bind].
    destruct (@elements_self W L c fuel IH vs d1 e
                (fun i => reflect.Index W (reflect.Val t (reflect.DElems vs)) i)
                (fun _ => "[%d]") (fun i => [AInt (Z.of_nat i)]))
      as (d2 & E2 & T2); auto.
    { intros i Hi. split; [repeat constructor|]. simpl.
      destruct (nth_error vs i) as [v|] eqn:En; [eauto|].
      apply nth_error_None in En. lia. }
    rewrite E2. cbn [bind]. rewrite walkXformed_false. exists d2; auto.
  - (* Func *)
    destruct (equalFuncs c); cbn [orb] in Hs.
    + cbn [bind]. rewrite walkXformed_false. exists d1; auto.
    + rewrite Hs. cbn [negb orb bind]. rewrite walkXformed_false.
      exists d1; auto.
  - (* Interface *)
    destruct (IH v d1 e true true Hs T1) as (d2 & E2 & T2).
    rewrite E2. cbn [bind]. rewrite walkXformed_false. exists d2; auto.
  - (* Struct *)
    destruct (reflect.NumField W t) as [num| |] eqn:En; try discriminate Hs.
    apply andb_true_iff in Hs. destruct Hs as [Hl Hall].
    apply Nat.eqb_eq in Hl. subst num. cbn [bind]. unfold forIndex.
    destruct (@forRange_self nat c e (seq 0 (List.length vs))
      (fun i s =>
         name <- reflect.FieldName W t i ;;
         walkSub W L (walk W L fuel) fuel ("." ++ name) []
           (reflect.Field (reflect.Val t (reflect.DElems vs)) i)
           (reflect.Field (reflect.Val t (reflect.DElems vs)) i) s))
      with (d := d1) as (d2 & E2 & T2); auto.
    { intros i d0 Hi T0. apply in_seq in Hi.
      unfold reflect.NumField in En. unfold reflect.FieldName.
      destruct (reflect.lit W t); try discriminate En.
      injection En as En.
      destruct (nth_error fields i) as [[name ft]|] eqn:Ef';
        [|apply nth_error_None in Ef'; lia].
      cbn [bind].
      destruct (nth_error vs i) as [v|] eqn:Ev;
        [|apply nth_error_None in Ev; lia].
      apply walkSub_self with (v := v); auto.
      - simpl. rewrite Ev. reflexivity.
      - rewrite forallb_forall in Hall. apply Hall.
        eapply nth_error_In; eauto. }
    rewrite E2. cbn [bind]. rewrite walkXformed_false. exists d2; auto.
Qed.

(** X5.  A value that holds data of its kind, no floating-point number
    that differs from itself and no non-nil function (unless functions are
    taken as equal) equals itself: with no transform and no format function
    registered the comparison of the value with itself returns with the sink
    untouched, and [equal] answers true. *)
Theorem X5_value_equals_itself (W : reflect.world) (L : lib) fuel c v :
  xform c = [] -> format c = [] ->
  selfEqual W (equalFuncs c) fuel v = true ->
  (exists d, each W L fuel c v v = Ok (d, rootEmitter c)) /\
  (forall d, cfg d = c -> equal W L fuel d v v = Ok true).
Proof.
  intros Hx Hf Hs. split.
  - unfold each.
    destruct (@walk_selfEqual W L c Hx Hf fuel v (fresh c) (rootEmitter c)
                true true Hs) as (d' & E & _).
    { repeat split; simpl; try discriminate. }
    exists d'. exact E.
  - intros d C. rewrite equal_unfold.
    destruct (@walk_selfEqual W L (defaultRules c) eq_refl eq_refl fuel v
                (fresh (defaultRules c)) (Count {| n := 0 |})
                true true Hs) as (d' & E & _).
    { repeat split; simpl; try discriminate. }
    rewrite C, E. reflexivity.
Qed.

Lemma X5_witness :
  (exists d, each exampleWorld exampleLib 2 exampleConfig (node 7 1) (node 7 1)
             = Ok (d, rootEmitter exampleConfig)) /\
  (forall d, cfg d = exampleConfig ->
     equal exampleWorld exampleLib 2 d (node 7 1) (node 7 1) = Ok true).
Proof.
  apply (@X5_value_equals_itself exampleWorld exampleLib 2%nat exampleConfig
           (node 7 1)); reflexivity.
Defined.

(** ** Keys that do not equal themselves *)

Lemma SFeqb_refl_r (f g : spec_float) : SFeqb f g = true -> SFeqb g g = true.
Proof.
  unfold SFeqb.
  destruct g as [s| s| |s m e]; destruct f as [s'| s'| |s' m' e'];
    simpl; try discriminate; intros _.
  all: try reflexivity.
  all: try (destruct s; reflexivity).
  all: rewrite Z.compare_refl, Pos.compare_cont_refl; destruct s; reflexivity.
Qed.

(** A key found equal to some key is equal to itself. *)
Lemma keyEq_refl_r (b : reflect.Value) :
  forall a, reflect.keyEq a b = true -> reflect.keyEq b b = true.
Proof.
  induction b using Value_nested_ind
    with (Q := fun y => forall x, reflect.dataEq x y = true ->
                                  reflect.dataEq y y = true).
  - intros. reflexivity.
  - intros [|u x]; simpl; [discriminate|].
    rewrite andb_true_iff. intros [_ H]. rewrite rtype_eqb_refl. simpl.
    eapply IHb. exact H.
  - intros. simpl. apply Bool.eqb_reflx.
  - intros. simpl. apply Z.eqb_refl.
  - intros. simpl. apply Z.eqb_refl.
  - intros [] H; simpl in *; try discriminate H. eapply SFeqb_refl_r; eauto.
  - intros [] H; simpl in *; try discriminate H.
    apply andb_true_iff in H. destruct H as [H1 H2].
    apply SFeqb_refl_r in H1, H2. rewrite H1, H2. reflexivity.
  - intros. simpl. apply String.eqb_refl.
  - intros [] E; simpl in E; try discriminate E. simpl.
    revert vs0 E. induction H as [|v vs Hv Hvs IH]; intros [|w ws] E;
      try discriminate E; [reflexivity|].
    apply andb_true_iff in E. destruct E as [E1 E2].
    rewrite (Hv _ E1). simpl. eapply IH. exact E2.
  - intros. simpl. apply Z.eqb_refl.
  - intros [] H; simpl in *; discriminate H.
  - intros [] H; simpl in *; try discriminate H. eapply IHb. exact H.
Qed.

Lemma lookup_self_unequal k es :
  reflect.keyEq k k = false -> reflect.lookup k es = reflect.Zero.
Proof.
  intro H. induction es as [|[k' v] es IH]; simpl; [reflexivity|].
  destruct (reflect.keyEq k' k) eqn:E; [|exact IH].
  apply keyEq_refl_r in E. congruence.
Qed.

(** X6.  A map key that is not equal to itself (a NaN, or a composite key
    that holds one) is found in neither map: [keyDiff] lists it among the
    keys only in A when A holds it, among the keys only in B when B holds it,
    and never among the shared keys. *)
Theorem X6_self_unequal_key_removed_and_added (W : reflect.world) t pa pb k
  ak both bk :
  pa <> 0 -> pb <> 0 ->
  reflect.keyEq k k = false ->
  keyDiff W (reflect.Val t (reflect.DPointer pa))
    (reflect.Val t (reflect.DPointer pb)) = Ok (ak, both, bk) ->
  (In k (keysAt W t pa) -> In k ak) /\
  (In k (keysAt W t pb) -> In k bk) /\
  ~ In k both.
Proof.
  intros Ha Hb Hk H.
  rewrite keyDiff_spec in H by assumption. injection H as <- <- <-.
  assert (Na : hasKey W t pa k = false).
  { unfold hasKey. rewrite lookup_self_unequal by exact Hk. reflexivity. }
  assert (Nb : hasKey W t pb k = false).
  { unfold hasKey. rewrite lookup_self_unequal by exact Hk. reflexivity. }
  split; [|split].
  - intro Hin. apply filter_In. rewrite Nb. auto.
  - intro Hin. apply filter_In. rewrite Na. auto.
  - intro Hin. apply filter_In in Hin. destruct Hin as [_ Hin]. congruence.
Qed.

Lemma X6_witness :
  (In nanV (keysAt nanKeyWorld nanMapT 1) -> In nanV [nanV]) /\
  (In nanV (keysAt nanKeyWorld nanMapT 2) -> In nanV [nanV]) /\
  ~ In nanV [].
Proof.
  apply (@X6_self_unequal_key_removed_and_added nanKeyWorld nanMapT 1 2 nanV
           [nanV] [] [nanV]);
    [discriminate | discriminate | reflexivity | reflexivity].
Defined.

Lemma removedKey_count W L fuel av bv ks c e' :
  forRange ks (removedKey W L fuel av bv) (Count c) = Ok e' ->
  e' = Count {| n := n c + List.length ks |}.
Proof.
  revert c. induction ks as [|k ks IH]; intros c H; simpl in H.
  - injection H as <-. destruct c. simpl. rewrite Nat.add_0_r. reflexivity.
  - apply bind_Ok in H. destruct H as (e1 & E1 & H).
    unfold removedKey in E1. cbn [subf bind] in E1.
    apply bind_Ok in E1. destruct E1 as (x & _ & E1).
    apply bind_Ok in E1. destruct E1 as (y & _ & E1).
    cbn [emitf bind resume] in E1. injection E1 as <-.
    apply IH in H. subst e'. unfold countEmitter_emitf, countEmitter_subf.
    simpl. do 2 f_equal. lia.
Qed.

Lemma addedKey_count W L fuel av bv ks c e' :
  forRange ks (addedKey W L fuel av bv) (Count c) = Ok e' ->
  e' = Count {| n := n c + List.length ks |}.
Proof.
  revert c. induction ks as [|k ks IH]; intros c H; simpl in H.
  - injection H as <-. destruct c. simpl. rewrite Nat.add_0_r. reflexivity.
  - apply bind_Ok in H. destruct H as (e1 & E1 & H).
    unfold addedKey in E1. cbn [subf bind] in E1.
    apply bind_Ok in E1. destruct E1 as (x & _ & E1).
    apply bind_Ok in E1. destruct E1 as (y & _ & E1).
    cbn [emitf bind resume] in E1. injection E1 as <-.
    apply IH in H. subst e'. unfold countEmitter_emitf, countEmitter_subf.
    simpl. do 2 f_equal. lia.
Qed.

Lemma equal_map_self_unequal_key W L fuel d t pa pb k r :
  reflect.KindOf W t = reflect.Map -> pa <> 0 -> pb <> 0 -> pa <> pb ->
  reflect.keyEq k k = false ->
  In k (keysAt W t pa) \/ In k (keysAt W t pb) ->
  equal W L (S fuel) d (reflect.Val t (reflect.DPointer pa))
    (reflect.Val t (reflect.DPointer pb)) = Ok r ->
  r = false.
Proof.
  intros K Ha Hb Hab Hk Hin H. rewrite equal_unfold in H.
  set (av := reflect.Val t (reflect.DPointer pa)) in *.
  set (bv := reflect.Val t (reflect.DPointer pb)) in *.
  apply bind_Ok in H. destruct H as ([d' e'] & Hw & H). injection H as <-.
  rewrite (@walk_map W L fuel _ _ t pa pb true true
             (register (fresh (defaultRules (cfg d)))
                {| vp := pa; vt := t |} {| vp := pb; vt := t |})
             (false, reflect.Zero, reflect.Zero) K Ha Hb Hab) in Hw.
  2:{ apply reachesSwitch_plain; try reflexivity.
      rewrite checkCycles_identity
        with (a := {| vp := pa; vt := t |}) (b := {| vp := pb; vt := t |})
        by (apply identity_map; assumption).
      reflexivity. }
  apply bind_Ok in Hw. destruct Hw as (e1 & H1 & Hw).
  apply bind_Ok in Hw. destruct Hw as ([d2 e2] & H2 & Hw).
  apply bind_Ok in Hw. destruct Hw as (e3 & H3 & Hw).
  unfold finish in Hw. cbn [fst snd] in Hw, H3.
  rewrite walkXformed_false in Hw. injection Hw as <- <-.
  apply removedKey_count in H1. subst e1.
  assert (L2 : later (Count {| n := 0 + List.length
              (filter (fun k => negb (hasKey W t pb k)) (keysAt W t pa)) |}) e2).
  { change e2 with (snd (d2, e2)).
    refine (@forRange_later _ _ _ _ (_, _) (d2, e2) H2).
    intros x s s'. unfold sharedKey. apply walkSub_later.
    intros. eapply walk_later; eauto. }
  destruct e2 as [|c2]; [contradiction|]. simpl in L2.
  apply addedKey_count in H3. subst e3.
  assert (Na : hasKey W t pa k = false).
  { unfold hasKey. rewrite lookup_self_unequal by exact Hk. reflexivity. }
  assert (Nb : hasKey W t pb k = false).
  { unfold hasKey. rewrite lookup_self_unequal by exact Hk. reflexivity. }
  simpl. unfold countEmitter_didEmit. simpl.
  apply negb_false_iff, Nat.ltb_lt.
  destruct Hin as [Hin|Hin].
  - assert (I : In k (filter (fun k => negb (hasKey W t pb k)) (keysAt W t pa))).
    { apply filter_In. rewrite Nb. auto. }
    destruct (filter (fun k => negb (hasKey W t pb k)) (keysAt W t pa));
      [destruct I|]. simpl in L2. lia.
  - assert (I : In k (filter (fun k => negb (hasKey W t pa k)) (keysAt W t pb))).
    { apply filter_In. rewrite Na. auto. }
    destruct (filter (fun k => negb (hasKey W t pa k)) (keysAt W t pb));
      [destruct I|]. simpl. lia.
Qed.

(** X7.  Two non-nil maps in different storage never compare equal under
    [equal] when one of them holds a key that is not equal to itself. *)
Theorem X7_maps_with_self_unequal_key_differ (W : reflect.world) (L : lib)
  fuel d t pa pb k :
  reflect.KindOf W t = reflect.Map -> pa <> 0 -> pb <> 0 -> pa <> pb ->
  reflect.keyEq k k = false ->
  In k (keysAt W t pa) \/ In k (keysAt W t pb) ->
  equal W L (S fuel) d (reflect.Val t (reflect.DPointer pa))
    (reflect.Val t (reflect.DPointer pb)) <> Ok true.
Proof.
  intros K Ha Hb Hab Hk Hin H.
  apply equal_map_self_unequal_key with (k := k) in H; auto. discriminate H.
Qed.

Lemma X7_witness :
  equal nanKeyWorld exampleLib 3 (fresh exampleConfig)
    (reflect.Val nanMapT (reflect.DPointer 1))
    (reflect.Val nanMapT (reflect.DPointer 2)) <> Ok true.
Proof.
  apply (@X7_maps_with_self_unequal_key_differ nanKeyWorld exampleLib 2%nat
           (fresh exampleConfig) nanMapT 1 2 nanV);
    try discriminate; try reflexivity.
  left. left. reflexivity.
Defined.

(** ** The renderer *)

Lemma writeTo_pointerCycle W L (C : reflect.Value -> Prop) :
  pointerCycle W C ->
  forall fuel f v wantType depth,
    C v -> writeTo W L fuel f v wantType depth = OutOfFuel.
Proof.
  intros HC. induction fuel as [|fuel IH]; intros f v wantType depth Hv;
    [reflexivity|].
  destruct (HC v Hv) as (t & [(a & et & -> & K & Ha & Hd)|(x & -> & K & Hx)]).
  - simpl. unfold reflect.KindOf, reflect.TElem. rewrite K.
    cbn [reflect.IsNil bind].
    apply Z.eqb_neq in Ha. rewrite Ha. cbn [bind reflect.Elem].
    rewrite IH by exact Hd. reflexivity.
  - simpl. rewrite K. cbn [reflect.Elem bind]. apply IH. exact Hx.
Qed.

(** X8.  The renderer does not detect cycles: a value from which only
    non-nil pointers and interfaces lead on, to such values again, is never
    rendered; whatever the bound on the recursion, [writeTo], [Format] and a
    formatting call that takes the formatter run out of it. *)
Theorem X8_pointer_cycle_never_rendered (W : reflect.world) (L : lib)
  (C : reflect.Value -> Prop) :
  pointerCycle W C ->
  forall fuel f,
    (forall v wantType depth,
       C v -> writeTo W L fuel f v wantType depth = OutOfFuel) /\
    (C (root f) -> Format W L fuel f = OutOfFuel) /\
    (C (root f) ->
     Sprintf W L fuel "%v != %v" [AFormatter f; AFormatter f] = OutOfFuel).
Proof.
  intros HC fuel f. split; [|split].
  - intros. apply writeTo_pointerCycle with (C := C); assumption.
  - intro Hr. unfold Format.
    rewrite writeTo_pointerCycle with (C := C) by assumption. reflexivity.
  - intro Hr. simpl. unfold Format.
    rewrite writeTo_pointerCycle with (C := C) by assumption. reflexivity.
Qed.

Lemma X8_witness :
  Format loopWorld exampleLib 1000
    (formatFull (reflect.Val selfT (reflect.DPointer 1))) = OutOfFuel.
Proof.
  refine (proj1 (proj2 (@X8_pointer_cycle_never_rendered loopWorld exampleLib
            (fun v => v = reflect.Val selfT (reflect.DPointer 1)) _ 1000%nat
            (formatFull (reflect.Val selfT (reflect.DPointer 1))))) eq_refl).
  intros v ->. exists selfT. left. exists 1, selfT.
  repeat split. discriminate.
Defined.

(** *** nil *)

Lemma writeTo_nil W L fuel f t d wantType depth :
  reflect.IsNil (reflect.Val t d) = Ok true ->
  (reflect.KindOf W t = reflect.Func \/ reflect.KindOf W t = reflect.Map \/
   reflect.KindOf W t = reflect.Ptr \/ reflect.KindOf W t = reflect.Slice \/
   reflect.KindOf W t = reflect.Chan) ->
  writeTo W L (S fuel) f (reflect.Val t d) wantType depth
  = writeTypedNil W t wantType.
Proof.
  intros Hn K. cbn [writeTo]. unfold writeToBody.
  destruct K as [K|[K|[K|[K|K]]]]; rewrite K, Hn; reflexivity.
Qed.

(** X10.  nil is rendered as nil: the zero Value as ["nil"]; a nil func,
    map, pointer, slice or chan as ["nil"] when no type is wanted and as its
    type applied to nil otherwise, the type in parentheses for an unnamed
    func, pointer or chan type, at every depth and in both modes; a nil
    interface as ["nil"] even when the type is wanted. *)
Theorem X10_nil_is_rendered_as_nil (W : reflect.world) (L : lib) fuel f
  wantType depth :
  writeTo W L (S fuel) f reflect.Zero wantType depth = Ok "nil" /\
  (forall t d,
     reflect.IsNil (reflect.Val t d) = Ok true ->
     reflect.KindOf W t = reflect.Func \/ reflect.KindOf W t = reflect.Map \/
     reflect.KindOf W t = reflect.Ptr \/ reflect.KindOf W t = reflect.Slice \/
     reflect.KindOf W t = reflect.Chan ->
     writeTo W L (S fuel) f (reflect.Val t d) false depth = Ok "nil" /\
     writeTo W L (S fuel) f (reflect.Val t d) true depth
     = (s <- writeType W t ;;
        Ok (if match reflect.KindOf W t with
               | reflect.Map | reflect.Slice => false
               | _ => (reflect.Name t =? "")%string
               end
            then "(" ++ s ++ ")(nil)" else s ++ "(nil)")%string)) /\
  (forall t,
     reflect.KindOf W t = reflect.Interface ->
     writeTo W L (S (S fuel)) f (reflect.Val t (reflect.DIface reflect.Zero))
       wantType depth = Ok "nil").
Proof.
  split; [reflexivity|]. split.
  - intros t d Hn K. rewrite !writeTo_nil by assumption.
    split; [reflexivity|]. unfold writeTypedNil.
    destruct (writeType W t) as [s| |]; try reflexivity. cbn [bind].
    destruct K as [K|[K|[K|[K|K]]]]; rewrite K;
      try destruct (reflect.Name t =? "")%string; reflexivity.
  - intros t K. simpl. rewrite K. reflexivity.
Qed.

Lemma X10_witness :
  writeTo exampleWorld exampleLib 1 (formatShort (nodeAt 0) true) (nodeAt 0)
    false 1 = Ok "nil" /\
  writeTo exampleWorld exampleLib 1 (formatShort (nodeAt 0) true) (nodeAt 0)
    true 1 = Ok "(*main.node)(nil)".
Proof.
  destruct (proj1 (proj2 (@X10_nil_is_rendered_as_nil exampleWorld exampleLib
              0%nat (formatShort (nodeAt 0) true) true 1))
              nodePtr (reflect.DPointer 0) eq_refl
              (or_intror (or_intror (or_introl eq_refl)))) as [A B].
  split; [exact A|]. eapply eq_trans; [exact B | reflexivity].
Defined.

(** *** The short form *)

Lemma append_nil_r (s : string) : (s ++ "")%string = s.
Proof. induction s; simpl; congruence. Qed.

(** The loop of the short form over the indices [0 .. n-1]: the element at
    index 0, then [", ..."] if there are more. *)
Lemma writeEach_short (n : nat) (first : result string) :
  writeEach (seq 0 n) (fun i =>
    if (0 <? i)%nat then Ok (", ...", true)
    else s <- first ;; Ok (s, false))
  = match n with
    | O => Ok ""
    | S m => s <- first ;; Ok (s ++ if (0 <? m)%nat then ", ..." else "")%string
    end.
Proof.
  destruct n as [|[|m]]; simpl; [reflexivity| |];
    destruct first as [s| |]; simpl; reflexivity.
Qed.

Lemma writeEach_ext' {A} (xs : list A) (f g : A -> result (string * bool)) :
  (forall x, f x = g x) -> writeEach xs f = writeEach xs g.
Proof.
  intro E. induction xs as [|x xs IH]; simpl; [reflexivity|].
  rewrite E, IH. reflexivity.
Qed.

Lemma writeTo_short_slice W L fuel f t p n wantType depth :
  let v := reflect.Val t (reflect.DSlice p n) in
  reflect.KindOf W t = reflect.Slice -> p <> 0 -> full f = false ->
  writeTo W L (S fuel) f v wantType depth
  = (ty <- (if wantType then writeType W t else Ok "") ;;
     if (allowDepth f <=? depth) && (0 <? n)%nat then Ok (ty ++ "{...}")%string
     else
       match n with
       | O => Ok (ty ++ "{}")%string
       | S m =>
           s <- writeTo W L fuel f (reflect.sliceData W t p 0) false (depth + 1) ;;
           Ok (ty ++ "{" ++ s ++ (if (0 <? m)%nat then ", ..." else "") ++ "}")%string
       end).
Proof.
  intros v K Hp Hf. subst v. cbn [writeTo]. unfold writeToBody.
  rewrite K. cbn [reflect.IsNil bind reflect.Len].
  apply Z.eqb_neq in Hp. rewrite Hp.
  apply bind_ext. intro ty.
  destruct ((allowDepth f <=? depth) && (0 <? n)%nat); [reflexivity|].
  rewrite Hf. cbn [andb negb].
  rewrite writeEach_ext' with
    (g := fun i => if (0 <? i)%nat then Ok (", ...", true)
                   else s <- (x <- reflect.Index W (reflect.Val t (reflect.DSlice p n)) 0 ;;
                              writeTo W L fuel f x false (depth + 1)) ;;
                        Ok (s, false)).
  2:{ intros [|i]; simpl; [|reflexivity].
      rewrite ?bind_assoc. reflexivity. }
  rewrite writeEach_short.
  destruct n as [|m]; [reflexivity|].
  cbn [reflect.Index Nat.ltb Nat.leb bind].
  destruct (writeTo W L fuel f (reflect.sliceData W t p 0) false (depth + 1));
    try reflexivity.
  cbn [bind]. rewrite append_assoc. reflexivity.
Qed.

Lemma writeTo_short_array W L fuel f t vs n wantType depth :
  let v := reflect.Val t (reflect.DElems vs) in
  reflect.KindOf W t = reflect.Array -> reflect.TLen W t = Ok n ->
  full f = false ->
  writeTo W L (S fuel) f v wantType depth
  = (ty <- (if wantType then writeType W t else Ok "") ;;
     if (allowDepth f <=? depth) && (0 <? n)%nat then Ok (ty ++ "{...}")%string
     else
       match n with
       | O => Ok (ty ++ "{}")%string
       | S m =>
           x <- reflect.Index W v 0 ;;
           s <- writeTo W L fuel f x false (depth + 1) ;;
           Ok (ty ++ "{" ++ s ++ (if (0 <? m)%nat then ", ..." else "") ++ "}")%string
       end).
Proof.
  intros v K Hn Hf. subst v. cbn [writeTo]. unfold writeToBody.
  rewrite K, Hn. cbn [bind].
  apply bind_ext. intro ty.
  destruct ((allowDepth f <=? depth) && (0 <? n)%nat); [reflexivity|].
  rewrite Hf. cbn [andb].
  rewrite writeEach_ext' with
    (g := fun i => if (0 <? i)%nat then Ok (", ...", true)
                   else s <- (x <- reflect.Index W (reflect.Val t (reflect.DElems vs)) 0 ;;
                              writeTo W L fuel f x false (depth + 1)) ;;
                        Ok (s, false)).
  2:{ intros [|i]; simpl; [|reflexivity].
      rewrite ?bind_assoc. reflexivity. }
  rewrite writeEach_short.
  destruct n as [|m]; [reflexivity|].
  rewrite ?bind_assoc. apply bind_ext. intro x.
  rewrite ?bind_assoc. apply bind_ext. intro s.
  cbn [bind]. rewrite append_assoc. reflexivity.
Qed.

Lemma writeTo_short_struct W L fuel f t vs n wantType depth :
  let v := reflect.Val t (reflect.DElems vs) in
  reflect.KindOf W t = reflect.Struct -> reflect.NumField W t = Ok n ->
  full f = false ->
  writeTo W L (S fuel) f v wantType depth
  = (ty <- (if wantType then writeType W t else Ok "") ;;
     if (allowDepth f <=? depth) && (0 <? n)%nat then Ok (ty ++ "{...}")%string
     else
       match n with
       | O => Ok (ty ++ "{}")%string
       | S m =>
           name <- reflect.FieldName W t 0 ;;
           x <- reflect.Field v 0 ;;
           s <- writeTo W L fuel f x false (depth + 1) ;;
           Ok (ty ++ "{" ++ name ++ ":" ++ s
               ++ (if (0 <? m)%nat then ", ..." else "") ++ "}")%string
       end).
Proof.
  intros v K Hn Hf. subst v. cbn [writeTo]. unfold writeToBody.
  rewrite K, Hn. cbn [bind].
  apply bind_ext. intro ty.
  destruct ((allowDepth f <=? depth) && (0 <? n)%nat); [reflexivity|].
  rewrite Hf. cbn [andb].
  rewrite writeEach_ext' with
    (g := fun i => if (0 <? i)%nat then Ok (", ...", true)
                   else s <- (name <- reflect.FieldName W t 0 ;;
                              x <- reflect.Field (reflect.Val t (reflect.DElems vs)) 0 ;;
                              s <- writeTo W L fuel f x false (depth + 1) ;;
                              Ok (name ++ ":" ++ s)%string) ;;
                        Ok (s, false)).
  2:{ intros [|i]; simpl; [|reflexivity].
      rewrite ?bind_assoc. apply bind_ext. intro name.
      rewrite ?bind_assoc. apply bind_ext. intro x.
      rewrite ?bind_assoc. reflexivity. }
  rewrite writeEach_short.
  destruct n as [|m]; [reflexivity|].
  rewrite ?bind_assoc. apply bind_ext. intro name.
  rewrite ?bind_assoc. apply bind_ext. intro x.
  rewrite ?bind_assoc. apply bind_ext. intro s.
  cbn [bind]. rewrite !append_assoc. reflexivity.
Qed.

(** X9.  The short form ([full] is false) of a non-nil slice, an array and
    a struct shows the first element only, followed by [", ..."] when there
    are more; at or past the allowed depth a non-empty one is ["{...}"]. *)
Theorem X9_short_form_shows_first_element (W : reflect.world) (L : lib)
  fuel f t wantType depth :
  full f = false ->
  (forall p n,
     reflect.KindOf W t = reflect.Slice -> p <> 0 ->
     writeTo W L (S fuel) f (reflect.Val t (reflect.DSlice p n)) wantType depth
     = (ty <- (if wantType then writeType W t else Ok "") ;;
        if (allowDepth f <=? depth) && (0 <? n)%nat then Ok (ty ++ "{...}")%string
        else
          match n with
          | O => Ok (ty ++ "{}")%string
          | S m =>
              s <- writeTo W L fuel f (reflect.sliceData W t p 0) false (depth + 1) ;;
              Ok (ty ++ "{" ++ s ++ (if (0 <? m)%nat then ", ..." else "") ++ "}")%string
          end)) /\
  (forall vs n,
     reflect.KindOf W t = reflect.Array -> reflect.TLen W t = Ok n ->
     writeTo W L (S fuel) f (reflect.Val t (reflect.DElems vs)) wantType depth
     = (ty <- (if wantType then writeType W t else Ok "") ;;
        if (allowDepth f <=? depth) && (0 <? n)%nat then Ok (ty ++ "{...}")%string
        else
          match n with
          | O => Ok (ty ++ "{}")%string
          | S m =>
              x <- reflect.Index W (reflect.Val t (reflect.DElems vs)) 0 ;;
              s <- writeTo W L fuel f x false (depth + 1) ;;
              Ok (ty ++ "{" ++ s ++ (if (0 <? m)%nat then ", ..." else "") ++ "}")%string
          end)) /\
  (forall vs n,
     reflect.KindOf W t = reflect.Struct -> reflect.NumField W t = Ok n ->
     writeTo W L (S fuel) f (reflect.Val t (reflect.DElems vs)) wantType depth
     = (ty <- (if wantType then writeType W t else Ok "") ;;
        if (allowDepth f <=? depth) && (0 <? n)%nat then Ok (ty ++ "{...}")%string
        else
          match n with
          | O => Ok (ty ++ "{}")%string
          | S m =>
              name <- reflect.FieldName W t 0 ;;
              x <- reflect.Field (reflect.Val t (reflect.DElems vs)) 0 ;;
              s <- writeTo W L fuel f x false (depth + 1) ;;
              Ok (ty ++ "{" ++ name ++ ":" ++ s
                  ++ (if (0 <? m)%nat then ", ..." else "") ++ "}")%string
          end)).
Proof.
  intro Hf. split; [|split].
  - intros p n K Hp. apply writeTo_short_slice; assumption.
  - intros vs n K Hn. apply writeTo_short_array; assumption.
  - intros vs n K Hn. apply writeTo_short_struct; assumption.
Qed.

Lemma X9_witness :
  writeTo exampleWorld exampleLib 2 (formatShort (intsAt 40 3) true)
    (intsAt 40 3) true 1
  = Ok "[]int{0, ...}".
Proof.
  unfold intsAt.
  rewrite (proj1 (@X9_short_form_shows_first_element exampleWorld exampleLib
                    1%nat (formatShort (reflect.Val intsT (reflect.DSlice 40 3)) true)
                    intsT true 1 eq_refl)
             40 3%nat eq_refl ltac:(discriminate)).
  reflexivity.
Defined.

(** ** Functions, untyped nil and values of different types *)

(** X11.  Functions: with no hook registered for their type, two function
    values differ, by one "%v != %v" difference, unless both are nil or
    [equalFuncs] is set; so a non-nil function differs from itself, and with
    [equalFuncs] a nil function equals a non-nil one. *)
Theorem X11_functions (W : reflect.world) (L : lib) fuel d e t pa pb
  xformOk wantType :
  let av := reflect.Val t (reflect.DPointer pa) in
  let bv := reflect.Val t (reflect.DPointer pb) in
  reflect.KindOf W t = reflect.Func ->
  lookupType t (xform (cfg d)) = None ->
  lookupType t (format (cfg d)) = None ->
  walk W L (S fuel) d e av bv xformOk wantType
  = if equalFuncs (cfg d) || ((pa =? 0) && (pb =? 0)) then Ok (d, e)
    else e' <- emitf e av bv "%v != %v"
                 [AFormatter (formatShort av wantType);
                  AFormatter (formatShort bv wantType)] ;;
         Ok (d, e').
Proof.
  intros av bv K Hx Hf. subst av bv.
  rewrite walk_no_hooks with (d1 := d); try assumption.
  2:{ apply checkCycles_scalar; rewrite K; discriminate. }
  unfold walkKind, emitPointers. rewrite K.
  destruct (equalFuncs (cfg d)); [reflexivity|].
  cbn [reflect.IsNil bind orb].
  destruct (pa =? 0), (pb =? 0); cbn [negb orb andb bind]; try reflexivity;
    destruct (emitf e _ _ _ _); reflexivity.
Qed.

Lemma X11_witness :
  walk exampleWorld exampleLib 1
    {| cfg := {| level := level.auto; equalFuncs := true;
                 xform := []; format := [] |};
       aSeen := []; bSeen := [] |}
    (rootEmitter exampleConfig)
    (reflect.Val (reflect.TFunc [] [] false) (reflect.DPointer 0))
    (reflect.Val (reflect.TFunc [] [] false) (reflect.DPointer 5)) true true
  = Ok ({| cfg := {| level := level.auto; equalFuncs := true;
                     xform := []; format := [] |};
           aSeen := []; bSeen := [] |}, rootEmitter exampleConfig).
Proof.
  rewrite (@X11_functions exampleWorld exampleLib 0%nat
             {| cfg := {| level := level.auto; equalFuncs := true;
                          xform := []; format := [] |};
                aSeen := []; bSeen := [] |}
             (rootEmitter exampleConfig)
             (reflect.TFunc [] [] false) 0 5 true true eq_refl eq_refl eq_refl).
  reflexivity.
Defined.

(** X12.  Two zero Values are equal; a zero Value and a valid one differ
    by one difference, "nil != %v" or "%v != nil"; values of different types
    differ by one difference that names the two types.  In each case the walk
    returns at once: the tracker is unchanged and no hook is consulted. *)
Theorem X12_untyped_nil_and_type_mismatch (W : reflect.world) (L : lib)
  fuel d e xformOk wantType :
  walk W L (S fuel) d e reflect.Zero reflect.Zero xformOk wantType = Ok (d, e) /\
  (forall t x,
     walk W L (S fuel) d e reflect.Zero (reflect.Val t x) xformOk wantType
     = (e' <- emitf e reflect.Zero (reflect.Val t x) "nil != %v"
                [AFormatter (formatShort (reflect.Val t x) true)] ;;
        Ok (d, e'))) /\
  (forall t x,
     walk W L (S fuel) d e (reflect.Val t x) reflect.Zero xformOk wantType
     = (e' <- emitf e (reflect.Val t x) reflect.Zero "%v != nil"
                [AFormatter (formatShort (reflect.Val t x) true)] ;;
        Ok (d, e'))) /\
  (forall t u x y,
     t <> u ->
     walk W L (S fuel) d e (reflect.Val t x) (reflect.Val u y) xformOk wantType
     = (e' <- emitf e (reflect.Val t x) (reflect.Val u y) "%v != %v"
                [AType t; AType u] ;;
        Ok (d, e'))).
Proof.
  split; [reflexivity|]. split; [reflexivity|]. split; [reflexivity|].
  intros t u x y Hne. simpl. unfold walkBody. simpl.
  destruct (reflect.rtype_eqb t u) eqn:E.
  - apply rtype_eqb_eq in E. contradiction.
  - reflexivity.
Qed.

Lemma X12_witness :
  walk exampleWorld exampleLib 1 (fresh exampleConfig) (rootEmitter exampleConfig)
    (intV 1) (stringV "1") true true
  = (e' <- emitf (rootEmitter exampleConfig) (intV 1) (stringV "1") "%v != %v"
             [AType intT; AType stringT] ;;
     Ok (fresh exampleConfig, e')).
Proof.
  refine (proj2 (proj2 (proj2 (@X12_untyped_nil_and_type_mismatch exampleWorld
            exampleLib 0%nat (fresh exampleConfig) (rootEmitter exampleConfig)
            true true))) intT stringT _ _ _).
  discriminate.
Defined.
